(** * CodeArena server: models and route glue

    A shallow embedding of the Mongoose models ([server/models/Course.ts],
    [server/models/ProblemSet.ts]) and of the route registration
    ([registerRoutes]) of the CodeArena learning-platform backend, with the
    properties the specification states about them.

    Conventions.
    - A JavaScript [Number] the code computes with in floating point (the
      enrollment count of a course) is an IEEE 754 binary64 value
      ([Number.t], the Standard Library's [SpecFloat] at precision 53),
      with its rounding, its signed zeros, [NaN] and the infinities.  A
      [Number] that is only compared against the bounds of a schema (a
      rating, a rate) or averaged over a handful of small integers is an
      exact rational ([Qc]); problem ids, array lengths, positions and
      parsed integers are [Z].
    - A string is a sequence of code units below 256, one [ascii] each;
      text with other characters is outside the model.
    - A document field that may be unset is an [option]; [None] is
      [undefined].
    - An [ObjectId] is its 24-digit hexadecimal rendering.
    - [async] methods are state transformers over the persistence layer
      ([Mongoose.Db]); a rejected promise is an [Outcome] value. *)

From Stdlib Require Import ZArith QArith Qcanon Ascii String List Lia.
From Stdlib Require Import SpecFloat.
From stdpp Require Import base option list gmap sets strings pretty sorting.

Local Open Scope Z_scope.
Local Open Scope string_scope.
Local Open Scope list_scope.

(* ===================================================================== *)
(** ** JavaScript helpers used by the sources                            *)
(* ===================================================================== *)

(** A [Number] as a double: binary64 has 53 bits of precision and the
    exponent of its infinities is 1024. *)
Module Number.
Local Open Scope Z_scope.

Definition prec : Z := 53.
Definition emax : Z := 1024.

Definition t : Type := spec_float.

(** [a + b] and [a - b], correctly rounded (to nearest, ties to even). *)
Definition plus : t -> t -> t := SFadd prec emax.
Definition minus : t -> t -> t := SFsub prec emax.

(** The literal of an integer: the double nearest to it. *)
Definition of_Z (n : Z) : t := binary_normalize prec emax n 0 false.

Definition zero : t := S754_zero false.
Definition one : t := of_Z 1.

(** [a / b], correctly rounded. *)
Definition div : t -> t -> t := SFdiv prec emax.

(** A mantissa shifted left by [k] bits. *)
Definition shl (k : nat) (p : positive) : positive := Nat.iter k xO p.

(** A double of sign [s] (and so not [NaN]). *)
Definition has_sign (s : bool) (x : t) : Prop :=
  match x with
  | S754_zero s' | S754_infinity s' | S754_finite s' _ _ => s' = s
  | S754_nan => False
  end.

(** [a >= b]; false when either is [NaN]. *)
Definition ge (a b : t) : bool := SFleb b a.

(** A representation the format has: the mantissa is normalised and the
    exponent in range. *)
Definition valid (x : t) : bool := valid_binary prec emax x.

(** The double [x] is the integer [n]: a zero is 0, and a finite double of
    sign [s], mantissa [m] and exponent [e] is [(-1)^s * m * 2^e]. *)
Definition is_integer (x : t) (n : Z) : Prop :=
  match x with
  | S754_zero _ => n = 0
  | S754_finite s m e =>
      (0 <= e /\ cond_Zopp s (Zpos m) * 2 ^ e = n) \/
      (e < 0 /\ cond_Zopp s (Zpos m) = n * 2 ^ (- e))
  | S754_infinity _ | S754_nan => False
  end.

End Number.

Module Js.

(** [x || 0] on a Number: [undefined], [NaN], [0] and [-0] are falsy. *)
Definition or_zero (x : option Number.t) : Number.t :=
  match x with
  | Some (S754_zero _) | Some S754_nan | None => Number.zero
  | Some v => v
  end.

(** [Math.max(a, b)]: [NaN] when either is; [+0] is larger than [-0]. *)
Definition Math_max (a b : Number.t) : Number.t :=
  match a, b with
  | S754_nan, _ | _, S754_nan => S754_nan
  | S754_zero true, S754_zero false => b
  | _, _ => if SFltb a b then b else a
  end.

(** Truthiness of a string-or-undefined value ([!userId]). *)
Definition truthy_string (x : option string) : bool :=
  match x with
  | Some s => negb (String.eqb s "")
  | None => false
  end.

(** [s.includes(sub)]. *)
Fixpoint includes (sub s : string) : bool :=
  String.prefix sub s ||
  match s with
  | EmptyString => false
  | String _ s' => includes sub s'
  end.

(** *** [parseInt(string)] with no radix

    Leading white space is skipped, a sign is read, a [0x]/[0X] prefix
    selects radix 16, and the longest run of digits of the radix is the
    value; the rest of the string is ignored.  [None] is [NaN] (no
    digit). *)

(** White space and line terminators among the code units below 256: tab,
    line feed, vertical tab, form feed, carriage return, space and the
    no-break space. *)
Definition is_white_space (c : ascii) : bool :=
  let n := nat_of_ascii c in
  (Nat.eqb n 9 || Nat.eqb n 10 || Nat.eqb n 11 || Nat.eqb n 12 ||
   Nat.eqb n 13 || Nat.eqb n 32 || Nat.eqb n 160)%bool.

Fixpoint trim_start (s : string) : string :=
  match s with
  | String c s' => if is_white_space c then trim_start s' else s
  | EmptyString => s
  end.

(** [s.trim()]: white space goes from both ends. *)
Fixpoint trim_end (s : string) : string :=
  match s with
  | EmptyString => EmptyString
  | String c s' =>
      match trim_end s' with
      | EmptyString =>
          if is_white_space c then EmptyString else String c EmptyString
      | kept => String c kept
      end
  end.

Definition trim (s : string) : string := trim_end (trim_start s).

Definition digit_value (c : ascii) : option Z :=
  let n := Z.of_nat (nat_of_ascii c) in
  if ((48 <=? n) && (n <=? 57))%Z then Some (n - 48)
  else if ((97 <=? n) && (n <=? 122))%Z then Some (n - 97 + 10)
  else if ((65 <=? n) && (n <=? 90))%Z then Some (n - 65 + 10)
  else None.

(** The value of the longest prefix of digits below [radix]; [acc] is the
    value read so far ([None]: no digit yet). *)
Fixpoint read_digits (radix : Z) (s : string) (acc : option Z) : option Z :=
  match s with
  | String c s' =>
      match digit_value c with
      | Some d =>
          if (d <? radix)%Z
          then read_digits radix s' (Some (default 0 acc * radix + d))
          else acc
      | None => acc
      end
  | EmptyString => acc
  end.

Definition parseInt (input : string) : option Z :=
  let s := trim_start input in
  let '(sign, s) :=
    match s with
    | String "-" r => (-1, r)
    | String "+" r => (1, r)
    | _ => (1, s)
    end in
  let '(radix, s) :=
    match s with
    | String "0" (String "x" r) => (16, r)
    | String "0" (String "X" r) => (16, r)
    | _ => (10, s)
    end in
  Z.mul sign <$> read_digits radix s None.

(** *** [decodeURIComponent(string)]

    A [%XX] escape is one octet.  An octet below 128 is its character; an
    octet with [n] leading 1 bits starts a UTF-8 sequence of [n] escapes,
    which has to be the well-formed encoding of a code point.  [None] is a
    thrown [URIError]; the result is the list of UTF-16 code units. *)
Definition hex_value (c : ascii) : option Z :=
  match digit_value c with
  | Some d => if (d <? 16)%Z then Some d else None
  | None => None
  end.

Definition ParseHexOctet (a b : ascii) : option Z :=
  h ← hex_value a; l ← hex_value b; Some (16 * h + l)%Z.

(** The number of leading 1 bits of an octet (5 stands for more than 4). *)
Definition leading_ones (B : Z) : nat :=
  if (B <? 128)%Z then 0%nat
  else if (B <? 192)%Z then 1%nat
  else if (B <? 224)%Z then 2%nat
  else if (B <? 240)%Z then 3%nat
  else if (B <? 248)%Z then 4%nat
  else 5%nat.

(** The code point a sequence of two to four octets encodes, when the
    sequence is well formed: the octets after the first are [10xxxxxx],
    the encoding is the shortest one of the code point, and the code point
    is no surrogate and at most [0x10FFFF]. *)
Definition utf8_code_point (octets : list Z) : option Z :=
  match octets with
  | B :: rest =>
      if forallb (fun c => (128 <=? c) && (c <? 192))%Z rest then
        let n := S (length rest) in
        let V :=
          fold_left (fun v c => v * 64 + c mod 64)%Z rest
            (B mod 2 ^ (7 - Z.of_nat n))%Z in
        let least :=
          match n with 2%nat => 128 | 3%nat => 2048 | _ => 65536 end%Z in
        if ((least <=? V) && (V <=? 1114111) &&
            negb ((55296 <=? V) && (V <=? 57343)))%Z
        then Some V else None
      else None
  | [] => None
  end.

Definition UTF16EncodeCodePoint (V : Z) : list Z :=
  if (V <=? 65535)%Z then [V]
  else [((V - 65536) / 1024 + 55296)%Z; ((V - 65536) mod 1024 + 56320)%Z].

(** [octets] are the octets read of a sequence that still needs [need]. *)
Fixpoint Decode (s : string) (octets : list Z) (need : nat)
    : option (list Z) :=
  match s with
  | EmptyString => match need with O => Some [] | S _ => None end
  | String c s' =>
      if Ascii.eqb c "%" then
        match s' with
        | String a (String b rest) =>
            match ParseHexOctet a b, need with
            | None, _ => None
            | Some B, O =>
                match leading_ones B with
                | 0%nat => cons B <$> Decode rest [] 0%nat
                | 2%nat => Decode rest [B] 1%nat
                | 3%nat => Decode rest [B] 2%nat
                | 4%nat => Decode rest [B] 3%nat
                | _ => None
                end
            | Some B, 1%nat =>
                match utf8_code_point (octets ++ [B]) with
                | Some V =>
                    app (UTF16EncodeCodePoint V) <$> Decode rest [] 0%nat
                | None => None
                end
            | Some B, S k => Decode rest (octets ++ [B]) k
            end
        | _ => None
        end
      else
        match need with
        | O => cons (Z.of_nat (nat_of_ascii c)) <$> Decode s' [] 0%nat
        | S _ => None
        end
  end.

Definition decodeURIComponent (s : string) : option (list Z) :=
  Decode s [] 0%nat.

(** ASCII lower case, for case-insensitive comparison. *)
Definition lower (c : ascii) : ascii :=
  let n := nat_of_ascii c in
  if (Nat.leb 65 n && Nat.leb n 90)%bool then ascii_of_nat (n + 32) else c.

Fixpoint toLowerCase (s : string) : string :=
  match s with
  | String c s' => String (lower c) (toLowerCase s')
  | EmptyString => EmptyString
  end.

(** [s.split(sep)] for a one-character separator. *)
Fixpoint split (sep : ascii) (s : string) : list string :=
  match s with
  | EmptyString => [EmptyString]
  | String c s' =>
      if Ascii.eqb c sep then EmptyString :: split sep s'
      else match split sep s' with
           | w :: ws => String c w :: ws
           | [] => [String c EmptyString]
           end
  end.

End Js.

(* ===================================================================== *)
(** ** Mongoose: validators, [save] and its errors                       *)
(* ===================================================================== *)

(** Mongoose is a dependency of the server; the definitions follow its
    documented behaviour.  [required] rejects an unset path (for a String,
    the empty string too); [enum], [min] and [max] are not run on an unset
    path; [save] validates the whole document before it writes, and a
    failed validation rejects with every failed validator. *)
Module Mongoose.

Inductive ValidatorKind := KRequired | KEnum | KMin | KMax.

(** One failed validator: the schema path, the rule, and the message the
    schema declares for it (when it declares one). *)
Record ValidatorError := mkValidatorError {
  ve_path : string;
  ve_kind : ValidatorKind;
  ve_message : option string
}.

Inductive Error :=
  | ValidationError (errors : list ValidatorError)
  | StorageError
  | JsError (message : string).

Inductive Outcome := Resolved | Rejected (e : Error).

(** [required: true] on a Number path: the path must be set. *)
Definition required_number {A : Type} (path : string) (msg : option string)
    (v : option A) : list ValidatorError :=
  match v with
  | Some _ => []
  | None => [mkValidatorError path KRequired msg]
  end.

(** [required: true] on a String path: the empty string does not count. *)
Definition required_string (path : string) (msg : option string)
    (v : option string) : list ValidatorError :=
  if Js.truthy_string v then [] else [mkValidatorError path KRequired msg].

(** [enum: values]; an unset path is not validated.  [msg] computes the
    message from the offending value (the [{VALUE}] template). *)
Definition enum_validator (path : string) (values : list string)
    (msg : option (string -> string)) (v : option string)
    : list ValidatorError :=
  match v with
  | None => []
  | Some s =>
      if existsb (String.eqb s) values then []
      else [mkValidatorError path KEnum (option_map (fun f => f s) msg)]
  end.

(** [min: [bound, msg]]; an unset path is not validated. *)
Definition min_validator (path : string) (bound : Qc) (msg : option string)
    (v : option Qc) : list ValidatorError :=
  match v with
  | None => []
  | Some q => if decide (bound ≤ q)%Qc then []
              else [mkValidatorError path KMin msg]
  end.

(** [min] on a path that holds a double: [value >= bound]. *)
Definition min_validator_double (path : string) (bound : Number.t)
    (msg : option string) (v : option Number.t) : list ValidatorError :=
  match v with
  | None => []
  | Some x => if Number.ge x bound then []
              else [mkValidatorError path KMin msg]
  end.

(** [max: [bound, msg]]; an unset path is not validated. *)
Definition max_validator (path : string) (bound : Qc) (msg : option string)
    (v : option Qc) : list ValidatorError :=
  match v with
  | None => []
  | Some q => if decide (q ≤ bound)%Qc then []
              else [mkValidatorError path KMax msg]
  end.

(** The persistence layer behind a model: whether the store answers, and
    the snapshots written so far (latest first). *)
Record Db (D : Type) := mkDb {
  online : bool;
  saved : list D
}.
Arguments mkDb {D} _ _.
Arguments online {D} _.
Arguments saved {D} _.

Section Save.
Context {D : Type} (validate : D -> list ValidatorError).

(** [doc.save()]: validation runs first; a valid document is written. *)
Definition save (d : D) (db : Db D) : Db D * Outcome :=
  match validate d with
  | [] =>
      if online db
      then (mkDb (online db) (d :: saved db), Resolved)
      else (db, Rejected StorageError)
  | e :: es => (db, Rejected (ValidationError (e :: es)))
  end.

End Save.

End Mongoose.

(* ===================================================================== *)
(** ** server/models/Course.ts                                           *)
(* ===================================================================== *)

Module CourseModel.
Import Mongoose.

(** [ICourse], with the paths [courseSchema] declares.  A path holds its
    value after the schema's setters ([trim]) and defaults; the [createdAt]
    and [updatedAt] stamps are kept by Mongoose and no method below reads
    them. *)
Record Course := mkCourse {
  id : option Qc;
  title : option string;
  description : option string;
  category : option string;
  difficulty : option string;
  estimatedHours : option Qc;
  prerequisites : list string;
  learningObjectives : list string;
  problems : list Qc;
  modules : list Qc;
  enrolledUsers : list string;
  isPublic : bool;
  enableMarkComplete : bool;
  createdBy : option string;
  tags : list string;
  allowDirectEnrollment : bool;
  rating : option Qc;
  enrollmentCount : option Number.t;
  completionRate : option Qc
}.

(** [this.enrollmentCount = v]. *)
Definition set_enrollmentCount (v : option Number.t) (c : Course)
    : Course :=
  {| id := id c; title := title c; description := description c;
     category := category c; difficulty := difficulty c;
     estimatedHours := estimatedHours c; prerequisites := prerequisites c;
     learningObjectives := learningObjectives c; problems := problems c;
     modules := modules c; enrolledUsers := enrolledUsers c;
     isPublic := isPublic c; enableMarkComplete := enableMarkComplete c;
     createdBy := createdBy c; tags := tags c;
     allowDirectEnrollment := allowDirectEnrollment c; rating := rating c;
     enrollmentCount := v; completionRate := completionRate c |}.

Definition difficulty_values : list string :=
  ["beginner"; "intermediate"; "advanced"].

Definition difficulty_message (value : string) : string :=
  value ++ " is not a valid difficulty level".

(** The validators [courseSchema] declares, path by path. *)
Definition courseSchema_validate (c : Course) : list ValidatorError :=
  required_number "id" None (id c) ++
  required_string "title" (Some "Course title is required") (title c) ++
  enum_validator "difficulty" difficulty_values (Some difficulty_message)
    (difficulty c) ++
  min_validator "estimatedHours" 0%Qc
    (Some "Estimated hours cannot be negative") (estimatedHours c) ++
  min_validator "rating" 0%Qc (Some "Rating cannot be negative") (rating c) ++
  max_validator "rating" (Q2Qc 5) (Some "Rating cannot exceed 5") (rating c) ++
  min_validator_double "enrollmentCount" Number.zero
    (Some "Enrollment count cannot be negative") (enrollmentCount c) ++
  min_validator "completionRate" 0%Qc
    (Some "Completion rate cannot be negative") (completionRate c) ++
  max_validator "completionRate" (Q2Qc 100)
    (Some "Completion rate cannot exceed 100") (completionRate c).

Definition save_course := save courseSchema_validate.

(** The document after the method, the store, and how the promise settled. *)
Definition incrementEnrollment (c : Course) (db : Db Course)
    : Course * Db Course * Outcome :=
  let c' :=
    set_enrollmentCount
      (Some (Number.plus (Js.or_zero (enrollmentCount c)) Number.one)) c in
  let '(db', o) := save_course c' db in
  (c', db', o).

Definition decrementEnrollment (c : Course) (db : Db Course)
    : Course * Db Course * Outcome :=
  let c' :=
    set_enrollmentCount
      (Some (Js.Math_max Number.zero
               (Number.minus (Js.or_zero (enrollmentCount c)) Number.one)))
      c in
  let '(db', o) := save_course c' db in
  (c', db', o).

(** The document a method leaves in memory. *)
Definition doc_after (r : Course * Db Course * Outcome) : Course := r.1.1.

(** The bounds the specification names. *)
Definition rating_in_bounds (c : Course) : Prop :=
  forall r, rating c = Some r -> (0 ≤ r)%Qc /\ (r ≤ Q2Qc 5)%Qc.

Definition completionRate_in_bounds (c : Course) : Prop :=
  forall r, completionRate c = Some r -> (0 ≤ r)%Qc /\ (r ≤ Q2Qc 100)%Qc.

Definition sample_course : Course :=
  {| id := Some (Q2Qc 7); title := Some "Graphs"; description := None;
     category := Some "algorithms"; difficulty := Some "advanced";
     estimatedHours := Some (Q2Qc 12); prerequisites := [];
     learningObjectives := []; problems := []; modules := [];
     enrolledUsers := []; isPublic := true; enableMarkComplete := true;
     createdBy := None; tags := []; allowDirectEnrollment := false;
     rating := Some (Q2Qc (9 # 2));
     enrollmentCount := Some (Number.of_Z 3);
     completionRate := Some (Q2Qc 40) |}.

(** The count a document holds is not negative, [enrollmentCount >= 0]
    (an unset count is 0). *)
Definition count_nonneg (c : Course) : Prop :=
  Number.ge (default Number.zero (enrollmentCount c)) Number.zero = true.

(** The document holds the integer [n] as its count. *)
Definition holds_count (c : Course) (n : Z) : Prop :=
  exists x, enrollmentCount c = Some x /\ Number.valid x = true /\
            Number.is_integer x n.

(** The count of the document is the integer [n], a missing value
    counting as 0. *)
Definition count_is (c : Course) (n : Z) : Prop :=
  holds_count c n \/ (enrollmentCount c = None /\ n = 0).

(** The integers every one of which a double holds exactly, with its
    neighbours: those below [2^53] in absolute value. *)
Definition safe_integer (n : Z) : Prop := - 2 ^ 53 < n < 2 ^ 53.

(** A course that counts [2^53] enrollments. *)
Definition crowded_course : Course :=
  set_enrollmentCount (Some (Number.of_Z (2 ^ 53))) sample_course.

Definition in_bounds (c : Course) : Prop :=
  rating_in_bounds c /\ completionRate_in_bounds c.

(** A path of the list of errors that names one of the two bounded paths. *)
Definition bound_error (errs : list ValidatorError) : Prop :=
  exists e, e ∈ errs /\
            (ve_path e = "rating" \/ ve_path e = "completionRate") /\
            (ve_kind e = KMin \/ ve_kind e = KMax).

(** A course rated 6. *)
Definition overrated_course : Course :=
  {| id := Some (Q2Qc 7); title := Some "Graphs"; description := None;
     category := None; difficulty := None; estimatedHours := None;
     prerequisites := []; learningObjectives := []; problems := [];
     modules := []; enrolledUsers := []; isPublic := true;
     enableMarkComplete := true; createdBy := None; tags := [];
     allowDirectEnrollment := false; rating := Some (Q2Qc 6);
     enrollmentCount := Some Number.zero; completionRate := Some 0%Qc |}.

(** *** The rest of the model: the virtual, the static, runs of methods *)

(** The virtual [fullTitle]: a template literal prints an unset title as
    "undefined"; an unset or empty category is falsy. *)
Definition fullTitle (c : Course) : string :=
  default "undefined" (title c) ++
  (if Js.truthy_string (category c)
   then " - " ++ default "undefined" (category c)
   else "").

(** The static [findByUserEnrollment]: [find({ enrolledUsers: userId })]
    over the collection. *)
Definition findByUserEnrollment (userId : string) (collection : list Course)
    : list Course :=
  List.filter (fun c => bool_decide (userId ∈ enrolledUsers c)) collection.

(** A run of the two counting methods on one document. *)
Inductive Method := Increment | Decrement.

Definition call (m : Method) (c : Course) (db : Db Course)
    : Course * Db Course * Outcome :=
  match m with
  | Increment => incrementEnrollment c db
  | Decrement => decrementEnrollment c db
  end.

Fixpoint run (ms : list Method) (c : Course) (db : Db Course)
    : Course * Db Course :=
  match ms with
  | [] => (c, db)
  | m :: rest => let '(c', db', _) := call m c db in run rest c' db'
  end.

(** A course without a title, which fails validation. *)
Definition untitled_course : Course :=
  {| id := Some (Q2Qc 9); title := None; description := None;
     category := None; difficulty := None; estimatedHours := None;
     prerequisites := []; learningObjectives := []; problems := [];
     modules := []; enrolledUsers := ["u1"]; isPublic := false;
     enableMarkComplete := true; createdBy := None; tags := [];
     allowDirectEnrollment := false; rating := None;
     enrollmentCount := None; completionRate := Some 0%Qc |}.

End CourseModel.

(* ===================================================================== *)
(** ** server/models/ProblemSet.ts                                       *)
(* ===================================================================== *)

(** [IProblemInstance], with the paths [problemInstanceSchema] declares and
    the [_id] Mongoose gives a sub-document. *)
Module Instance.

Definition ObjectId := string.
(** A [Schema.Types.Mixed] value, by its JSON text. *)
Definition Mixed := string.

Record t := mk {
  _id : option ObjectId;
  problemId : option Z;
  title : option string;
  description : option string;
  difficulty : option string;
  customTestCases : list Mixed;
  customExamples : list Mixed;
  customStarterCode : option Mixed;
  timeLimit : option Qc;
  memoryLimit : option Qc;
  hints : list string;
  constraints : option string;
  inputFormat : option string;
  outputFormat : option string;
  notes : option string;
  order : option Z;
  isCustomized : bool;
  lastModified : option Z;
  modifiedBy : option string
}.

(** [Partial<IProblemInstance>], over the keys that are paths of the
    schema: [None] is an absent key; for a path that may be unset,
    [Some None] is a key present with the value [undefined].  The three
    keys of the interface that are no paths ([id], [selectedProblemId],
    [originalProblemId]) are outside the model. *)
Record Partial := mkPartial {
  p__id : option (option ObjectId);
  p_problemId : option (option Z);
  p_title : option (option string);
  p_description : option (option string);
  p_difficulty : option (option string);
  p_customTestCases : option (list Mixed);
  p_customExamples : option (list Mixed);
  p_customStarterCode : option (option Mixed);
  p_timeLimit : option (option Qc);
  p_memoryLimit : option (option Qc);
  p_hints : option (list string);
  p_constraints : option (option string);
  p_inputFormat : option (option string);
  p_outputFormat : option (option string);
  p_notes : option (option string);
  p_order : option (option Z);
  p_isCustomized : option bool;
  p_lastModified : option (option Z);
  p_modifiedBy : option (option string)
}.

(** [instance.order = v]. *)
Definition set_order (v : option Z) (i : t) : t :=
  {| _id := _id i; problemId := problemId i; title := title i;
     description := description i; difficulty := difficulty i;
     customTestCases := customTestCases i;
     customExamples := customExamples i;
     customStarterCode := customStarterCode i; timeLimit := timeLimit i;
     memoryLimit := memoryLimit i; hints := hints i;
     constraints := constraints i; inputFormat := inputFormat i;
     outputFormat := outputFormat i; notes := notes i; order := v;
     isCustomized := isCustomized i; lastModified := lastModified i;
     modifiedBy := modifiedBy i |}.

(** One own key of a source object copied onto the target. *)
Definition assign_key {A : Type} (target : A) (source : option A) : A :=
  match source with
  | Some v => v
  | None => target
  end.

(** The setter of a String path declared with [trim: true], run by
    Mongoose when the path of a sub-document is assigned: a string is
    trimmed, [undefined] stays. *)
Definition trim_setter (v : option string) : option string := Js.trim <$> v.

(** [Object.assign(instance, updates, { lastModified: now })]: the keys of
    [updates] first, then [lastModified] from the last source.  The target
    is a Mongoose sub-document, so each assignment goes through the setters
    of its path: [title] and [description] are trimmed; the values of the
    other paths, of the type of their path already, are stored as they
    are. *)
Definition Object_assign (i : t) (updates : Partial) (now : Z) : t :=
  {| _id := assign_key (_id i) (p__id updates);
     problemId := assign_key (problemId i) (p_problemId updates);
     title := assign_key (title i) (trim_setter <$> p_title updates);
     description :=
       assign_key (description i) (trim_setter <$> p_description updates);
     difficulty := assign_key (difficulty i) (p_difficulty updates);
     customTestCases :=
       assign_key (customTestCases i) (p_customTestCases updates);
     customExamples :=
       assign_key (customExamples i) (p_customExamples updates);
     customStarterCode :=
       assign_key (customStarterCode i) (p_customStarterCode updates);
     timeLimit := assign_key (timeLimit i) (p_timeLimit updates);
     memoryLimit := assign_key (memoryLimit i) (p_memoryLimit updates);
     hints := assign_key (hints i) (p_hints updates);
     constraints := assign_key (constraints i) (p_constraints updates);
     inputFormat := assign_key (inputFormat i) (p_inputFormat updates);
     outputFormat := assign_key (outputFormat i) (p_outputFormat updates);
     notes := assign_key (notes i) (p_notes updates);
     order := assign_key (order i) (p_order updates);
     isCustomized := assign_key (isCustomized i) (p_isCustomized updates);
     lastModified :=
       assign_key (assign_key (lastModified i) (p_lastModified updates))
         (Some (Some now));
     modifiedBy := assign_key (modifiedBy i) (p_modifiedBy updates) |}.

Definition difficulty_values : list string := ["easy"; "medium"; "hard"].

(** The validators [problemInstanceSchema] declares; [at_] is the path of
    the sub-document inside its parent. *)
Definition problemInstanceSchema_validate (at_ : string) (i : t)
    : list Mongoose.ValidatorError :=
  Mongoose.required_number (at_ ++ ".problemId") None (problemId i) ++
  Mongoose.enum_validator (at_ ++ ".difficulty") difficulty_values None
    (difficulty i) ++
  Mongoose.required_number (at_ ++ ".order") None (order i).

(** A new instance with only the required paths given. *)
Definition make (oid : option ObjectId) (pid ord : Z) : t :=
  {| _id := oid; problemId := Some pid; title := None; description := None;
     difficulty := None; customTestCases := []; customExamples := [];
     customStarterCode := None; timeLimit := None; memoryLimit := None;
     hints := []; constraints := None; inputFormat := None;
     outputFormat := None; notes := None; order := Some ord;
     isCustomized := false; lastModified := None; modifiedBy := None |}.

Definition no_updates : Partial :=
  mkPartial None None None None None None None None None None None None None
    None None None None None None.

(** What an update leaves in a path that held [old]: the value of the key
    when [updates] has the key, and [old] when it has not. *)
Definition written {A : Type} (old : A) (key : option A) (new : A) : Prop :=
  match key with
  | Some v => new = v
  | None => new = old
  end.

(** The updates are applied: [p'] is [p] with every key of [updates]
    written to its path (strings trimmed on the two paths declared with
    [trim]), and with [lastModified] set to [now] whatever [updates] says
    about it. *)
Definition updates_applied (updates : Partial) (now : Z) (p p' : t) : Prop :=
  written (_id p) (p__id updates) (_id p') /\
  written (problemId p) (p_problemId updates) (problemId p') /\
  written (title p) (option_map (option_map Js.trim) (p_title updates))
    (title p') /\
  written (description p)
    (option_map (option_map Js.trim) (p_description updates))
    (description p') /\
  written (difficulty p) (p_difficulty updates) (difficulty p') /\
  written (customTestCases p) (p_customTestCases updates)
    (customTestCases p') /\
  written (customExamples p) (p_customExamples updates)
    (customExamples p') /\
  written (customStarterCode p) (p_customStarterCode updates)
    (customStarterCode p') /\
  written (timeLimit p) (p_timeLimit updates) (timeLimit p') /\
  written (memoryLimit p) (p_memoryLimit updates) (memoryLimit p') /\
  written (hints p) (p_hints updates) (hints p') /\
  written (constraints p) (p_constraints updates) (constraints p') /\
  written (inputFormat p) (p_inputFormat updates) (inputFormat p') /\
  written (outputFormat p) (p_outputFormat updates) (outputFormat p') /\
  written (notes p) (p_notes updates) (notes p') /\
  written (order p) (p_order updates) (order p') /\
  written (isCustomized p) (p_isCustomized updates) (isCustomized p') /\
  written (modifiedBy p) (p_modifiedBy updates) (modifiedBy p') /\
  lastModified p' = Some now.

End Instance.

Module ProblemSetModel.
Import Mongoose.

(** Sub-documents are objects: the array [problemInstances] holds references
    to them, and a method that writes through a reference is seen through
    every alias of it. *)
Abbreviation ref := nat (only parsing).
Abbreviation Heap := (gmap nat Instance.t) (only parsing).

(** [IProblemSet], with the paths [problemSetSchema] declares.  The
    [createdAt] and [updatedAt] stamps are kept by Mongoose. *)
Record ProblemSet := mkProblemSet {
  id : option string;
  title : option string;
  description : option string;
  difficulty : option string;
  category : option string;
  tags : list string;
  problemIds : list string;
  problemInstances : list ref;
  isPublic : bool;
  estimatedTime : option Qc;
  totalProblems : Z;
  createdBy : option string;
  participants : list string;
  allowDirectEnrollment : bool
}.

Definition set_problemInstances (v : list ref) (d : ProblemSet) : ProblemSet :=
  {| id := id d; title := title d; description := description d;
     difficulty := difficulty d; category := category d; tags := tags d;
     problemIds := problemIds d; problemInstances := v;
     isPublic := isPublic d; estimatedTime := estimatedTime d;
     totalProblems := totalProblems d; createdBy := createdBy d;
     participants := participants d;
     allowDirectEnrollment := allowDirectEnrollment d |}.

Definition set_totalProblems (v : Z) (d : ProblemSet) : ProblemSet :=
  {| id := id d; title := title d; description := description d;
     difficulty := difficulty d; category := category d; tags := tags d;
     problemIds := problemIds d; problemInstances := problemInstances d;
     isPublic := isPublic d; estimatedTime := estimatedTime d;
     totalProblems := v; createdBy := createdBy d;
     participants := participants d;
     allowDirectEnrollment := allowDirectEnrollment d |}.

(** What [save] writes: the document with its sub-documents by value. *)
Record Stored := mkStored {
  stored_doc : ProblemSet;
  stored_instances : list Instance.t
}.

(** The document in memory ([this]), the objects it refers to, and the
    store behind the model. *)
Record State := mkState {
  heap : Heap;
  this : ProblemSet;
  db : Db Stored
}.

(** The sub-documents of the array, by value, in array order. *)
Definition instances_of (h : Heap) (refs : list ref) : list Instance.t :=
  omap (fun r => h !! r) refs.

Definition instances (s : State) : list Instance.t :=
  instances_of (heap s) (problemInstances (this s)).

Definition instance_path (i : nat) : string :=
  "problemInstances." ++ pretty i.

(** The validators [problemSetSchema] declares, then those of each
    sub-document. *)
Definition problemSetSchema_validate (d : Stored) : list ValidatorError :=
  required_string "id" None (id (stored_doc d)) ++
  required_string "title" None (title (stored_doc d)) ++
  required_string "difficulty" None (difficulty (stored_doc d)) ++
  required_string "createdBy" None (createdBy (stored_doc d)) ++
  concat (imap (fun i p =>
                  Instance.problemInstanceSchema_validate (instance_path i) p)
               (stored_instances d)).

(** [await this.save()]. *)
Definition save_this (s : State) : State * Outcome :=
  let '(db', o) :=
    save problemSetSchema_validate (mkStored (this s) (instances s)) (db s) in
  (mkState (heap s) (this s) db', o).

(** [this.problemInstances.find(pred)]: the first reference whose object
    satisfies [pred]. *)
Definition find_instance (pred : Instance.t -> bool) (h : Heap)
    (refs : list ref) : option ref :=
  List.find (fun r => match h !! r with
                      | Some p => pred p
                      | None => false
                      end) refs.

(** [this.problemInstances.filter(pred)]. *)
Definition filter_instances (pred : option Instance.t -> bool) (h : Heap)
    (refs : list ref) : list ref :=
  List.filter (fun r => pred (h !! r)) refs.

(** [p.problemId === problemId]. *)
Definition has_problemId (problemId : Z) (p : Instance.t) : bool :=
  bool_decide (Instance.problemId p = Some problemId).

(** [p._id?.toString() === id]. *)
Definition has_id (id_ : string) (p : Instance.t) : bool :=
  bool_decide (Instance._id p = Some id_).

(** [addProblem]: the pushed instance becomes a new sub-document;
    [instance] is the sub-document as Mongoose casts the argument. *)
Definition addProblem (instance : Instance.t) (s : State) : State * Outcome :=
  let r := fresh (dom (heap s)) in
  let h := <[r := instance]> (heap s) in
  let refs := problemInstances (this s) ++ [r] in
  let d := set_problemInstances refs (this s) in
  let d := set_totalProblems (Z.of_nat (length (problemInstances d))) d in
  save_this (mkState h d (db s)).

Definition removeProblem (problemId : Z) (s : State) : State * Outcome :=
  let refs :=
    filter_instances
      (fun p => negb (from_option (has_problemId problemId) false p))
      (heap s) (problemInstances (this s)) in
  let d := set_problemInstances refs (this s) in
  let d := set_totalProblems (Z.of_nat (length (problemInstances d))) d in
  save_this (mkState (heap s) d (db s)).

Definition not_found : Error := JsError "Problem instance not found".

Definition updateProblemInstance (id_ : string) (updates : Instance.Partial)
    (now : Z) (s : State) : State * Outcome :=
  match find_instance (has_id id_) (heap s) (problemInstances (this s)) with
  | Some r =>
      let h :=
        alter (fun instance => Instance.Object_assign instance updates now)
              r (heap s) in
      save_this (mkState h (this s) (db s))
  | None => (s, Rejected not_found)
  end.

Definition removeProblemInstance (id_ : string) (s : State)
    : State * Outcome :=
  let idStr := id_ in
  let refs :=
    filter_instances (fun p => negb (from_option (has_id idStr) false p))
      (heap s) (problemInstances (this s)) in
  let d := set_problemInstances refs (this s) in
  let d := set_totalProblems (Z.of_nat (length (problemInstances d))) d in
  save_this (mkState (heap s) d (db s)).

(** The callback of [newOrder.map] run over the array, left to right, with
    its writes to [instance.order]; [None] is the callback's [null]. *)
Fixpoint reorder_map (refs : list ref) (newOrder : list Z) (index : Z)
    (h : Heap) : Heap * list (option ref) :=
  match newOrder with
  | [] => (h, [])
  | problemId :: rest =>
      match find_instance (has_problemId problemId) h refs with
      | Some r =>
          let h1 := alter (Instance.set_order (Some (index + 1))) r h in
          let '(h2, out) := reorder_map refs rest (index + 1) h1 in
          (h2, Some r :: out)
      | None =>
          let '(h2, out) := reorder_map refs rest (index + 1) h in
          (h2, None :: out)
      end
  end.

(** [.filter(Boolean)]: the [null]s go. *)
Definition filter_Boolean (l : list (option ref)) : list ref :=
  omap (fun x => x) l.

Definition reorderProblems (newOrder : list Z) (s : State) : State * Outcome :=
  let '(h, mapped) :=
    reorder_map (problemInstances (this s)) newOrder 0 (heap s) in
  let reorderedInstances := filter_Boolean mapped in
  let d := set_problemInstances reorderedInstances (this s) in
  save_this (mkState h d (db s)).

(** The invariant the counting methods keep. *)
Definition total_matches (s : State) : Prop :=
  totalProblems (this s) = Z.of_nat (length (problemInstances (this s))).

(** *** The specification's reading of [reorderProblems]

    The instances whose [problemId] occurs in [newOrder], in the order of
    [newOrder], each with [order] set to its 1-based position there. *)
Definition reorder_by_index (l : list Instance.t) (newOrder : list Z)
    : list Instance.t :=
  concat (imap (fun i problemId =>
                  Instance.set_order (Some (Z.of_nat i + 1)) <$>
                  List.filter (has_problemId problemId) l)
               newOrder).

Definition reorder_as_specified (newOrder : list Z) (s : State) : Prop :=
  instances (reorderProblems newOrder s).1 =
  reorder_by_index (instances s) newOrder.

(** Two instances, problems 1 and 2, counted. *)
Definition two_problems : State :=
  {| heap := {[ 0%nat := Instance.make (Some "a1") 1 1;
                1%nat := Instance.make (Some "a2") 2 2 ]};
     this := {| id := Some "set-1"; title := Some "Warm-up";
                description := None; difficulty := Some "easy";
                category := None; tags := []; problemIds := [];
                problemInstances := [0%nat; 1%nat]; isPublic := true;
                estimatedTime := None; totalProblems := 2;
                createdBy := Some "u1"; participants := [];
                allowDirectEnrollment := false |};
     db := mkDb true [] |}.

(** Two instances of the same problem. *)
Definition twins : State :=
  {| heap := {[ 0%nat := Instance.make (Some "b1") 7 1;
                1%nat := Instance.make (Some "b2") 7 2 ]};
     this := {| id := Some "set-2"; title := Some "Repeats";
                description := None; difficulty := Some "easy";
                category := None; tags := []; problemIds := [];
                problemInstances := [0%nat; 1%nat]; isPublic := true;
                estimatedTime := None; totalProblems := 2;
                createdBy := Some "u1"; participants := [];
                allowDirectEnrollment := false |};
     db := mkDb true [] |}.

(** The instance "a2" of [two_problems] gets a new title, given with
    white space around it. *)
Definition retitle : Instance.Partial :=
  Instance.mkPartial None None (Some (Some "  Two Sum ")) None None None None
    None None None None None None None None None None None None.

(** The instance "a2" as [retitle] at time 1700 leaves it. *)
Definition retitled : Instance.t :=
  {| Instance._id := Some "a2"; Instance.problemId := Some 2;
     Instance.title := Some "Two Sum"; Instance.description := None;
     Instance.difficulty := None; Instance.customTestCases := [];
     Instance.customExamples := []; Instance.customStarterCode := None;
     Instance.timeLimit := None; Instance.memoryLimit := None;
     Instance.hints := []; Instance.constraints := None;
     Instance.inputFormat := None; Instance.outputFormat := None;
     Instance.notes := None; Instance.order := Some 2;
     Instance.isCustomized := false; Instance.lastModified := Some 1700;
     Instance.modifiedBy := None |}.

(** No element of [problemInstances] has the identifier. *)
Definition no_instance_with_id (id_ : string) (s : State) : Prop :=
  forall p, p ∈ instances s -> Instance._id p <> Some id_.

(** The instance [find] selects for a problem id in the state [s]. *)
Definition chosen (s : State) (problemId : Z) : option nat :=
  find_instance (has_problemId problemId) (heap s) (problemInstances (this s)).

(** Two heaps whose objects carry the same problem ids. *)
Definition same_problemIds (h h' : gmap nat Instance.t) : Prop :=
  forall r, Instance.problemId <$> h' !! r = Instance.problemId <$> h !! r.

(** *** The rest of the model: the virtual, the statics, runs of methods *)

(** [difficultyMap[key]] for the object literal
    [{ easy: 1, medium: 2, hard: 3 }]: an own key, a member inherited from
    [Object.prototype], or nothing. *)
Inductive Looked := Own (n : Z) | Inherited | Missing.

Definition Object_prototype_keys : list string :=
  ["constructor"; "hasOwnProperty"; "isPrototypeOf"; "propertyIsEnumerable";
   "toLocaleString"; "toString"; "valueOf"; "__proto__";
   "__defineGetter__"; "__defineSetter__"; "__lookupGetter__";
   "__lookupSetter__"].

Definition difficultyMap (key : string) : Looked :=
  if String.eqb key "easy" then Own 1
  else if String.eqb key "medium" then Own 2
  else if String.eqb key "hard" then Own 3
  else if existsb (String.eqb key) Object_prototype_keys then Inherited
  else Missing.

(** [difficultyMap[p.difficulty] || 0]: a number, or ([None]) a function or
    object, which [reduce] then adds as text. *)
Definition difficulty_points (p : Instance.t) : option Z :=
  match difficultyMap (default "undefined" (Instance.difficulty p)) with
  | Own n => if Z.eqb n 0 then Some 0 else Some n
  | Inherited => None
  | Missing => Some 0
  end.

(** [.reduce((acc, diff) => acc + diff, 0)]: the sum, or [None] once a
    term that is no number has turned it into text. *)
Definition totalDifficulty (l : list Instance.t) : option Z :=
  foldl (fun acc p =>
           match acc, difficulty_points p with
           | Some a, Some d => Some (a + d)
           | _, _ => None
           end) (Some 0) l.

(** The virtual [averageDifficulty]; text divided by a number is [NaN],
    which fails both comparisons.  The average is the quotient of two
    integers (at most 3 points per instance, and an array length), and it
    is only compared with 1.5 and 2.5: rounding the quotient to a double
    is monotone and cannot reach either bound from the other side for an
    array of fewer than [2^50] instances, so the comparisons are those of
    the exact quotient. *)
Definition averageDifficulty (s : State) : string :=
  let l := instances s in
  if Nat.eqb (length l) 0 then "N/A"
  else
    match totalDifficulty l with
    | None => "Hard"
    | Some total =>
        let avg :=
          (Q2Qc (inject_Z total) /
           Q2Qc (inject_Z (Z.of_nat (length l))))%Qc in
        if decide (avg ≤ Q2Qc (3 # 2))%Qc then "Easy"
        else if decide (avg ≤ Q2Qc (5 # 2))%Qc then "Medium"
        else "Hard"
    end.

(** The statics [findByDifficulty] and [findByCategory]:
    [find({ difficulty, isPublic: true })] over the collection. *)
Definition findByDifficulty (difficulty_ : string)
    (collection : list ProblemSet) : list ProblemSet :=
  List.filter (fun d => bool_decide (difficulty d = Some difficulty_) &&
                        isPublic d) collection.

Definition findByCategory (category_ : string)
    (collection : list ProblemSet) : list ProblemSet :=
  List.filter (fun d => bool_decide (category d = Some category_) &&
                        isPublic d) collection.

(** The static [getStats]: one [$group] stage keyed by [$difficulty], with
    the accumulators [$sum: 1], [$avg: '$totalProblems'] and
    [$sum: { $cond: ['$isPublic', 1, 0] }].  A group is kept with the sum
    and the number of terms of its average, which is their quotient as a
    double; groups are listed in the order their keys first occur (the
    stage promises no order). *)
Record Group := mkGroup {
  group_id : option string;
  count : Z;
  problems_sum : Z;
  publicCount : Z
}.

Definition accumulate (g : Group) (d : ProblemSet) : Group :=
  {| group_id := group_id g;
     count := count g + 1;
     problems_sum := problems_sum g + totalProblems d;
     publicCount := publicCount g + (if isPublic d then 1 else 0) |}.

Fixpoint group_step (groups : list Group) (d : ProblemSet) : list Group :=
  match groups with
  | [] => [accumulate (mkGroup (difficulty d) 0 0 0) d]
  | g :: rest =>
      if bool_decide (group_id g = difficulty d)
      then accumulate g d :: rest
      else g :: group_step rest d
  end.

Record Stats := mkStats {
  stats_id : option string;
  stats_count : Z;
  avgProblems : Number.t;
  stats_publicCount : Z
}.

Definition finish (g : Group) : Stats :=
  {| stats_id := group_id g;
     stats_count := count g;
     avgProblems :=
       Number.div (Number.of_Z (problems_sum g)) (Number.of_Z (count g));
     stats_publicCount := publicCount g |}.

Definition getStats (collection : list ProblemSet) : list Stats :=
  finish <$> foldl group_step [] collection.

(** The documents of a group, and a sum of numbers, to state what
    [getStats] computes. *)
Definition members (key : option string) (collection : list ProblemSet)
    : list ProblemSet :=
  List.filter (fun d => bool_decide (difficulty d = key)) collection.

Definition sum_of (xs : list Z) : Z := foldr Z.add 0 xs.

(** What a group holds about the documents read so far. *)
Definition summarises (l : list ProblemSet) (g : Group) : Prop :=
  count g = Z.of_nat (length (members (group_id g) l)) /\
  publicCount g
    = Z.of_nat (length (List.filter isPublic (members (group_id g) l))) /\
  problems_sum g = sum_of (totalProblems <$> members (group_id g) l).

Definition grouped (l : list ProblemSet) (gs : list Group) : Prop :=
  NoDup (group_id <$> gs) /\
  sum_of (count <$> gs) = Z.of_nat (length l) /\
  (forall g, g ∈ gs -> summarises l g /\ 1 <= count g) /\
  (forall d, d ∈ l -> difficulty d ∈ group_id <$> gs).

(** Every reference of the array points at an object. *)
Definition well_formed (s : State) : Prop :=
  forall r, r ∈ problemInstances (this s) -> is_Some (heap s !! r).

(** A run of the five methods on one document. *)
Inductive Method :=
  | AddProblem (instance : Instance.t)
  | RemoveProblem (problemId : Z)
  | UpdateProblemInstance (id_ : string) (updates : Instance.Partial)
      (now : Z)
  | RemoveProblemInstance (id_ : string)
  | ReorderProblems (newOrder : list Z).

Definition call (m : Method) (s : State) : State * Outcome :=
  match m with
  | AddProblem instance => addProblem instance s
  | RemoveProblem problemId => removeProblem problemId s
  | UpdateProblemInstance id_ updates now =>
      updateProblemInstance id_ updates now s
  | RemoveProblemInstance id_ => removeProblemInstance id_ s
  | ReorderProblems newOrder => reorderProblems newOrder s
  end.

Fixpoint run (ms : list Method) (s : State) : State :=
  match ms with
  | [] => s
  | m :: rest => run rest (call m s).1
  end.

Definition is_reorder (m : Method) : bool :=
  match m with
  | ReorderProblems _ => true
  | _ => false
  end.

(** An instance with no [problemId], which fails validation. *)
Definition unnumbered : Instance.t :=
  Instance.set_order (Some 3)
    (Instance.mk (Some "a3") None None None None [] [] None None None []
       None None None None None false None None).

End ProblemSetModel.

Module Schemas.
Import Mongoose.

(** The errors hold an [enum] failure on the path. *)
Definition enum_error (path : string) (errs : list ValidatorError) : Prop :=
  exists e, e ∈ errs /\ ve_path e = path /\ ve_kind e = KEnum.

(** A problem set whose difficulty is none of the enumerated words. *)
Definition free_form_set : ProblemSetModel.Stored :=
  {| ProblemSetModel.stored_doc :=
       {| ProblemSetModel.id := Some "set-3";
          ProblemSetModel.title := Some "Mixed bag";
          ProblemSetModel.description := None;
          ProblemSetModel.difficulty := Some "banana";
          ProblemSetModel.category := None;
          ProblemSetModel.tags := [];
          ProblemSetModel.problemIds := [];
          ProblemSetModel.problemInstances := [];
          ProblemSetModel.isPublic := false;
          ProblemSetModel.estimatedTime := None;
          ProblemSetModel.totalProblems := 0;
          ProblemSetModel.createdBy := Some "u1";
          ProblemSetModel.participants := [];
          ProblemSetModel.allowDirectEnrollment := false |};
     ProblemSetModel.stored_instances := [] |}.

(** A course whose difficulty is "easy", a word of the other schema. *)
Definition easy_course : CourseModel.Course :=
  {| CourseModel.id := Some (Q2Qc 8);
     CourseModel.title := Some "Arrays";
     CourseModel.description := None; CourseModel.category := None;
     CourseModel.difficulty := Some "easy";
     CourseModel.estimatedHours := None; CourseModel.prerequisites := [];
     CourseModel.learningObjectives := []; CourseModel.problems := [];
     CourseModel.modules := []; CourseModel.enrolledUsers := [];
     CourseModel.isPublic := true; CourseModel.enableMarkComplete := true;
     CourseModel.createdBy := None; CourseModel.tags := [];
     CourseModel.allowDirectEnrollment := false;
     CourseModel.rating := None;
     CourseModel.enrollmentCount := Some Number.zero;
     CourseModel.completionRate := Some 0%Qc |}.

End Schemas.

(* ===================================================================== *)
(** ** registerRoutes: the handlers defined inline                       *)
(* ===================================================================== *)

Module Routes.

(** A JSON response: [res.status(n).json(body)]; [res.json(body)] alone
    answers with status 200. *)
Inductive Body (A : Type) :=
  | Message (message : string)
  | Success (success : bool)
  | Payload (data : A).
Arguments Message {A} _.
Arguments Success {A} _.
Arguments Payload {A} _.

Record Response (A : Type) := mkResponse {
  status : Z;
  body : Body A
}.
Arguments mkResponse {A} _ _.
Arguments status {A} _.
Arguments body {A} _.

Definition res_json {A : Type} (b : Body A) : Response A := mkResponse 200 b.

(** A value thrown by a call into another module; [message] is the
    [error.message] the handler may inspect. *)
Record Thrown := mkThrown { message : option string }.

(** How an awaited call settles. *)
Inductive Call (A : Type) :=
  | Returns (a : A)
  | Throws (e : Thrown).
Arguments Returns {A} _.
Arguments Throws {A} _.

(** [req.user], set by the [protect] middleware. *)
Record AuthUser := mkAuthUser {
  user_id : option string;
  role : option string
}.

(** The methods of the [storage] object the inline handlers call; the
    module that defines them is imported, and each call is given by how it
    settles. *)
Record Storage := mkStorage {
  canUserAccessCourse : option Z -> string -> bool -> Call bool;
  resetUserCourseProgress : string -> option Z -> Call unit;
  deleteProblemSetEnrollment : Z -> Call unit
}.

(** *** POST /api/courses/:id/reset-progress *)
Definition reset_progress (storage : Storage) (params_id : string)
    (user : option AuthUser) : Response unit :=
  let courseId := Js.parseInt params_id in
  let userId := user ≫= user_id in
  let isAdmin := bool_decide (user ≫= role = Some "admin") in
  match userId with
  | None => mkResponse 401 (Message "Unauthorized")
  | Some uid =>
      if negb (Js.truthy_string userId)
      then mkResponse 401 (Message "Unauthorized")
      else
        match canUserAccessCourse storage courseId uid isAdmin with
        | Throws _ =>
            mkResponse 500 (Message "Failed to reset course progress")
        | Returns canAccess =>
            if negb canAccess then mkResponse 403 (Message "Access denied")
            else
              match resetUserCourseProgress storage uid courseId with
              | Throws _ =>
                  mkResponse 500 (Message "Failed to reset course progress")
              | Returns _ => res_json (Success true)
              end
        end
  end.

(** The specification's "numeric" id: decimal digits, at least one. *)
Definition is_decimal_digit (c : ascii) : bool :=
  let n := nat_of_ascii c in (Nat.leb 48 n && Nat.leb n 57)%bool.

Fixpoint all_digits (s : string) : bool :=
  match s with
  | EmptyString => true
  | String c r => is_decimal_digit c && all_digits r
  end.

Definition numeric (s : string) : bool :=
  negb (String.eqb s "") && all_digits s.

(** *** DELETE /api/problem-set-enrollments/:enrollmentId *)
Definition delete_enrollment (storage : Storage) (params_enrollmentId : string)
    : Response unit :=
  match Js.parseInt params_enrollmentId with
  | None => mkResponse 400 (Message "Invalid enrollment id")
  | Some enrollmentId =>
      match deleteProblemSetEnrollment storage enrollmentId with
      | Returns _ => res_json (Message "Enrollment deleted")
      | Throws error =>
          if match message error with
             | Some m => Js.truthy_string (Some m) &&
                         Js.includes "not found" m
             | None => false
             end
          then mkResponse 404 (Message "Enrollment not found")
          else mkResponse 500 (Message "Failed to delete enrollment")
      end
  end.

(** *** PATCH /api/problem-set-enrollments/:enrollmentId

    [E] is a [ProblemSetEnrollment] document and [B] the request body; the
    model's [findOneAndUpdate] is imported. *)
Section Patch.
Context {E B : Type}.

(** [{ ..._req.body, updatedAt: new Date() }]. *)
Record Update := mkUpdate {
  from_body : B;
  updatedAt : Z
}.

Context (findOneAndUpdate : Z -> Update -> Call (option E)).

Definition patch_enrollment (params_enrollmentId : string) (req_body : B)
    (now : Z) : Response E :=
  match Js.parseInt params_enrollmentId with
  | None => mkResponse 400 (Message "Invalid enrollment id")
  | Some enrollmentId =>
      let update := mkUpdate req_body now in
      match findOneAndUpdate enrollmentId update with
      | Throws _ => mkResponse 500 (Message "Failed to update enrollment")
      | Returns None => mkResponse 404 (Message "Enrollment not found")
      | Returns (Some updated) => res_json (Payload updated)
      end
  end.

End Patch.

(** The thrown value carries a message that contains 'not found'. *)
Definition says_not_found (e : Thrown) : Prop :=
  exists m, message e = Some m /\ Js.includes "not found" m = true.

(** A storage that lets "u1" into course 12 only, and resets it. *)
Definition sample_storage : Storage :=
  {| canUserAccessCourse courseId userId isAdmin :=
       Returns (isAdmin || (bool_decide (courseId = Some 12) &&
                            String.eqb userId "u1"));
     resetUserCourseProgress _ _ := Returns tt;
     deleteProblemSetEnrollment enrollmentId :=
       if Z.eqb enrollmentId 5 then Returns tt
       else Throws (mkThrown (Some "Enrollment not found")) |}.

Definition student : AuthUser := mkAuthUser (Some "u1") (Some "student").

(** An enrollment collection holding the one document 5. *)
Definition sample_update (enrollmentId : Z) (u : @Update string)
    : Call (option (Z * string)) :=
  if Z.eqb enrollmentId 5 then Returns (Some (5, from_body u))
  else if Z.eqb enrollmentId 6 then Throws (mkThrown (Some "timeout"))
  else Returns None.

(** *** The storage calls of POST /api/courses/:id/reset-progress

    The calls the handler makes on [storage], in order: the same control
    flow as [reset_progress], keeping the calls instead of the answer. *)
Inductive StorageCall :=
  | Call_canUserAccessCourse (courseId : option Z) (userId : string)
      (isAdmin : bool)
  | Call_resetUserCourseProgress (userId : string) (courseId : option Z).

Definition reset_progress_calls (storage : Storage) (params_id : string)
    (user : option AuthUser) : list StorageCall :=
  let courseId := Js.parseInt params_id in
  let userId := user ≫= user_id in
  let isAdmin := bool_decide (user ≫= role = Some "admin") in
  match userId with
  | None => []
  | Some uid =>
      if negb (Js.truthy_string userId) then []
      else
        Call_canUserAccessCourse courseId uid isAdmin ::
        match canUserAccessCourse storage courseId uid isAdmin with
        | Throws _ => []
        | Returns canAccess =>
            if negb canAccess then []
            else [Call_resetUserCourseProgress uid courseId]
        end
  end.

End Routes.

(* ===================================================================== *)
(** ** registerRoutes: GET /api/problem-sets-with-enrollment             *)
(* ===================================================================== *)

Module EnrollmentAlias.
Import Routes.

(** A value found where an identifier is expected in a lean document. *)
Inductive IdValue :=
  | Undefined
  | Null
  | Str (s : string)
  | Num (n : Z)
  | Oid (hex : string).

Global Instance IdValue_eq_dec : EqDecision IdValue.
Proof. solve_decision. Defined.

(** [String(v)]. *)
Definition String_ (v : IdValue) : string :=
  match v with
  | Undefined => "undefined"
  | Null => "null"
  | Str s => s
  | Num n => pretty n
  | Oid hex => hex
  end.

Definition truthy (v : IdValue) : bool :=
  match v with
  | Undefined | Null => false
  | Str s => negb (String.eqb s "")
  | Num n => negb (Z.eqb n 0)
  | Oid _ => true
  end.

(** [a || b]. *)
Definition or_else (a b : IdValue) : IdValue := if truthy a then a else b.

(** A document of the [problemsets] collection, as [lean] and the driver
    return it. *)
Record RawProblemSet := mkRaw {
  id : IdValue;
  _id : IdValue;
  title : option string;
  participants : list IdValue;
  problemInstances : option (list Instance.t);
  problems : option (list Z);
  problemIds : option (list string);
  tags : option (list string);
  createdAt : Z
}.

(** A [ProblemSetEnrollment] document; the handler reads these two paths. *)
Record Enrollment := mkEnrollment {
  userId : string;
  problemSetId : IdValue
}.

(** The database: whether it answers, and the two collections read. *)
Record Store := mkStore {
  available : bool;
  problemsets : list RawProblemSet;
  enrollments : list Enrollment
}.

(** What the handler returns for one problem set:
    [{ ...ps, problems, tags, totalProblems, isEnrolled }]. *)
Record Mapped := mkMapped {
  ps_of : RawProblemSet;
  problems_out : list Z;
  tags_out : list string;
  totalProblems : Z;
  isEnrolled : bool
}.

(** [xs?.length], then [a || b] on the possibly-missing lengths. *)
Definition length_of {A : Type} (xs : option (list A)) : option Z :=
  (fun l => Z.of_nat (length l)) <$> xs.

Definition or_length (a : option Z) (b : Z) : Z :=
  match a with
  | Some n => if Z.eqb n 0 then b else n
  | None => b
  end.

(** [sort({ createdAt: -1 })]. *)
Definition newer_first (a b : RawProblemSet) : Prop :=
  (createdAt b ≤ createdAt a)%Z.

Global Instance newer_first_dec : RelDecision newer_first.
Proof. intros a b. unfold newer_first. apply _. Defined.

(** [ProblemSet.find({}).sort({ createdAt: -1 }).lean()]; the query
    rejects when the database does not answer. *)
Definition find_all (st : Store) : Call (list RawProblemSet) :=
  if available st then Returns (merge_sort newer_first (problemsets st))
  else Throws (mkThrown None).

Section Handler.
(** [new ObjectId(s)] of the driver: the identifier [s] denotes, or [None]
    when the constructor throws on [s]. *)
Context (ObjectId_new : string -> option string).

(** The query [{ $or: [{ participants: userId },
                        { participants: new ObjectId(userId) }] }]. *)
Definition has_participant (uid oid : string) (ps : RawProblemSet) : bool :=
  bool_decide (Str uid ∈ participants ps) ||
  bool_decide (Oid oid ∈ participants ps).

(** The set [userEnrollments] of an authenticated user. *)
Definition user_enrollments (st : Store) (uid : string)
    : Call (gset string) :=
  let enrollments_ :=
    List.filter (fun e => String.eqb (userId e) uid) (enrollments st) in
  let enrollmentIds := (fun e => String_ (problemSetId e)) <$> enrollments_ in
  match ObjectId_new uid with
  | None => Throws (mkThrown None)
  | Some oid =>
      let problemSetsWithParticipants :=
        List.filter (has_participant uid oid) (problemsets st) in
      let participantIds :=
        (fun ps => String_ (or_else (id ps) (_id ps))) <$>
        problemSetsWithParticipants in
      let allEnrollmentIds := enrollmentIds ++ participantIds in
      Returns (list_to_set allEnrollmentIds)
  end.

Definition map_one (userEnrollments : gset string) (ps : RawProblemSet)
    : Mapped :=
  let totalProblems :=
    or_length (length_of (problemInstances ps))
      (or_length (length_of (problems ps))
         (or_length (length_of (problemIds ps)) 0)) in
  let isEnrolled :=
    bool_decide (String_ (id ps) ∈ userEnrollments) ||
    bool_decide (String_ (_id ps) ∈ userEnrollments) in
  {| ps_of := ps;
     problems_out := default [] (problems ps);
     tags_out := default [] (tags ps);
     totalProblems := totalProblems;
     isEnrolled := isEnrolled |}.

Definition problem_sets_with_enrollment (st : Store) (user : option AuthUser)
    : Response (list Mapped) :=
  let userId := user ≫= user_id in
  match find_all st with
  | Throws _ => mkResponse 500 (Message "Failed to fetch problem sets")
  | Returns all =>
      let userEnrollments :=
        match userId with
        | Some uid =>
            if Js.truthy_string userId then user_enrollments st uid
            else Returns ∅
        | None => Returns ∅
        end in
      match userEnrollments with
      | Returns userEnrollments =>
          res_json (Payload (map_one userEnrollments <$> all))
      | Throws _ => mkResponse 500 (Message "Failed to fetch problem sets")
      end
  end.

(** *** The two enrollment sources, as the specification names them *)

(** The set's [id] or its [_id] equals the identifier [v]. *)
Definition names_set (v : IdValue) (ps : RawProblemSet) : Prop :=
  String_ v = String_ (id ps) \/ String_ v = String_ (_id ps).

(** A [ProblemSetEnrollment] record of the user for the set. *)
Definition enrolled_by_record (st : Store) (uid : string)
    (ps : RawProblemSet) : Prop :=
  exists e, e ∈ enrollments st /\ userId e = uid /\
            names_set (problemSetId e) ps.

(** A problem set with the user among its participants, as a string or as
    an [ObjectId], whose identifier is the set's. *)
Definition enrolled_as_participant (st : Store) (uid : string)
    (ps : RawProblemSet) : Prop :=
  exists q, q ∈ problemsets st /\
            (Str uid ∈ participants q \/
             exists oid, ObjectId_new uid = Some oid /\
                         Oid oid ∈ participants q) /\
            names_set (or_else (id q) (_id q)) ps.

End Handler.

(** A driver constructor that takes 24 characters, and a store in which
    the user is a participant of one set and holds a record for another. *)
Definition sample_ObjectId (s : string) : option string :=
  if Nat.eqb (String.length s) 24 then Some (Js.toLowerCase s) else None.

Definition sample_uid : string := "64b7f0c2a1d3e4f5a6b7c8d9".

Definition sample_set (name hex : string) (members : list IdValue)
    (created : Z) : RawProblemSet :=
  {| id := Str name; _id := Oid hex; title := None; participants := members;
     problemInstances := None; problems := None; problemIds := None;
     tags := None; createdAt := created |}.

Definition sample_store : Store :=
  {| available := true;
     problemsets :=
       [ sample_set "ps-1" "0000000000000000000000a1" [Oid sample_uid] 10;
         sample_set "ps-2" "0000000000000000000000a2" [] 30;
         sample_set "ps-3" "0000000000000000000000a3" [Str "someone"] 20 ];
     enrollments :=
       [ mkEnrollment sample_uid (Oid "0000000000000000000000a2");
         mkEnrollment "someone" (Str "ps-3") ] |}.

Definition sample_user : option AuthUser :=
  Some (mkAuthUser (Some sample_uid) (Some "student")).

End EnrollmentAlias.

(* ===================================================================== *)
(** ** registerRoutes: the order of registration                         *)
(* ===================================================================== *)

(** Express is a dependency of the server; matching follows its defaults
    (case-insensitive, one trailing slash allowed): [app.use(path, h)]
    matches every path that starts with the segments of [path], for every
    method; [app.METHOD(path, h)] matches a path of exactly the pattern's
    segments, decodes the parameters of the path, and only then looks at
    the method.  Layers are tried in the order of registration; an error
    (a parameter that does not decode, or one a handler passes to [next])
    stays pending and skips every handler that is no error handler. *)
Module Express.
Import Routes.

Inductive Method := GET | HEAD | POST | PUT | PATCH | DELETE | OPTIONS.

Global Instance Method_eq_dec : EqDecision Method.
Proof. solve_decision. Defined.

Record Request := mkRequest {
  method : Method;
  path : string
}.

(** The routers imported from [./routes/]. *)
Inductive RouterName :=
  | problemsRouter
  | submissionsRouter
  | coursesRouter
  | modulesRouter
  | assignmentAnalyticsRoutes
  | versionHistoryRoutes
  | usersRouter
  | contestsRouter
  | problemSetsRouter
  | adminRouter
  | assignmentsRouter.

(** The handlers [registerRoutes] defines inline. *)
Inductive Endpoint :=
  | reset_progress_endpoint
  | problem_sets_with_enrollment_endpoint
  | delete_enrollment_endpoint
  | patch_enrollment_endpoint.

Global Instance RouterName_eq_dec : EqDecision RouterName.
Proof. solve_decision. Defined.

Global Instance Endpoint_eq_dec : EqDecision Endpoint.
Proof. solve_decision. Defined.

(** One registration on [app]. *)
Inductive Layer :=
  | maintenance_routes
  | use (mount : string) (router : RouterName)
  | on (m : Method) (pattern : string) (e : Endpoint)
  | use_not_found (mount : string).

Global Instance Layer_eq_dec : EqDecision Layer.
Proof. solve_decision. Defined.

(** The registrations of [registerRoutes], in source order. *)
Definition registerRoutes : list Layer :=
  [ maintenance_routes;
    use "/api/admin/problem-sets" problemSetsRouter;
    use "/api/admin/assignments" problemSetsRouter;
    use "/api/admin/version-history" versionHistoryRoutes;
    use "/api/admin/contests" contestsRouter;
    use "/api/admin" adminRouter;
    use "/api/analytics" assignmentAnalyticsRoutes;
    use "/api/problem-sets" problemSetsRouter;
    use "/api/problems" problemsRouter;
    use "/api/submissions" submissionsRouter;
    use "/api/courses" coursesRouter;
    use "/api/modules" modulesRouter;
    use "/api/users" usersRouter;
    use "/api/assignments" assignmentsRouter;
    use "/api/contests" contestsRouter;
    on POST "/api/courses/:id/reset-progress" reset_progress_endpoint;
    on GET "/api/problem-sets-with-enrollment"
       problem_sets_with_enrollment_endpoint;
    on DELETE "/api/problem-set-enrollments/:enrollmentId"
       delete_enrollment_endpoint;
    on PATCH "/api/problem-set-enrollments/:enrollmentId"
       patch_enrollment_endpoint;
    use_not_found "/api" ].

(** The segments of a path: split at the slashes, without the empty
    segment before the first slash and one after a trailing slash. *)
Fixpoint drop_trailing_empty (l : list string) : list string :=
  match l with
  | [] => []
  | [s] => if String.eqb s "" then [] else [s]
  | s :: rest => s :: drop_trailing_empty rest
  end.

Definition segments (p : string) : list string :=
  drop_trailing_empty (tail (Js.split "/" p)).

Definition same_segment (a b : string) : bool :=
  String.eqb (Js.toLowerCase a) (Js.toLowerCase b).

(** A mount path matches every path it is a segment-wise prefix of. *)
Fixpoint mounted_at (mount req : list string) : bool :=
  match mount, req with
  | [], _ => true
  | m :: mount', r :: req' => same_segment m r && mounted_at mount' req'
  | _ :: _, [] => false
  end.

(** The regular expression of a route matches a path of the same length;
    a [:name] segment matches any non-empty segment. *)
Definition is_param (s : string) : bool := String.prefix ":" s.

Fixpoint matches_pattern (pattern req : list string) : bool :=
  match pattern, req with
  | [], [] => true
  | p :: pattern', r :: req' =>
      (if is_param p then negb (String.eqb r "") else same_segment p r) &&
      matches_pattern pattern' req'
  | _, _ => false
  end.

(** The texts the [:name] segments of a pattern capture, left to right. *)
Fixpoint params (pattern req : list string) : list string :=
  match pattern, req with
  | p :: pattern', r :: req' =>
      if is_param p then r :: params pattern' req' else params pattern' req'
  | _, _ => []
  end.

(** An error handed to [next]: the [URIError] of a parameter that does not
    decode (Express gives it the status 400), or an error the maintenance
    routes or a mounted router pass on. *)
Inductive NextError :=
  | decode_failed (val : string)
  | maintenance_error
  | router_error (router : RouterName) (mount : string).

(** [layer.match(path)]: when the regular expression matches, every
    parameter is decoded with [decodeURIComponent], and the first one that
    does not decode throws. *)
Inductive Match := matched | unmatched | match_failed (e : NextError).

Definition decodes (val : string) : bool :=
  bool_decide (is_Some (Js.decodeURIComponent val)).

Definition layer_match (pattern req : list string) : Match :=
  if matches_pattern pattern req then
    match List.find (fun val => negb (decodes val)) (params pattern req) with
    | Some val => match_failed (decode_failed val)
    | None => matched
    end
  else unmatched.

(** A [get] route also serves HEAD. *)
Definition serves (m req_method : Method) : bool :=
  bool_decide (m = req_method) ||
  (bool_decide (m = GET) && bool_decide (req_method = HEAD)).

(** What the imported routers and the maintenance routes do with a request
    that reaches them: answer it, pass it on, or pass an error on. *)
Inductive Handled := responds | calls_next | calls_next_with_error.

Record Mounted := mkMounted {
  maintenance_does : Request -> Handled;
  router_does : RouterName -> string -> Request -> Handled
}.

(** How a request leaves the registrations of [registerRoutes]: answered by
    one of them, or unanswered, with the pending error if there is one.
    What follows an unanswered request (handlers registered on [app]
    afterwards, Express's final handler with its HTML page) is not part of
    [registerRoutes]. *)
Inductive Answer :=
  | by_maintenance
  | by_router (router : RouterName) (mount : string)
  | by_endpoint (e : Endpoint)
  | by_not_found (res : Response unit)
  | unanswered (pending : option NextError).

(** [(_req, res) => res.status(404).json({ message: 'Not Found' })]. *)
Definition not_found_handler : Response unit :=
  mkResponse 404 (Message "Not Found").

(** What a layer does with a request that reaches it with no error
    pending.  A route is matched against the path, parameters included,
    before its method is looked at. *)
Inductive Step := answers (a : Answer) | passes | fails (e : NextError).

Definition answer_of (env : Mounted) (req : Request) (l : Layer) : Step :=
  match l with
  | maintenance_routes =>
      match maintenance_does env req with
      | responds => answers by_maintenance
      | calls_next => passes
      | calls_next_with_error => fails maintenance_error
      end
  | use mount router =>
      if mounted_at (segments mount) (segments (path req)) then
        match router_does env router mount req with
        | responds => answers (by_router router mount)
        | calls_next => passes
        | calls_next_with_error => fails (router_error router mount)
        end
      else passes
  | on m pattern e =>
      match layer_match (segments pattern) (segments (path req)) with
      | matched =>
          if serves m (method req) then answers (by_endpoint e) else passes
      | unmatched => passes
      | match_failed err => fails err
      end
  | use_not_found mount =>
      if mounted_at (segments mount) (segments (path req))
      then answers (by_not_found not_found_handler) else passes
  end.

(** The layers are tried in registration order.  Once an error is pending,
    Express only calls handlers that take four arguments; none of the
    registrations does, so every layer that follows is skipped. *)
Fixpoint dispatch_from (pending : option NextError) (env : Mounted)
    (req : Request) (layers : list Layer) : Answer :=
  match layers with
  | [] => unanswered pending
  | l :: rest =>
      match pending with
      | Some e => dispatch_from (Some e) env req rest
      | None =>
          match answer_of env req l with
          | answers a => a
          | passes => dispatch_from None env req rest
          | fails e => dispatch_from (Some e) env req rest
          end
      end
  end.

Definition dispatch : Mounted -> Request -> list Layer -> Answer :=
  dispatch_from None.

(** A path under [/api]. *)
Definition under_api (req : Request) : bool :=
  mounted_at (segments "/api") (segments (path req)).

(** The request matches no registered route: no registration other than
    the fallback would answer it. *)
Definition matches_no_route (env : Mounted) (req : Request) : Prop :=
  forall l, l ∈ registerRoutes -> l <> use_not_found "/api" ->
            forall a, answer_of env req l <> answers a.

(** No registration raises an error on the request. *)
Definition raises_no_error (env : Mounted) (req : Request) : Prop :=
  forall l, l ∈ registerRoutes -> forall e, answer_of env req l <> fails e.

(** Routers that pass every request on. *)
Definition idle : Mounted :=
  {| maintenance_does _ := calls_next; router_does _ _ _ := calls_next |}.

(** A request some registration answered. *)
Definition answered (a : Answer) : bool :=
  match a with
  | unanswered _ => false
  | _ => true
  end.

(** A request for a parameterised route with a malformed escape. *)
Definition malformed_request : Request :=
  mkRequest GET "/api/problem-set-enrollments/%zz".

(** *** server/routes/submissions.ts

    The router mounted at /api/submissions: its three routes, each behind
    [protect], matched against the path below the mount. *)
Inductive SubmissionsController :=
  | listSubmissions
  | createSubmission
  | deleteSubmission.

Definition submissions_routes
    : list (Method * string * SubmissionsController) :=
  [ (GET, "/", listSubmissions);
    (POST, "/", createSubmission);
    (DELETE, "/:id", deleteSubmission) ].

(** The router tries its routes in order, as [app] does its layers; a
    request none of them takes is passed on.  [handles] says what [protect]
    and the controller of the matching route do with the request. *)
Fixpoint router_handle (handles : SubmissionsController -> Handled)
    (routes : list (Method * string * SubmissionsController))
    (m : Method) (below : list string) : Handled :=
  match routes with
  | [] => calls_next
  | (route_method, pattern, controller) :: rest =>
      match layer_match (segments pattern) below with
      | matched =>
          if serves route_method m then
            match handles controller with
            | calls_next => router_handle handles rest m below
            | h => h
            end
          else router_handle handles rest m below
      | unmatched => router_handle handles rest m below
      | match_failed _ => calls_next_with_error
      end
  end.

(** Whether the path below the mount and the method are those of one of
    the routes of the router. *)
Definition submissions_route (m : Method) (below : list string) : bool :=
  existsb (fun r => serves (fst (fst r)) m &&
                    matches_pattern (segments (snd (fst r))) below)
    submissions_routes.

(** The mounted routers with the submissions router as the source has
    it. *)
Definition with_submissions (handles : SubmissionsController -> Handled)
    (env : Mounted) : Mounted :=
  {| maintenance_does := maintenance_does env;
     router_does router mount req :=
       match router with
       | submissionsRouter =>
           router_handle handles submissions_routes (method req)
             (drop (length (segments mount)) (segments (path req)))
       | _ => router_does env router mount req
       end |}.

End Express.

(* ===================================================================== *)
(** * Properties                                                         *)
(* ===================================================================== *)

Module JsFacts.

Example trim_values :
  Js.trim "  Two Sum " = "Two Sum" /\ Js.trim "" = "" /\
  Js.trim "   " = "" /\ Js.trim "a b" = "a b".
Proof. done. Qed.

Example decodeURIComponent_values :
  Js.decodeURIComponent "12" = Some [49; 50]%Z /\
  Js.decodeURIComponent "a%20b" = Some [97; 32; 98]%Z /\
  Js.decodeURIComponent "%E4%BD%A0" = Some [20320]%Z /\
  Js.decodeURIComponent "%F0%9F%98%80" = Some [55357; 56832]%Z /\
  Js.decodeURIComponent "%zz" = None /\
  Js.decodeURIComponent "%" = None /\
  Js.decodeURIComponent "%80" = None /\
  Js.decodeURIComponent "%C0%80" = None /\
  Js.decodeURIComponent "%ED%A0%80" = None /\
  Js.decodeURIComponent "%E4%BD" = None /\
  Js.decodeURIComponent "%E4%BDx" = None.
Proof. repeat split; reflexivity. Qed.

End JsFacts.

Module MongooseFacts.
Import Mongoose.

Section Save.
Context {D : Type} (validate : D -> list ValidatorError).

Lemma save_resolved_valid d db db' :
  save validate d db = (db', Resolved) -> validate d = [].
Proof.
  unfold save. destruct (validate d); [done|]. intros [= _ ?].
Qed.

Lemma save_resolved_written d db db' :
  save validate d db = (db', Resolved) -> saved db' = d :: saved db.
Proof.
  unfold save. destruct (validate d); [|intros [= _ ?]].
  destruct (online db); intros [= <-]; done.
Qed.

Lemma save_invalid d db :
  validate d <> [] ->
  save validate d db = (db, Rejected (ValidationError (validate d))).
Proof. unfold save. destruct (validate d); done. Qed.

Lemma save_valid_online d db :
  validate d = [] -> online db = true ->
  save validate d db = (mkDb true (d :: saved db), Resolved).
Proof. unfold save. intros -> ->. done. Qed.

End Save.

Lemma enum_validator_nil path values msg v :
  enum_validator path values msg v = [] <->
  forall s, v = Some s -> s ∈ values.
Proof.
  unfold enum_validator. destruct v as [s|]; [|split; [intros _ ? [=]|done]].
  destruct (existsb (String.eqb s) values) eqn:E.
  - split; [|done]. intros _ s' [= <-].
    apply existsb_exists in E as (x & Hx & Heq).
    apply String.eqb_eq in Heq as ->. by apply list_elem_of_In.
  - split; [done|]. intros H. exfalso.
    assert (existsb (String.eqb s) values = true); [|congruence].
    apply existsb_exists. exists s. split; [|apply String.eqb_refl].
    apply list_elem_of_In. by apply H.
Qed.

Lemma min_validator_nil path bound msg v :
  min_validator path bound msg v = [] <->
  forall q, v = Some q -> (bound ≤ q)%Qc.
Proof.
  unfold min_validator. destruct v as [q|]; [|split; [intros _ ? [=]|done]].
  destruct (decide (bound ≤ q)%Qc).
  - split; [|done]. by intros _ ? [= <-].
  - split; [done|]. intros H. exfalso. by apply n, H.
Qed.

Lemma min_validator_double_nil path bound msg v :
  min_validator_double path bound msg v = [] <->
  forall x, v = Some x -> Number.ge x bound = true.
Proof.
  unfold min_validator_double.
  destruct v as [x|]; [|split; [intros _ ? [=]|done]].
  destruct (Number.ge x bound) eqn:E.
  - split; [|done]. by intros _ ? [= <-].
  - split; [done|]. intros H. specialize (H x eq_refl). congruence.
Qed.

Lemma max_validator_nil path bound msg v :
  max_validator path bound msg v = [] <->
  forall q, v = Some q -> (q ≤ bound)%Qc.
Proof.
  unfold max_validator. destruct v as [q|]; [|split; [intros _ ? [=]|done]].
  destruct (decide (q ≤ bound)%Qc).
  - split; [|done]. by intros _ ? [= <-].
  - split; [done|]. intros H. exfalso. by apply n, H.
Qed.

End MongooseFacts.

Module NumberFacts.
Import Number.
Local Open Scope Z_scope.

Lemma shl_S k p : shl (S k) p = xO (shl k p).
Proof. reflexivity. Qed.

Lemma shl_add j k p : shl (j + k) p = shl j (shl k p).
Proof. unfold shl. by rewrite Nat.iter_add. Qed.

Lemma Pos_iter_shl p k : Pos.iter xO p k = shl (Pos.to_nat k) p.
Proof.
  rewrite Pos2Nat.inj_iter. unfold shl.
  induction (Pos.to_nat k) as [|n IH]; simpl; congruence.
Qed.

Lemma shl_value k p : Zpos (shl k p) = Zpos p * 2 ^ Z.of_nat k.
Proof.
  induction k as [|k IH]; [simpl; lia|].
  rewrite shl_S, Pos2Z.inj_xO, IH, Nat2Z.inj_succ, Z.pow_succ_r by lia. lia.
Qed.

Lemma digits_shl k p :
  Zpos (digits2_pos (shl k p)) = Zpos (digits2_pos p) + Z.of_nat k.
Proof.
  induction k as [|k IH]; [simpl; lia|].
  rewrite shl_S. simpl digits2_pos. rewrite Pos2Z.inj_succ, IH. lia.
Qed.

Lemma iter_pos_iter {A} (f : A -> A) p x :
  SpecFloat.iter_pos f p x = Nat.iter (Pos.to_nat p) f x.
Proof.
  revert x. induction p as [p IH|p IH|]; intros x;
    cbn [SpecFloat.iter_pos].
  - rewrite !IH, Pos2Nat.inj_xI.
    replace (S (2 * Pos.to_nat p)) with (Pos.to_nat p + S (Pos.to_nat p))%nat
      by lia.
    rewrite Nat.iter_add. f_equal. by rewrite Nat.iter_succ_r.
  - rewrite !IH, Pos2Nat.inj_xO.
    replace (2 * Pos.to_nat p)%nat with (Pos.to_nat p + Pos.to_nat p)%nat
      by lia.
    by rewrite Nat.iter_add.
  - reflexivity.
Qed.

(** Shifting out zero bits is exact. *)
Lemma shr_zeros j k p :
  Nat.iter j shr_1 (Build_shr_record (Zpos (shl (j + k) p)) false false) =
  Build_shr_record (Zpos (shl k p)) false false.
Proof.
  induction j as [|j IH]; [done|].
  rewrite Nat.iter_succ_r. rewrite Nat.add_succ_l, shl_S. simpl shr_1.
  exact IH.
Qed.

Lemma shr_exact (n : Z) k p e :
  0 <= n <= Z.of_nat k ->
  shr (Build_shr_record (Zpos (shl k p)) false false) e n =
  (Build_shr_record (Zpos (shl (k - Z.to_nat n) p)) false false, e + n).
Proof.
  intros Hn. unfold shr. destruct n as [|j|j]; [| |lia].
  - simpl. by rewrite Nat.sub_0_r, Z.add_0_r.
  - rewrite iter_pos_iter. f_equal.
    replace k with (Pos.to_nat j + (k - Pos.to_nat j))%nat at 1 by lia.
    rewrite shr_zeros. by rewrite Z2Nat.inj_pos.
Qed.

(** The canonical form of [P * 2^K * 2^e] when [P] has at most 53 bits and
    the value is in the normal range. *)
Lemma binary_round_exact s P K e :
  let d := Zpos (digits2_pos P) in
  d <= 53 -> -1074 <= e + Z.of_nat K + d - 53 <= 971 ->
  binary_round prec emax s (shl K P) e =
  S754_finite s (shl (Z.to_nat (53 - d)) P) (e + Z.of_nat K + d - 53).
Proof.
  intros d Hd He.
  assert (forall m c, Zpos (digits2_pos m) = 53 -> -1074 <= c <= 971 ->
            binary_round_aux 53 1024 s (Zpos m) c loc_Exact =
            S754_finite s m c) as Haux.
  { intros m c Hm Hc. unfold binary_round_aux, shr_fexp, fexp, emin.
    unfold Zdigits2. rewrite Hm.
    replace (Z.max (53 + c - 53) (3 - 1024 - 53) - c) with 0 by lia.
    cbn [shr shr_record_of_loc shr_m loc_of_shr_record round_nearest_even].
    unfold Zdigits2. rewrite Hm.
    replace (Z.max (53 + c - 53) (3 - 1024 - 53) - c) with 0 by lia.
    cbn [shr shr_record_of_loc shr_m].
    destruct (Z.leb_spec c (1024 - 53)); [done|lia]. }
  unfold prec, emax, binary_round. rewrite digits_shl. fold d.
  unfold fexp, emin.
  replace (Z.max (d + Z.of_nat K + e - 53) (3 - 1024 - 53))
    with (e + Z.of_nat K + d - 53) by lia.
  set (c := e + Z.of_nat K + d - 53) in *.
  unfold shl_align.
  destruct (c - e) as [|j|j] eqn:Hj.
  - replace (Z.to_nat (53 - d)) with K by lia.
    replace c with e by lia.
    apply Haux; [rewrite digits_shl; fold d|]; lia.
  - unfold binary_round_aux, shr_fexp, fexp, emin.
    unfold Zdigits2. rewrite digits_shl. fold d.
    replace (Z.max (d + Z.of_nat K + e - 53) (3 - 1024 - 53) - e)
      with (Zpos j) by lia.
    cbn [shr_record_of_loc]. rewrite shr_exact by lia.
    cbn [shr_m loc_of_shr_record round_nearest_even].
    replace (K - Z.to_nat (Z.pos j))%nat with (Z.to_nat (53 - d)) by lia.
    replace (e + Z.pos j) with c by lia.
    set (m := shl _ P).
    assert (Zpos (digits2_pos m) = 53) as Hm.
    { unfold m. rewrite digits_shl. fold d. lia. }
    unfold Zdigits2. rewrite Hm.
    replace (Z.max (53 + c - 53) (3 - 1024 - 53) - c) with 0 by lia.
    cbn [shr shr_record_of_loc shr_m].
    destruct (Z.leb_spec c (1024 - 53)); [done|lia].
  - rewrite Pos_iter_shl, <- shl_add.
    replace (Pos.to_nat j + K)%nat with (Z.to_nat (53 - d)) by lia.
    apply Haux; [rewrite digits_shl; fold d|]; lia.
Qed.


Lemma digits_low q : 2 ^ (Zpos (digits2_pos q) - 1) <= Zpos q.
Proof.
  induction q as [q IH|q IH|]; simpl digits2_pos;
    rewrite ?Pos2Z.inj_succ;
    try (replace (Z.succ (Zpos (digits2_pos q)) - 1)
           with (Z.succ (Zpos (digits2_pos q) - 1)) by lia;
         rewrite Z.pow_succ_r by lia); lia.
Qed.

Lemma digits_bound p : Zpos p < 2 ^ 53 -> Zpos (digits2_pos p) <= 53.
Proof.
  intros Hp. pose proof (digits_low p) as Hlow.
  destruct (Z.le_gt_cases (Zpos (digits2_pos p)) 53) as [|Hgt]; [done|].
  assert (2 ^ 53 <= 2 ^ (Zpos (digits2_pos p) - 1)); [|lia].
  apply Z.pow_le_mono_r; lia.
Qed.

(** Every integer up to [2^53] in absolute value is [P * 2^t] with [P] of
    at most 53 bits. *)
Lemma small_integer (p : positive) :
  Zpos p <= 2 ^ 53 ->
  exists t P, p = shl t P /\ Zpos (digits2_pos P) <= 53 /\
              (t <= 53)%nat.
Proof.
  intros Hp. destruct (Z.eq_dec (Zpos p) (2 ^ 53)) as [Heq|Hne].
  - exists 53%nat, 1%positive. split; [|simpl; lia].
    apply Pos2Z.inj. by rewrite shl_value.
  - exists 0%nat, p. split; [done|]. split; [|lia].
    apply digits_bound. lia.
Qed.

Lemma of_Z_round s p :
  Zpos p <= 2 ^ 53 ->
  exists t P, p = shl t P /\ Zpos (digits2_pos P) <= 53 /\ (t <= 53)%nat /\
  forall k : nat, (k <= 52)%nat ->
    binary_round prec emax s (shl k p) (- Z.of_nat k) =
    S754_finite s (shl (Z.to_nat (53 - Zpos (digits2_pos P))) P)
      (Z.of_nat t + Zpos (digits2_pos P) - 53).
Proof.
  intros Hp. destruct (small_integer p Hp) as (t & P & -> & Hd & Ht).
  exists t, P. split; [done|]. split; [done|]. split; [done|].
  intros k Hk. rewrite <- shl_add.
  rewrite binary_round_exact by lia. f_equal. lia.
Qed.

(** Scaling the mantissa and the exponent of an integer against each other
    does not change the double it rounds to. *)
Lemma normalize_scaled (n : Z) (k : nat) :
  - 2 ^ 53 <= n <= 2 ^ 53 -> (k <= 52)%nat ->
  binary_normalize prec emax (n * 2 ^ Z.of_nat k) (- Z.of_nat k) false =
  of_Z n.
Proof.
  intros Hn Hk. unfold of_Z.
  destruct n as [|p|p]; [done| |].
  - rewrite <- shl_value. simpl binary_normalize.
    destruct (of_Z_round false p) as (t & P & _ & _ & _ & H); [lia|].
    pose proof (H 0%nat ltac:(lia)) as H0.
    change (shl 0 p) with p in H0. change (- Z.of_nat 0) with 0 in H0.
    by rewrite (H k Hk), H0.
  - change (Zneg p) with (- Zpos p). rewrite Z.mul_opp_l, <- shl_value.
    simpl binary_normalize.
    destruct (of_Z_round true p) as (t & P & _ & _ & _ & H); [lia|].
    pose proof (H 0%nat ltac:(lia)) as H0.
    change (shl 0 p) with p in H0. change (- Z.of_nat 0) with 0 in H0.
    by rewrite (H k Hk), H0.
Qed.

(** The double of a small integer, spelled out. *)
Lemma of_Z_pos s p :
  Zpos p < 2 ^ 53 ->
  of_Z (cond_Zopp s (Zpos p)) =
  S754_finite s (shl (Z.to_nat (53 - Zpos (digits2_pos p))) p)
    (Zpos (digits2_pos p) - 53).
Proof.
  intros Hd%digits_bound. unfold of_Z.
  pose proof (binary_round_exact s p 0 0 Hd) as H. simpl shl in H.
  destruct s; simpl; rewrite H by lia; f_equal; lia.
Qed.

(** [of_Z n] is the integer [n], and a valid double. *)
Lemma of_Z_integer n :
  - 2 ^ 53 <= n <= 2 ^ 53 ->
  valid (of_Z n) = true /\ is_integer (of_Z n) n.
Proof.
  intros Hn. destruct n as [|p|p]; [done| |].
  - unfold of_Z. simpl binary_normalize.
    destruct (of_Z_round false p) as (t & P & Hp & Hd & Ht & H); [lia|].
    specialize (H 0%nat ltac:(lia)).
    change (shl 0 p) with p in H. change (- Z.of_nat 0) with 0 in H.
    rewrite H. clear H.
    set (d := Zpos (digits2_pos P)) in *. split.
    + unfold valid, valid_binary, bounded, canonical_mantissa, fexp, emin.
      rewrite digits_shl. fold d. unfold prec, emax.
      apply andb_true_intro. split; [apply Z.eqb_eq|apply Z.leb_le]; lia.
    + unfold is_integer, cond_Zopp. subst p. rewrite !shl_value.
      destruct (Z.le_gt_cases 0 (Z.of_nat t + d - 53)) as [He|He].
      * left. split; [done|]. rewrite <- Z.mul_assoc, <- Z.pow_add_r by lia.
        do 2 f_equal. lia.
      * right. split; [done|]. rewrite <- Z.mul_assoc, <- Z.pow_add_r by lia.
        do 2 f_equal. lia.
  - unfold of_Z. simpl binary_normalize.
    destruct (of_Z_round true p) as (t & P & Hp & Hd & Ht & H); [lia|].
    specialize (H 0%nat ltac:(lia)).
    change (shl 0 p) with p in H. change (- Z.of_nat 0) with 0 in H.
    rewrite H. clear H.
    set (d := Zpos (digits2_pos P)) in *. split.
    + unfold valid, valid_binary, bounded, canonical_mantissa, fexp, emin.
      rewrite digits_shl. fold d. unfold prec, emax.
      apply andb_true_intro. split; [apply Z.eqb_eq|apply Z.leb_le]; lia.
    + unfold is_integer, cond_Zopp. subst p.
      change (Zneg (shl t P)) with (- Zpos (shl t P)). rewrite !shl_value.
      destruct (Z.le_gt_cases 0 (Z.of_nat t + d - 53)) as [He|He].
      * left. split; [done|].
        rewrite Z.mul_opp_l, <- Z.mul_assoc, <- Z.pow_add_r by lia.
        do 3 f_equal. lia.
      * right. split; [done|].
        rewrite Z.mul_opp_l, <- Z.mul_assoc, <- Z.pow_add_r by lia.
        do 3 f_equal. lia.
Qed.

(** A double is at most one integer. *)
Lemma is_integer_inj x a b : is_integer x a -> is_integer x b -> a = b.
Proof.
  destruct x as [| | |s m e]; simpl; try done; [congruence|].
  intros [[He Ha]|[He Ha]] [[He' Hb]|[He' Hb]]; try lia.
  assert (0 < 2 ^ (- e)) by (apply Z.pow_pos_nonneg; lia).
  apply (Z.mul_reg_r _ _ (2 ^ (- e))); lia.
Qed.

(** A valid double that is a non-zero integer below [2^53] in absolute
    value is [of_Z] of it: the canonical form is unique. *)
Lemma integer_unique x n :
  valid x = true -> is_integer x n ->
  - 2 ^ 53 < n < 2 ^ 53 -> n <> 0 -> x = of_Z n.
Proof.
  intros Hv Hi Hn Hn0. destruct x as [| | |s m e]; try done.
  unfold valid, valid_binary, bounded, canonical_mantissa, fexp, emin in Hv.
  unfold prec, emax in Hv.
  apply andb_prop in Hv as [Hc%Z.eqb_eq He%Z.leb_le].
  set (dm := Zpos (digits2_pos m)) in *.
  assert (exists p, n = cond_Zopp s (Zpos p) /\ Zpos p < 2 ^ 53 /\
                    ((0 <= e /\ p = shl (Z.to_nat e) m) \/
                     (e < 0 /\ m = shl (Z.to_nat (- e)) p)))
    as (p & -> & Hp & Hm).
  { destruct Hi as [[He0 Hi]|[He0 Hi]].
    - exists (shl (Z.to_nat e) m). rewrite shl_value, Z2Nat.id by lia.
      split; [destruct s; simpl in *; lia|].
      split; [destruct s; simpl in *; lia|]. by left.
    - assert (0 < 2 ^ (- e)) by (apply Z.pow_pos_nonneg; lia).
      destruct s, n as [|p|p]; simpl in Hi; try lia.
      + exists p. split; [done|]. split; [lia|]. right. split; [done|].
        apply Pos2Z.inj. rewrite shl_value, Z2Nat.id by lia. lia.
      + exists p. split; [done|]. split; [lia|]. right. split; [done|].
        apply Pos2Z.inj. rewrite shl_value, Z2Nat.id by lia. lia. }
  rewrite of_Z_pos by done. pose proof (digits_bound p Hp) as Hd.
  destruct Hm as [[He0 ->]|[He0 ->]].
  - rewrite digits_shl, Z2Nat.id in * by lia. fold dm in Hd |- *.
    assert (e = 0) as -> by lia. simpl shl.
    replace (Z.to_nat (53 - (dm + 0))) with 0%nat by lia. simpl.
    f_equal. lia.
  - unfold dm in Hc. rewrite digits_shl, Z2Nat.id in Hc by lia.
    f_equal; [f_equal|]; lia.
Qed.


Lemma one_eq : one = S754_finite false (shl 52 1) (-52).
Proof. reflexivity. Qed.

(** The two mantissas of a sum with 1, aligned at exponent [-52]. *)
Lemma plus_one_aligned (op : Z -> Z -> Z) s p :
  Zpos p < 2 ^ 53 ->
  binary_normalize prec emax
    (op (cond_Zopp s (Zpos (fst (shl_align
            (shl (Z.to_nat (53 - Zpos (digits2_pos p))) p)
            (Zpos (digits2_pos p) - 53) (-52)))))
        (cond_Zopp false (Zpos (fst (shl_align (shl 52 1) (-52) (-52))))))
    (-52) false =
  binary_normalize prec emax
    (op (cond_Zopp s (Zpos p) * 2 ^ 52) (2 ^ 52)) (-52) false.
Proof.
  intros Hd%digits_bound. do 2 f_equal.
  set (d := Zpos (digits2_pos p)) in *.
  assert (1 <= d) by (unfold d; lia).
  f_equal. unfold shl_align. destruct (-52 - (d - 53)) as [|j|j] eqn:Hj.
  - simpl fst. rewrite shl_value. replace (Z.of_nat _) with 52 by lia.
    by destruct s.
  - lia.
  - simpl fst. rewrite Pos_iter_shl, <- shl_add, shl_value.
    replace (Z.of_nat _) with 52 by lia. by destruct s.
Qed.

Lemma plus_one n :
  - 2 ^ 53 < n < 2 ^ 53 -> plus (of_Z n) one = of_Z (n + 1).
Proof.
  intros Hn. destruct (Z.eq_dec n 0) as [->|Hn0]; [done|].
  assert (exists s p, n = cond_Zopp s (Zpos p) /\ Zpos p < 2 ^ 53)
    as (s & p & -> & Hp).
  { destruct n as [|p|p]; [done| |].
    - exists false, p. split; [done|lia].
    - exists true, p. split; [done|lia]. }
  rewrite of_Z_pos, one_eq by done. unfold plus, SFadd. cbv zeta.
  replace (Z.min (Zpos (digits2_pos p) - 53) (-52)) with (-52) by lia.
  rewrite (plus_one_aligned Z.add) by done.
  replace (cond_Zopp s (Z.pos p) * 2 ^ 52 + 2 ^ 52)
    with ((cond_Zopp s (Zpos p) + 1) * 2 ^ Z.of_nat 52) by (simpl; lia).
  apply (normalize_scaled _ 52); [|lia]. destruct s; simpl in *; lia.
Qed.

Lemma minus_one n :
  - 2 ^ 53 < n < 2 ^ 53 -> minus (of_Z n) one = of_Z (n - 1).
Proof.
  intros Hn. destruct (Z.eq_dec n 0) as [->|Hn0]; [done|].
  assert (exists s p, n = cond_Zopp s (Zpos p) /\ Zpos p < 2 ^ 53)
    as (s & p & -> & Hp).
  { destruct n as [|p|p]; [done| |].
    - exists false, p. split; [done|lia].
    - exists true, p. split; [done|lia]. }
  rewrite of_Z_pos, one_eq by done. unfold minus, SFsub. cbv zeta.
  replace (Z.min (Zpos (digits2_pos p) - 53) (-52)) with (-52) by lia.
  rewrite (plus_one_aligned Z.sub) by done.
  replace (cond_Zopp s (Z.pos p) * 2 ^ 52 - 2 ^ 52)
    with ((cond_Zopp s (Zpos p) - 1) * 2 ^ Z.of_nat 52) by (simpl; lia).
  apply (normalize_scaled _ 52); [|lia]. destruct s; simpl in *; lia.
Qed.

Lemma Math_max_zero_of_Z n :
  - 2 ^ 53 <= n <= 2 ^ 53 -> Js.Math_max zero (of_Z n) = of_Z (Z.max 0 n).
Proof.
  intros Hn. destruct n as [|p|p]; [done| |].
  - replace (Z.max 0 (Zpos p)) with (Zpos p) by lia.
    unfold of_Z. simpl binary_normalize.
    destruct (of_Z_round false p) as (t & P & _ & _ & _ & H); [lia|].
    specialize (H 0%nat ltac:(lia)).
    change (shl 0 p) with p in H. change (- Z.of_nat 0) with 0 in H.
    by rewrite H.
  - replace (Z.max 0 (Zneg p)) with 0 by lia.
    unfold of_Z at 1. simpl binary_normalize.
    destruct (of_Z_round true p) as (t & P & _ & _ & _ & H); [lia|].
    specialize (H 0%nat ltac:(lia)).
    change (shl 0 p) with p in H. change (- Z.of_nat 0) with 0 in H.
    by rewrite H.
Qed.

(** *** Signs: rounding never produces [NaN] and keeps the sign *)

Lemma shr_1_nonneg r : 0 <= shr_m r -> 0 <= shr_m (shr_1 r).
Proof. destruct r as [[|[p|p|]|p] rb sb]; simpl; lia. Qed.

Lemma shr_nonneg r e n : 0 <= shr_m r -> 0 <= shr_m (shr r e n).1.
Proof.
  intros Hr. unfold shr. destruct n as [|j|j]; [done| |done]. simpl.
  rewrite iter_pos_iter. induction (Pos.to_nat j) as [|k IH]; [done|].
  simpl. by apply shr_1_nonneg.
Qed.

Lemma round_nearest_even_nonneg m l :
  0 <= m -> 0 <= round_nearest_even m l.
Proof.
  intros Hm. unfold round_nearest_even.
  destruct l as [|[]]; [done| |done|lia]. destruct (Z.even m); lia.
Qed.

Lemma binary_round_aux_sign s m e l :
  0 <= m -> has_sign s (binary_round_aux prec emax s m e l).
Proof.
  intros Hm. unfold binary_round_aux, shr_fexp.
  destruct (shr (shr_record_of_loc m l) e _) as [r1 e1] eqn:E1.
  assert (0 <= shr_m r1) as H1.
  { change r1 with (r1, e1).1. rewrite <- E1. apply shr_nonneg.
    by destruct l as [|[]]. }
  destruct (shr (shr_record_of_loc _ loc_Exact) e1 _) as [r2 e2] eqn:E2.
  assert (0 <= shr_m r2) as H2.
  { change r2 with (r2, e2).1. rewrite <- E2. apply shr_nonneg. simpl.
    by apply round_nearest_even_nonneg. }
  destruct (shr_m r2) as [|q|q]; [done| |lia].
  by destruct (_ <=? _).
Qed.

Lemma binary_normalize_sign z e :
  z <> 0 ->
  has_sign (bool_decide (z < 0)) (binary_normalize prec emax z e false).
Proof.
  intros Hz. destruct z as [|p|p]; [done| |]; simpl binary_normalize;
    unfold binary_round; destruct (shl_align _ _ _) as [mz ez];
    apply binary_round_aux_sign; lia.
Qed.

Lemma binary_normalize_not_nan z e :
  binary_normalize prec emax z e false <> S754_nan.
Proof.
  destruct (Z.eq_dec z 0) as [->|Hz]; [done|].
  pose proof (binary_normalize_sign z e Hz) as H. intros E.
  by rewrite E in H.
Qed.

Lemma has_sign_ge_zero x : has_sign false x -> ge x zero = true.
Proof. by destruct x as [[]|[]| |[] m e]. Qed.

Lemma ge_zero_cases x :
  ge x zero = true ->
  (exists s, x = S754_zero s) \/ x = S754_infinity false \/
  exists m e, x = S754_finite false m e.
Proof. destruct x as [s|[]| |[] m e]; try done; eauto. Qed.

(** Adding 1 to a double that is not negative gives one that is not. *)
Lemma plus_one_nonneg x :
  ge x zero = true -> ge (plus (Js.or_zero (Some x)) one) zero = true.
Proof.
  intros [[s ->]|[->|(m & e & ->)]]%ge_zero_cases; [done|done|].
  simpl Js.or_zero. rewrite one_eq. unfold plus, SFadd.
  apply has_sign_ge_zero.
  set (z := cond_Zopp false _ + cond_Zopp false _).
  assert (0 < z) as Hz by (unfold z; simpl; lia).
  pose proof (binary_normalize_sign z (Z.min e (-52)) ltac:(lia)) as H.
  by rewrite bool_decide_eq_false_2 in H by lia.
Qed.

(** Subtracting 1 never gives [NaN]. *)
Lemma minus_one_not_nan v : minus (Js.or_zero v) one <> S754_nan.
Proof.
  rewrite one_eq.
  destruct v as [[s|s| |s m e]|]; simpl Js.or_zero; try done.
  unfold minus, SFsub. apply binary_normalize_not_nan.
Qed.

Lemma Math_max_zero_nonneg y :
  y <> S754_nan -> ge (Js.Math_max zero y) zero = true.
Proof. by destruct y as [[]|[]| |[] m e]. Qed.

End NumberFacts.

Module CourseFacts.
Import Mongoose MongooseFacts CourseModel NumberFacts.

Lemma doc_after_increment c db :
  doc_after (incrementEnrollment c db) =
  set_enrollmentCount
    (Some (Number.plus (Js.or_zero (enrollmentCount c)) Number.one)) c.
Proof.
  unfold incrementEnrollment, doc_after. by destruct (save_course _ _).
Qed.

Lemma doc_after_decrement c db :
  doc_after (decrementEnrollment c db) =
  set_enrollmentCount
    (Some (Js.Math_max Number.zero
             (Number.minus (Js.or_zero (enrollmentCount c)) Number.one))) c.
Proof.
  unfold decrementEnrollment, doc_after. by destruct (save_course _ _).
Qed.

(** [enrollmentCount || 0] on a document that counts a safe integer. *)
Lemma or_zero_count c n :
  safe_integer n -> count_is c n ->
  Js.or_zero (enrollmentCount c) = Number.of_Z n.
Proof.
  intros Hn [(x & -> & Hv & Hi)|[-> ->]]; [|done].
  destruct (Z.eq_dec n 0) as [->|Hn0].
  - destruct x as [| | |s m e]; try done. exfalso.
    destruct Hi as [[He Hi]|[He Hi]]; [|by destruct s].
    assert (0 < 2 ^ e)%Z by (by apply Z.pow_pos_nonneg).
    destruct s; simpl in Hi; lia.
  - rewrite (integer_unique x n Hv Hi Hn Hn0).
    assert (exists s p, n = cond_Zopp s (Zpos p) /\ (Zpos p < 2 ^ 53)%Z)
      as (s & p & -> & Hp).
    { unfold safe_integer in Hn. destruct n as [|p|p]; [done| |].
      - exists false, p. split; [done|lia].
      - exists true, p. split; [done|lia]. }
    by rewrite of_Z_pos.
Qed.

Lemma holds_of_Z c n :
  (- 2 ^ 53 <= n <= 2 ^ 53)%Z ->
  enrollmentCount c = Some (Number.of_Z n) -> holds_count c n.
Proof.
  intros Hn Hc. exists (Number.of_Z n). split; [done|].
  by apply of_Z_integer.
Qed.

(** The counts the two methods leave for a safe integer. *)
Lemma count_after c db n :
  safe_integer n -> count_is c n ->
  enrollmentCount (doc_after (incrementEnrollment c db))
    = Some (Number.of_Z (n + 1)) /\
  enrollmentCount (doc_after (decrementEnrollment c db))
    = Some (Number.of_Z (Z.max 0 (n - 1))).
Proof.
  intros Hn Hc. rewrite doc_after_increment, doc_after_decrement.
  cbn [enrollmentCount set_enrollmentCount].
  rewrite (or_zero_count c n Hn Hc). unfold safe_integer in Hn.
  rewrite plus_one, minus_one by done.
  by rewrite Math_max_zero_of_Z by lia.
Qed.

Lemma increment_nonneg c db :
  count_nonneg c -> count_nonneg (doc_after (incrementEnrollment c db)).
Proof.
  unfold count_nonneg. rewrite doc_after_increment.
  cbn [enrollmentCount set_enrollmentCount].
  destruct (enrollmentCount c) as [x|]; [|done]. apply plus_one_nonneg.
Qed.

Lemma decrement_nonneg c db :
  count_nonneg (doc_after (decrementEnrollment c db)).
Proof.
  unfold count_nonneg. rewrite doc_after_decrement.
  cbn [enrollmentCount set_enrollmentCount].
  apply Math_max_zero_nonneg, minus_one_not_nan.
Qed.

(** C10: on a course whose count is a safe integer [n] (below [2^53] in
    absolute value; a missing value counts as 0),
    [incrementEnrollment] sets [enrollmentCount] to [n + 1] and
    [decrementEnrollment] sets it to the larger of 0 and [n - 1].  On every
    course, whatever double it holds, both keep [enrollmentCount >= 0]
    (after [decrementEnrollment] it holds even if it did not before), and
    decrementing a count of 0 leaves 0. *)
Theorem enrollment_count_step (c : Course) (db : Db Course) :
  let incremented := doc_after (incrementEnrollment c db) in
  let decremented := doc_after (decrementEnrollment c db) in
  (forall n, safe_integer n -> count_is c n ->
     holds_count incremented (n + 1) /\
     holds_count decremented (Z.max 0 (n - 1))) /\
  (count_nonneg c -> count_nonneg incremented) /\
  count_nonneg decremented /\
  (count_is c 0 -> holds_count decremented 0).
Proof.
  cbv zeta. split; [|split; [|split]].
  - intros n Hn Hc. destruct (count_after c db n Hn Hc) as [Hi Hd].
    unfold safe_integer in Hn. split; eapply holds_of_Z; try done; lia.
  - apply increment_nonneg.
  - apply decrement_nonneg.
  - intros Hc.
    destruct (count_after c db 0 ltac:(by compute) Hc) as [_ Hd].
    by eapply (holds_of_Z _ 0).
Qed.

Lemma enrollment_count_step_witness :
  let db := mkDb true [] in
  (safe_integer 3 /\ count_is sample_course 3) /\
  holds_count (doc_after (incrementEnrollment sample_course db)) 4 /\
  holds_count (doc_after (decrementEnrollment sample_course db)) 2 /\
  count_nonneg sample_course /\
  count_nonneg (doc_after (incrementEnrollment sample_course db)).
Proof.
  intros db.
  assert (safe_integer 3) as Hs by (by compute).
  assert (count_is sample_course 3) as Hc.
  { left. by apply (holds_of_Z _ 3). }
  assert (count_nonneg sample_course) as Hn by reflexivity.
  destruct (enrollment_count_step sample_course db) as (Hint & Hinc & _).
  destruct (Hint 3 Hs Hc) as [Hi Hd].
  split; [done|]. split; [exact Hi|]. split; [exact Hd|].
  split; [exact Hn|]. exact (Hinc Hn).
Defined.

(** At [2^53] the sum is rounded: [incrementEnrollment] leaves the count
    at [2^53], which is not the previous value plus 1. *)
Lemma increment_rounds_at_2_53 :
  let after := doc_after (incrementEnrollment crowded_course (mkDb true [])) in
  holds_count crowded_course (2 ^ 53) /\
  holds_count after (2 ^ 53) /\
  ~ holds_count after (2 ^ 53 + 1).
Proof.
  intros after.
  assert (enrollmentCount after = Some (Number.of_Z (2 ^ 53))) as Hafter.
  { unfold after. rewrite doc_after_increment. reflexivity. }
  split; [by apply holds_of_Z|]. split; [by apply holds_of_Z|].
  intros (x & Hx & _ & Hi). rewrite Hafter in Hx. injection Hx as <-.
  vm_compute in Hi. destruct Hi as [[_ Hi]|[Hi _]]; discriminate.
Qed.

Lemma validate_nil_in_bounds c :
  courseSchema_validate c = [] -> in_bounds c.
Proof.
  unfold courseSchema_validate. intros H.
  do 4 (apply app_eq_nil in H as [_ H]).
  apply app_eq_nil in H as [Hr0 H]. apply app_eq_nil in H as [Hr5 H].
  apply app_eq_nil in H as [_ H]. apply app_eq_nil in H as [Hc0 Hc100].
  split; intros r Hr; split.
  - by eapply (proj1 (min_validator_nil _ _ _ _) Hr0).
  - by eapply (proj1 (max_validator_nil _ _ _ _) Hr5).
  - by eapply (proj1 (min_validator_nil _ _ _ _) Hc0).
  - by eapply (proj1 (max_validator_nil _ _ _ _) Hc100).
Qed.

Lemma out_of_bounds_error c :
  ~ in_bounds c -> bound_error (courseSchema_validate c).
Proof.
  intros Hout. unfold courseSchema_validate, bound_error.
  destruct (min_validator "rating" 0%Qc (Some "Rating cannot be negative")
              (rating c)) as [|e1 l1] eqn:E1.
  2:{ exists e1. unfold min_validator in E1.
      destruct (rating c); [|done]. case_decide; [done|].
      injection E1 as <- <-. split; [set_solver|]. simpl. auto. }
  destruct (max_validator "rating" (Q2Qc 5) (Some "Rating cannot exceed 5")
              (rating c)) as [|e2 l2] eqn:E2.
  2:{ exists e2. unfold max_validator in E2.
      destruct (rating c); [|done]. case_decide; [done|].
      injection E2 as <- <-. split; [set_solver|]. simpl. auto. }
  destruct (min_validator "completionRate" 0%Qc
              (Some "Completion rate cannot be negative")
              (completionRate c)) as [|e3 l3] eqn:E3.
  2:{ exists e3. unfold min_validator in E3.
      destruct (completionRate c); [|done]. case_decide; [done|].
      injection E3 as <- <-. split; [set_solver|]. simpl. auto. }
  destruct (max_validator "completionRate" (Q2Qc 100)
              (Some "Completion rate cannot exceed 100")
              (completionRate c)) as [|e4 l4] eqn:E4.
  2:{ exists e4. unfold max_validator in E4.
      destruct (completionRate c); [|done]. case_decide; [done|].
      injection E4 as <- <-. split; [set_solver|]. simpl. auto. }
  exfalso. apply Hout. split; intros r Hr; split.
  - by eapply (proj1 (min_validator_nil _ _ _ _) E1).
  - by eapply (proj1 (max_validator_nil _ _ _ _) E2).
  - by eapply (proj1 (min_validator_nil _ _ _ _) E3).
  - by eapply (proj1 (max_validator_nil _ _ _ _) E4).
Qed.

(** C4: the bounds [courseSchema] declares are validation invariants: a
    course that passes validation, and so every course a [save] writes, has
    its rating (when set) in [0, 5] and its completionRate (when set) in
    [0, 100]; a [save] of a course outside the bounds writes nothing and is
    rejected with a validation error on the offending path. *)
Theorem course_bounds_validated (c : Course) (db : Db Course) :
  (courseSchema_validate c = [] -> in_bounds c) /\
  (forall db', save_course c db = (db', Resolved) ->
               in_bounds c /\ saved db' = c :: saved db) /\
  (~ in_bounds c ->
   exists errs, save_course c db = (db, Rejected (ValidationError errs)) /\
                bound_error errs).
Proof.
  split; [apply validate_nil_in_bounds|]. split.
  - intros db' Hs. split.
    + eapply validate_nil_in_bounds, save_resolved_valid, Hs.
    + eapply save_resolved_written, Hs.
  - intros Hout. exists (courseSchema_validate c).
    pose proof (out_of_bounds_error c Hout) as Herr. split; [|done].
    apply save_invalid. intros Hnil. rewrite Hnil in Herr.
    destruct Herr as (e & He & _). by apply elem_of_nil in He.
Qed.

Lemma course_bounds_validated_witness :
  (in_bounds sample_course /\
   saved (save_course sample_course (mkDb true [])).1 = [sample_course]) /\
  (exists errs,
      save_course overrated_course (mkDb true []) =
      (mkDb true [], Rejected (ValidationError errs)) /\ bound_error errs).
Proof.
  split.
  - apply (course_bounds_validated sample_course (mkDb true [])).
    reflexivity.
  - apply (course_bounds_validated overrated_course (mkDb true [])).
    intros [Hr _]. destruct (Hr (Q2Qc 6) eq_refl) as [_ H]. by compute in H.
Defined.

End CourseFacts.

Module ProblemSetFacts.
Import Mongoose MongooseFacts ProblemSetModel.

(** *** [save] leaves the document in memory as it is *)

Lemma save_this_heap s : heap (save_this s).1 = heap s.
Proof. unfold save_this. by destruct (save _ _ _). Qed.

Lemma save_this_this s : this (save_this s).1 = this s.
Proof. unfold save_this. by destruct (save _ _ _). Qed.

Lemma save_this_instances s : instances (save_this s).1 = instances s.
Proof. unfold instances. by rewrite save_this_heap, save_this_this. Qed.

Lemma save_this_resolved s :
  (save_this s).2 = Resolved ->
  saved (db (save_this s).1) = mkStored (this s) (instances s) :: saved (db s).
Proof.
  unfold save_this.
  destruct (save _ _ _) as [db' o] eqn:E. simpl. intros ->.
  by apply save_resolved_written in E.
Qed.

Lemma save_this_not_not_found s : (save_this s).2 <> Rejected not_found.
Proof.
  unfold save_this, save.
  destruct (problemSetSchema_validate _); [destruct (online _)|]; done.
Qed.

(** *** [find] and [filter] over the array *)

Lemma find_instance_Some pred h refs r :
  find_instance pred h refs = Some r ->
  r ∈ refs /\ exists p, h !! r = Some p /\ pred p = true.
Proof.
  unfold find_instance. intros H. apply find_some in H as [Hin Hp].
  split; [by apply list_elem_of_In|].
  destruct (h !! r) as [p|]; [eauto|done].
Qed.

Lemma find_instance_None pred h refs :
  find_instance pred h refs = None <->
  forall p, p ∈ instances_of h refs -> pred p = false.
Proof.
  unfold find_instance, instances_of. split.
  - intros H p Hp. apply list_elem_of_omap in Hp as (r & Hr & Hp).
    apply list_elem_of_In in Hr.
    pose proof (find_none _ _ H r Hr) as Hf. simpl in Hf.
    by rewrite Hp in Hf.
  - intros H. destruct (List.find _ refs) as [r|] eqn:E; [|done].
    apply find_some in E as [Hin Hp].
    destruct (h !! r) as [p|] eqn:Er; [|done].
    rewrite H in Hp; [done|]. apply list_elem_of_omap. exists r.
    split; [by apply list_elem_of_In|done].
Qed.

(** *** The counting methods *)

Lemma addProblem_total instance s : total_matches (addProblem instance s).1.
Proof.
  unfold addProblem, total_matches. by rewrite save_this_this.
Qed.

Lemma removeProblem_total problemId s :
  total_matches (removeProblem problemId s).1.
Proof.
  unfold removeProblem, total_matches. by rewrite save_this_this.
Qed.

Lemma removeProblemInstance_total id_ s :
  total_matches (removeProblemInstance id_ s).1.
Proof.
  unfold removeProblemInstance, total_matches. by rewrite save_this_this.
Qed.

Lemma reorderProblems_this newOrder s :
  this (reorderProblems newOrder s).1 =
  set_problemInstances
    (filter_Boolean
       (reorder_map (problemInstances (this s)) newOrder 0 (heap s)).2)
    (this s).
Proof.
  unfold reorderProblems. destruct (reorder_map _ _ _ _) as [h mapped].
  by rewrite save_this_this.
Qed.

Lemma reorderProblems_heap newOrder s :
  heap (reorderProblems newOrder s).1 =
  (reorder_map (problemInstances (this s)) newOrder 0 (heap s)).1.
Proof.
  unfold reorderProblems. destruct (reorder_map _ _ _ _) as [h mapped].
  by rewrite save_this_heap.
Qed.

Lemma reorder_two_problems :
  problemInstances (this (reorderProblems [1] two_problems).1) = [0%nat].
Proof. by vm_compute. Qed.

(** C9: [addProblem], [removeProblem] and [removeProblemInstance] each leave
    [totalProblems] equal to the length of [problemInstances];
    [reorderProblems] never writes [totalProblems], and it can shorten
    [problemInstances], so it can leave the two different. *)
Theorem total_problems_invariant :
  (forall instance s, total_matches (addProblem instance s).1) /\
  (forall problemId s, total_matches (removeProblem problemId s).1) /\
  (forall id_ s, total_matches (removeProblemInstance id_ s).1) /\
  (forall newOrder s,
      totalProblems (this (reorderProblems newOrder s).1) =
      totalProblems (this s)) /\
  (exists newOrder s,
      total_matches s /\
      (length (problemInstances (this (reorderProblems newOrder s).1)) <
       length (problemInstances (this s)))%nat /\
      ~ total_matches (reorderProblems newOrder s).1).
Proof.
  split; [apply addProblem_total|]. split; [apply removeProblem_total|].
  split; [apply removeProblemInstance_total|]. split.
  - intros newOrder s. by rewrite reorderProblems_this.
  - exists [1], two_problems. split; [reflexivity|].
    unfold total_matches. rewrite reorder_two_problems.
    split; [simpl; lia|]. rewrite reorderProblems_this. done.
Qed.

(** *** [updateProblemInstance] *)

Lemma find_by_id_None id_ s :
  find_instance (has_id id_) (heap s) (problemInstances (this s)) = None <->
  no_instance_with_id id_ s.
Proof.
  rewrite find_instance_None. unfold no_instance_with_id, instances, has_id.
  split; intros H p Hp; specialize (H p Hp).
  - by apply bool_decide_eq_false in H.
  - by apply bool_decide_eq_false.
Qed.

(** [Object.assign] on the sub-document applies the updates. *)
Lemma Object_assign_applied p updates now :
  Instance.updates_applied updates now p
    (Instance.Object_assign p updates now).
Proof.
  unfold Instance.updates_applied, Instance.Object_assign,
    Instance.written, Instance.assign_key, Instance.trim_setter.
  destruct updates as [k1 k2 k3 k4 k5 k6 k7 k8 k9 k10 k11 k12 k13 k14 k15
                         k16 k17 k18 k19].
  cbn. repeat split;
    repeat match goal with
           | |- context [match ?k with _ => _ end] =>
               is_var k; destruct k; cbn
           | |- context [fmap _ ?k] => is_var k; destruct k; cbn
           end; done.
Qed.

(** C5: [updateProblemInstance] rejects with 'Problem instance not found'
    exactly when no element of [problemInstances] has the given [_id], and
    then nothing changes: neither the document in memory nor the store.
    Otherwise the updates are applied to the first instance with that
    [_id]: every key of [updates] is written to its path, a title or
    description trimmed by the setter of its path, the paths without a key
    keep their values, and [lastModified] is [now]; no other object and no
    field of the document changes, and [save] is run on the document as it
    then stands: when it resolves, the store holds that document. *)
Theorem updateProblemInstance_spec (id_ : string)
    (updates : Instance.Partial) (now : Z) (s : State) :
  let result := updateProblemInstance id_ updates now s in
  ((result.2 = Rejected not_found <-> no_instance_with_id id_ s) /\
   (no_instance_with_id id_ s -> result.1 = s)) /\
  (~ no_instance_with_id id_ s ->
   exists r p p',
     find_instance (has_id id_) (heap s) (problemInstances (this s))
       = Some r /\
     heap s !! r = Some p /\ Instance._id p = Some id_ /\
     heap result.1 !! r = Some p' /\
     Instance.updates_applied updates now p p' /\
     (forall r', r' <> r -> heap result.1 !! r' = heap s !! r') /\
     this result.1 = this s /\
     result = save_this (mkState (heap result.1) (this s) (db s)) /\
     (result.2 = Resolved ->
      saved (db result.1) =
      mkStored (this s) (instances result.1) :: saved (db s))).
Proof.
  intros result. subst result. unfold updateProblemInstance.
  destruct (find_instance _ _ _) as [r|] eqn:E.
  - assert (~ no_instance_with_id id_ s) as Hsome.
    { intros Hno. apply find_by_id_None in Hno. congruence. }
    split.
    + split; [|done]. split; [|done].
      intros H. by apply save_this_not_not_found in H.
    + intros _. apply find_instance_Some in E as (_ & p & Hp & Hid).
      apply bool_decide_eq_true in Hid.
      exists r, p, (Instance.Object_assign p updates now).
      rewrite save_this_heap, save_this_this. simpl.
      split; [done|]. split; [done|]. split; [done|].
      split; [by rewrite lookup_alter_eq, Hp|].
      split; [apply Object_assign_applied|].
      split; [intros r' Hne; by rewrite lookup_alter_ne|].
      split; [done|]. split; [done|].
      intros Hres. rewrite save_this_instances.
      by rewrite (save_this_resolved _ Hres).
  - apply find_by_id_None in E. simpl. split; [done|]. by intros [].
Qed.

Lemma updateProblemInstance_spec_witness :
  let result := updateProblemInstance "a2" retitle 1700 two_problems in
  (no_instance_with_id "zz" two_problems /\
   updateProblemInstance "zz" retitle 1700 two_problems
     = (two_problems, Rejected not_found)) /\
  ~ no_instance_with_id "a2" two_problems /\
  instances result.1 = [Instance.make (Some "a1") 1 1; retitled] /\
  Instance.updates_applied retitle 1700 (Instance.make (Some "a2") 2 2)
    retitled /\
  result.2 = Resolved /\
  length (saved (db result.1)) = 1%nat.
Proof.
  intros result.
  assert (no_instance_with_id "zz" two_problems) as Hzz.
  { apply find_by_id_None. by vm_compute. }
  assert (~ no_instance_with_id "a2" two_problems) as Ha2.
  { intros H. apply find_by_id_None in H. by vm_compute in H. }
  pose proof (updateProblemInstance_spec "zz" retitle 1700 two_problems)
    as [[Hiff Hsame] _].
  pose proof (updateProblemInstance_spec "a2" retitle 1700 two_problems)
    as [_ Hupd].
  destruct (Hupd Ha2) as (r & p & p' & Hr & Hp & _ & Hp' & Happlied & _).
  assert (r = 1%nat) as -> by (vm_compute in Hr; congruence).
  assert (p = Instance.make (Some "a2") 2 2) as ->
    by (vm_compute in Hp; by injection Hp as <-).
  assert (p' = retitled) as -> by (vm_compute in Hp'; by injection Hp' as <-).
  split; [split; [exact Hzz|] |].
  - specialize (Hsame Hzz). apply Hiff in Hzz. simpl in *.
    destruct (updateProblemInstance "zz" retitle 1700 two_problems).
    simpl in *. by subst.
  - split; [exact Ha2|]. split; [by vm_compute|].
    split; [exact Happlied|]. by vm_compute.
Defined.

(** *** [reorderProblems] *)

Lemma same_problemIds_refl h : same_problemIds h h.
Proof. done. Qed.

Lemma same_problemIds_set_order h h' v r :
  same_problemIds h h' ->
  same_problemIds h (alter (Instance.set_order v) r h').
Proof.
  intros H r'. rewrite <- H. destruct (decide (r = r')) as [->|Hne].
  - rewrite lookup_alter_eq. by destruct (h' !! r').
  - by rewrite lookup_alter_ne.
Qed.

Lemma find_same_problemIds h h' problemId refs :
  same_problemIds h h' ->
  find_instance (has_problemId problemId) h' refs =
  find_instance (has_problemId problemId) h refs.
Proof.
  intros H. unfold find_instance. induction refs as [|r refs IH]; [done|].
  simpl. rewrite IH. specialize (H r). unfold has_problemId.
  destruct (h !! r) as [p|], (h' !! r) as [p'|]; simplify_eq/=; try done.
  by rewrite H.
Qed.

Lemma chosen_problemId s problemId r :
  chosen s problemId = Some r ->
  exists p, heap s !! r = Some p /\ Instance.problemId p = Some problemId.
Proof.
  intros H. apply find_instance_Some in H as (_ & p & Hp & Hid).
  apply bool_decide_eq_true in Hid. eauto.
Qed.

Lemma chosen_inj s problemId problemId' r :
  chosen s problemId = Some r -> chosen s problemId' = Some r ->
  problemId = problemId'.
Proof.
  intros (p & Hp & Hid)%chosen_problemId (p' & Hp' & Hid')%chosen_problemId.
  congruence.
Qed.

Lemma set_order_set_order v w p :
  Instance.set_order v (Instance.set_order w p) = Instance.set_order v p.
Proof. done. Qed.

Section ReorderMap.
Context (s : State).

(** The callback returns, for each id, the instance chosen in [s]. *)
Lemma reorder_map_mapped newOrder index h :
  same_problemIds (heap s) h ->
  (reorder_map (problemInstances (this s)) newOrder index h).2
    = chosen s <$> newOrder /\
  same_problemIds (heap s)
    (reorder_map (problemInstances (this s)) newOrder index h).1.
Proof.
  revert index h. induction newOrder as [|pid rest IH]; intros index h Hh.
  { done. }
  simpl. rewrite (find_same_problemIds _ _ _ _ Hh). fold (chosen s pid).
  destruct (chosen s pid) as [r|] eqn:E.
  - pose proof (same_problemIds_set_order _ _ (Some (index + 1)) r Hh) as H1.
    destruct (IH (index + 1) _ H1) as [IH1 IH2].
    destruct (reorder_map _ _ _ _) as [h2 out]. simpl in *.
    by rewrite IH1.
  - destruct (IH (index + 1) _ Hh) as [IH1 IH2].
    destruct (reorder_map _ _ _ _) as [h2 out]. simpl in *.
    by rewrite IH1.
Qed.

(** An object no id of the list selects is not written. *)
Lemma reorder_map_untouched newOrder index h r :
  same_problemIds (heap s) h ->
  (forall pid, pid ∈ newOrder -> chosen s pid <> Some r) ->
  (reorder_map (problemInstances (this s)) newOrder index h).1 !! r = h !! r.
Proof.
  revert index h. induction newOrder as [|pid rest IH]; intros index h Hh Hr.
  { done. }
  simpl. rewrite (find_same_problemIds _ _ _ _ Hh). fold (chosen s pid).
  assert (forall pid', pid' ∈ rest -> chosen s pid' <> Some r) as Hrest.
  { intros pid' Hin. apply Hr. by right. }
  destruct (chosen s pid) as [r'|] eqn:E.
  - pose proof (same_problemIds_set_order _ _ (Some (index + 1)) r' Hh) as H1.
    specialize (IH (index + 1) _ H1 Hrest).
    destruct (reorder_map _ _ _ _) as [h2 out]. simpl in *.
    rewrite IH. apply lookup_alter_ne. intros ->.
    apply (Hr pid); [by left|done].
  - specialize (IH (index + 1) _ Hh Hrest).
    by destruct (reorder_map _ _ _ _) as [h2 out].
Qed.

(** The object an id selects ends with the position of the id's last
    occurrence. *)
Lemma reorder_map_last newOrder index h i pid r :
  same_problemIds (heap s) h ->
  newOrder !! i = Some pid -> chosen s pid = Some r ->
  (forall j, (i < j)%nat -> newOrder !! j <> Some pid) ->
  (reorder_map (problemInstances (this s)) newOrder index h).1 !! r =
  Instance.set_order (Some (index + Z.of_nat i + 1)) <$> h !! r.
Proof.
  revert index h i.
  induction newOrder as [|pid0 rest IH]; intros index h i Hh Hi Hc Hlast.
  { done. }
  simpl. rewrite (find_same_problemIds _ _ _ _ Hh). fold (chosen s pid0).
  destruct i as [|i].
  - injection Hi as ->. rewrite Hc.
    pose proof (same_problemIds_set_order _ _ (Some (index + 1)) r Hh) as H1.
    assert (forall pid', pid' ∈ rest -> chosen s pid' <> Some r) as Hrest.
    { intros pid' [j Hj]%list_elem_of_lookup Hc'.
      apply (Hlast (S j)); [lia|]. simpl.
      by rewrite (chosen_inj _ _ _ _ Hc Hc'). }
    pose proof (reorder_map_untouched rest (index + 1) _ r H1 Hrest) as Hu.
    destruct (reorder_map _ _ _ _) as [h2 out]. simpl in *.
    rewrite Hu, lookup_alter_eq. do 3 f_equal. lia.
  - simpl in Hi.
    assert (forall j, (i < j)%nat -> rest !! j <> Some pid) as Hlast'.
    { intros j Hj. apply (Hlast (S j)). lia. }
    destruct (chosen s pid0) as [r0|] eqn:E.
    + pose proof (same_problemIds_set_order _ _ (Some (index + 1)) r0 Hh)
        as H1.
      specialize (IH (index + 1) _ i H1 Hi Hc Hlast').
      destruct (reorder_map _ _ _ _) as [h2 out]. simpl in *.
      rewrite IH. destruct (decide (r0 = r)) as [->|Hne].
      * rewrite lookup_alter_eq. destruct (h !! r); simpl; [|done].
        rewrite set_order_set_order. do 3 f_equal. lia.
      * rewrite lookup_alter_ne by done. do 3 f_equal. lia.
    + specialize (IH (index + 1) _ i Hh Hi Hc Hlast').
      destruct (reorder_map _ _ _ _) as [h2 out]. simpl in *.
      rewrite IH. do 3 f_equal. lia.
Qed.

End ReorderMap.

(** *** Agreement with the specification's reading *)

Lemma omap_concat_imap {A B : Type} (f : A -> option B)
    (g : nat -> A -> list B) (l : list A) :
  (forall i x, l !! i = Some x -> option_list (f x) = g i x) ->
  omap f l = concat (imap g l).
Proof.
  revert g. induction l as [|x l IH]; intros g Hg; [done|].
  rewrite imap_cons. cbn [concat].
  rewrite <- (IH (g ∘ S)), <- (Hg 0%nat x eq_refl).
  - cbn. by destruct (f x).
  - intros i y Hi. by apply (Hg (S i)).
Qed.

Lemma omap_after_fmap {A B C : Type} (f : B -> option C) (g : A -> B)
    (l : list A) :
  omap f (g <$> l) = omap (f ∘ g) l.
Proof. induction l as [|x l IH]; cbn; [done|]. by rewrite IH. Qed.

Lemma instances_of_chosen (h : gmap nat Instance.t)
    (mapped : list (option nat)) :
  instances_of h (filter_Boolean mapped)
    = omap (fun o => o ≫= (h !!.)) mapped.
Proof.
  unfold instances_of, filter_Boolean.
  induction mapped as [|[r|] mapped IH]; cbn; [done| |done].
  rewrite <- IH. by destruct (h !! r).
Qed.

Lemma filter_problemId_none (l : list Instance.t) pid :
  (forall q, q ∈ l -> Instance.problemId q <> Some pid) ->
  List.filter (has_problemId pid) l = [].
Proof.
  induction l as [|q l IH]; intros H; [done|]. simpl.
  unfold has_problemId at 1. rewrite bool_decide_eq_false_2.
  - apply IH. intros q' Hq'. apply H. by right.
  - apply H. by left.
Qed.

Lemma filter_problemId_unique (l : list Instance.t) pid p :
  NoDup (Instance.problemId <$> l) -> p ∈ l ->
  Instance.problemId p = Some pid ->
  List.filter (has_problemId pid) l = [p].
Proof.
  induction l as [|q l IH]; intros Hnd Hin Hp.
  { by apply elem_of_nil in Hin. }
  rewrite fmap_cons in Hnd. apply NoDup_cons in Hnd as [Hq Hnd]. simpl.
  apply elem_of_cons in Hin as [->|Hin].
  - unfold has_problemId at 1. rewrite bool_decide_eq_true_2 by done.
    f_equal. apply filter_problemId_none. intros q' Hq' Heq.
    apply Hq. rewrite Hp, <- Heq. by apply list_elem_of_fmap_2.
  - unfold has_problemId at 1. rewrite bool_decide_eq_false_2; [by apply IH|].
    intros Heq. apply Hq. rewrite Heq, <- Hp. by apply list_elem_of_fmap_2.
Qed.

Lemma reorder_agrees newOrder s :
  NoDup (Instance.problemId <$> instances s) -> NoDup newOrder ->
  reorder_as_specified newOrder s.
Proof.
  intros Hids Hnd. unfold reorder_as_specified, reorder_by_index.
  unfold instances at 1. rewrite reorderProblems_this, reorderProblems_heap.
  simpl. rewrite instances_of_chosen.
  rewrite (proj1 (reorder_map_mapped s newOrder 0 (heap s)
                    (same_problemIds_refl _))).
  rewrite omap_after_fmap. apply omap_concat_imap. intros i pid Hi. simpl.
  destruct (chosen s pid) as [r|] eqn:E; simpl.
  - destruct (chosen_problemId _ _ _ E) as (p & Hp & Hpid).
    rewrite (reorder_map_last s newOrder 0 (heap s) i pid r); try done.
    + rewrite Hp. simpl. rewrite (filter_problemId_unique _ pid p); try done.
      apply list_elem_of_omap. exists r. split; [|done].
      by apply find_instance_Some in E as [? _].
    + intros j Hj Hj'. pose proof (NoDup_lookup _ _ _ _ Hnd Hi Hj'). lia.
  - rewrite filter_problemId_none; [done|]. intros q Hq Heq.
    apply find_instance_None with (p := q) in E; [|done].
    unfold has_problemId in E. by apply bool_decide_eq_false in E.
Qed.

Example reorder_twins :
  instances (reorderProblems [7] twins).1 = [Instance.make (Some "b1") 7 1] /\
  reorder_by_index (instances twins) [7] =
    [Instance.make (Some "b1") 7 1; Instance.make (Some "b2") 7 1].
Proof. by vm_compute. Qed.

Example reorder_repeated_id :
  instances (reorderProblems [1; 1] two_problems).1 =
    [Instance.make (Some "a1") 1 2; Instance.make (Some "a1") 1 2] /\
  reorder_by_index (instances two_problems) [1; 1] =
    [Instance.make (Some "a1") 1 1; Instance.make (Some "a1") 1 2].
Proof. by vm_compute. Qed.

(** C2, as stated, fails: with two instances of problem 7 and
    [newOrder = [7]] only the first instance is kept, and with
    [newOrder = [1; 1]] the one instance of problem 1 is listed twice with
    [order = 2] at both places. *)
Lemma reorder_not_as_specified :
  ~ reorder_as_specified [7] twins /\
  ~ reorder_as_specified [1; 1] two_problems.
Proof.
  unfold reorder_as_specified. split; intros H.
  - rewrite (proj1 reorder_twins), (proj2 reorder_twins) in H. done.
  - rewrite (proj1 reorder_repeated_id), (proj2 reorder_repeated_id) in H.
    done.
Qed.

(** C2, amended: [reorderProblems] replaces [problemInstances] with one
    entry for each id of [newOrder] that has a matching instance, in the
    order of [newOrder]: the first instance with that [problemId] (ids with
    no match are skipped).  The [order] of a kept instance becomes the
    1-based position of the last occurrence of its id in [newOrder]; no
    other object is written.  When the instances have different problem
    ids and [newOrder] repeats no id, this is the reordering by index the
    specification describes. *)
Theorem reorderProblems_result (newOrder : list Z) (s : State) :
  let s' := (reorderProblems newOrder s).1 in
  problemInstances (this s') = omap (chosen s) newOrder /\
  (forall i problemId r,
      newOrder !! i = Some problemId -> chosen s problemId = Some r ->
      (forall j, (i < j)%nat -> newOrder !! j <> Some problemId) ->
      heap s' !! r =
      Instance.set_order (Some (Z.of_nat i + 1)) <$> heap s !! r) /\
  (forall r, (forall problemId, problemId ∈ newOrder ->
                                chosen s problemId <> Some r) ->
             heap s' !! r = heap s !! r) /\
  (NoDup (Instance.problemId <$> instances s) -> NoDup newOrder ->
   reorder_as_specified newOrder s).
Proof.
  intros s'. subst s'.
  rewrite reorderProblems_this, reorderProblems_heap. simpl.
  split; [|split; [|split]].
  - rewrite (proj1 (reorder_map_mapped s newOrder 0 (heap s)
                      (same_problemIds_refl _))).
    unfold filter_Boolean. rewrite omap_after_fmap. done.
  - intros i problemId r Hi Hc Hlast.
    by rewrite (reorder_map_last s newOrder 0 (heap s) i problemId r).
  - intros r Hr. by apply reorder_map_untouched.
  - apply reorder_agrees.
Qed.

Lemma reorderProblems_result_witness :
  NoDup (Instance.problemId <$> instances two_problems) /\
  NoDup [2; 5; 1] /\
  instances (reorderProblems [2; 5; 1] two_problems).1 =
    [Instance.make (Some "a2") 2 1; Instance.make (Some "a1") 1 3].
Proof.
  assert (NoDup (Instance.problemId <$> instances two_problems)) as H1.
  { by apply (bool_decide_unpack _). }
  assert (NoDup [2; 5; 1]) as H2.
  { by apply (bool_decide_unpack _). }
  split; [exact H1|]. split; [exact H2|].
  destruct (reorderProblems_result [2; 5; 1] two_problems)
    as (_ & _ & _ & Hspec).
  rewrite (Hspec H1 H2). by vm_compute.
Defined.

End ProblemSetFacts.

Module SchemaFacts.
Import Mongoose MongooseFacts Schemas.

Lemma elem_of_concat {A : Type} (x : A) (ls : list (list A)) :
  x ∈ concat ls <-> exists l, x ∈ l /\ l ∈ ls.
Proof.
  rewrite list_elem_of_In, in_concat. split.
  - intros (l & Hl & Hx). exists l. by rewrite !list_elem_of_In.
  - intros (l & Hx & Hl). exists l. by rewrite <- !list_elem_of_In.
Qed.

Lemma enum_validator_outside path values msg d :
  d ∉ values ->
  enum_error path (enum_validator path values msg (Some d)).
Proof.
  intros Hd. unfold enum_validator.
  destruct (existsb (String.eqb d) values) eqn:E.
  - apply existsb_exists in E as (x & Hx & ->%String.eqb_eq).
    by apply list_elem_of_In in Hx.
  - eexists. split; [by left|done].
Qed.

Lemma course_enum c d :
  CourseModel.difficulty c = Some d -> d ∉ CourseModel.difficulty_values ->
  enum_error "difficulty" (CourseModel.courseSchema_validate c).
Proof.
  intros Hc Hd. unfold CourseModel.courseSchema_validate. rewrite Hc.
  destruct (enum_validator_outside "difficulty" _
              (Some CourseModel.difficulty_message) d Hd) as (e & He & Hpath).
  exists e. split; [|done].
  do 2 (apply elem_of_app; right). apply elem_of_app. by left.
Qed.

Lemma instance_enum at_ p d :
  Instance.difficulty p = Some d -> d ∉ Instance.difficulty_values ->
  enum_error (at_ ++ ".difficulty")
    (Instance.problemInstanceSchema_validate at_ p).
Proof.
  intros Hp Hd. unfold Instance.problemInstanceSchema_validate. rewrite Hp.
  destruct (enum_validator_outside (at_ ++ ".difficulty") _ None d Hd)
    as (e & He & Hpath).
  exists e. split; [|done].
  apply elem_of_app; right. apply elem_of_app. by left.
Qed.

Lemma problem_set_instance_enum st i p d :
  ProblemSetModel.stored_instances st !! i = Some p ->
  Instance.difficulty p = Some d -> d ∉ Instance.difficulty_values ->
  enum_error (ProblemSetModel.instance_path i ++ ".difficulty")
    (ProblemSetModel.problemSetSchema_validate st).
Proof.
  intros Hi Hp Hd.
  destruct (instance_enum (ProblemSetModel.instance_path i) p d Hp Hd)
    as (e & He & Hpath).
  exists e. split; [|done]. unfold ProblemSetModel.problemSetSchema_validate.
  repeat (apply elem_of_app; right). apply elem_of_concat.
  eexists. split; [exact He|]. apply list_elem_of_lookup. exists i.
  by rewrite list_lookup_imap, Hi.
Qed.

(** The only rule on a problem set's own [difficulty] is [required]. *)
Lemma problem_set_difficulty_rule st e :
  e ∈ ProblemSetModel.problemSetSchema_validate st ->
  ve_path e = "difficulty" ->
  ve_kind e = KRequired /\
  Js.truthy_string (ProblemSetModel.difficulty
                      (ProblemSetModel.stored_doc st)) = false.
Proof.
  unfold ProblemSetModel.problemSetSchema_validate, required_string.
  intros He Hpath. repeat (apply elem_of_app in He as [He|He]).
  - destruct (Js.truthy_string _); [by apply elem_of_nil in He|].
    apply list_elem_of_singleton in He as ->. done.
  - destruct (Js.truthy_string _); [by apply elem_of_nil in He|].
    apply list_elem_of_singleton in He as ->. done.
  - destruct (Js.truthy_string _); [by apply elem_of_nil in He|].
    apply list_elem_of_singleton in He as ->. done.
  - destruct (Js.truthy_string _); [by apply elem_of_nil in He|].
    apply list_elem_of_singleton in He as ->. done.
  - exfalso. apply elem_of_concat in He as (errs & He & Herrs).
    apply list_elem_of_lookup in Herrs as (i & Hi).
    rewrite list_lookup_imap in Hi.
    destruct (ProblemSetModel.stored_instances st !! i) as [p|]; [|done].
    injection Hi as <-.
    unfold Instance.problemInstanceSchema_validate, required_number,
      enum_validator in He.
    repeat (apply elem_of_app in He as [He|He]).
    + destruct (Instance.problemId p); [by apply elem_of_nil in He|].
      apply list_elem_of_singleton in He as ->. done.
    + destruct (Instance.difficulty p); [|by apply elem_of_nil in He].
      destruct (existsb _ _); [by apply elem_of_nil in He|].
      apply list_elem_of_singleton in He as ->. done.
    + destruct (Instance.order p); [by apply elem_of_nil in He|].
      apply list_elem_of_singleton in He as ->. done.
Qed.

Lemma enum_error_rejected {D : Type} (validate : D -> list ValidatorError)
    path d db :
  enum_error path (validate d) ->
  save validate d db = (db, Rejected (ValidationError (validate d))).
Proof.
  intros (e & He & _). apply save_invalid. intros Hnil.
  rewrite Hnil in He. by apply elem_of_nil in He.
Qed.

(** C3, as stated, fails for ProblemSet: a problem set with the difficulty
    "banana", a word of neither declared enumeration, passes validation
    and is written by [save]. *)
Lemma problem_set_difficulty_not_enumerated :
  ProblemSetModel.difficulty (ProblemSetModel.stored_doc free_form_set)
    = Some "banana" /\
  ("banana" ∉ CourseModel.difficulty_values) /\
  ("banana" ∉ Instance.difficulty_values) /\
  ProblemSetModel.problemSetSchema_validate free_form_set = [] /\
  save ProblemSetModel.problemSetSchema_validate free_form_set (mkDb true [])
    = (mkDb true [free_form_set], Resolved).
Proof.
  split; [done|]. split; [|split; [|done]].
  - intros H. by apply (bool_decide_pack _) in H.
  - intros H. by apply (bool_decide_pack _) in H.
Qed.

(** C3, amended: [courseSchema] and [problemInstanceSchema] declare an
    [enum] rule on [difficulty], so a course, or a problem set holding an
    instance, whose difficulty is set to a word outside the enumeration of
    its schema fails validation with an [enum] error on that path and is
    not written by [save].  [problemSetSchema] declares no enumeration for
    the set's own [difficulty]: the only rule on that path is [required],
    which every non-empty string passes. *)
Theorem difficulty_rules :
  (forall c d db,
      CourseModel.difficulty c = Some d ->
      d ∉ CourseModel.difficulty_values ->
      enum_error "difficulty" (CourseModel.courseSchema_validate c) /\
      (CourseModel.save_course c db).1 = db /\
      (CourseModel.save_course c db).2 <> Resolved) /\
  (forall st i p d db,
      ProblemSetModel.stored_instances st !! i = Some p ->
      Instance.difficulty p = Some d ->
      d ∉ Instance.difficulty_values ->
      enum_error (ProblemSetModel.instance_path i ++ ".difficulty")
        (ProblemSetModel.problemSetSchema_validate st) /\
      (save ProblemSetModel.problemSetSchema_validate st db).1 = db /\
      (save ProblemSetModel.problemSetSchema_validate st db).2 <> Resolved) /\
  (forall st e,
      e ∈ ProblemSetModel.problemSetSchema_validate st ->
      ve_path e = "difficulty" ->
      ve_kind e = KRequired /\
      Js.truthy_string (ProblemSetModel.difficulty
                          (ProblemSetModel.stored_doc st)) = false).
Proof.
  split; [|split].
  - intros c d db Hc Hd. pose proof (course_enum c d Hc Hd) as He.
    split; [done|]. unfold CourseModel.save_course.
    by rewrite (enum_error_rejected _ _ _ _ He).
  - intros st i p d db Hi Hp Hd.
    pose proof (problem_set_instance_enum st i p d Hi Hp Hd) as He.
    split; [done|]. by rewrite (enum_error_rejected _ _ _ _ He).
  - apply problem_set_difficulty_rule.
Qed.

Lemma difficulty_rules_witness :
  CourseModel.difficulty easy_course = Some "easy" /\
  ("easy" ∉ CourseModel.difficulty_values) /\
  enum_error "difficulty" (CourseModel.courseSchema_validate easy_course) /\
  (CourseModel.save_course easy_course (mkDb true [])).1 = mkDb true [].
Proof.
  assert ("easy" ∉ CourseModel.difficulty_values) as Hout.
  { intros H. by apply (bool_decide_pack _) in H. }
  split; [done|]. split; [exact Hout|].
  destruct difficulty_rules as [Hcourse _].
  destruct (Hcourse easy_course "easy" (mkDb true []) eq_refl Hout)
    as (He & Hdb & _).
  split; [exact He|exact Hdb].
Defined.

End SchemaFacts.

Module RoutesFacts.
Import Routes.

Lemma says_not_found_dec e :
  (if match message e with
      | Some m => Js.truthy_string (Some m) && Js.includes "not found" m
      | None => false
      end
   then says_not_found e else ~ says_not_found e).
Proof.
  unfold says_not_found. destruct (message e) as [m|].
  - destruct (Js.includes "not found" m) eqn:E.
    + destruct m as [|c m]; [done|]. simpl. eauto.
    + rewrite andb_false_r. intros (m' & [= <-] & H). congruence.
  - intros (m' & [=] & _).
Qed.

(** C8: POST /api/courses/:id/reset-progress answers 401 when the request
    carries no user id; for an authenticated user it answers 403 when
    [canUserAccessCourse] returns false, [{ success: true }] (status 200)
    when the reset completes, and 500 when either storage call throws. *)
Theorem reset_progress_statuses (storage : Storage) (params_id : string)
    (user : option AuthUser) :
  let res := reset_progress storage params_id user in
  let courseId := Js.parseInt params_id in
  let isAdmin := bool_decide (user ≫= role = Some "admin") in
  (Js.truthy_string (user ≫= user_id) = false ->
   res = mkResponse 401 (Message "Unauthorized")) /\
  (forall uid,
      user ≫= user_id = Some uid -> uid <> "" ->
      let access := canUserAccessCourse storage courseId uid isAdmin in
      let reset := resetUserCourseProgress storage uid courseId in
      (access = Returns false -> status res = 403) /\
      (access = Returns true -> (exists u, reset = Returns u) ->
       res = mkResponse 200 (Success true)) /\
      ((exists e, access = Throws e) \/
       (access = Returns true /\ exists e, reset = Throws e) ->
       status res = 500)).
Proof.
  cbv zeta. unfold reset_progress. split.
  - intros H. destruct (user ≫= user_id) as [uid|]; [|done]. by rewrite H.
  - intros uid Huid Hne. rewrite Huid.
    assert (Js.truthy_string (Some uid) = true) as ->.
    { simpl. apply negb_true_iff, String.eqb_neq. done. }
    cbn [negb].
    destruct (canUserAccessCourse storage _ uid _) as [[|]|e1].
    + destruct (resetUserCourseProgress storage uid _) as [u|e2].
      * split; [done|]. split; [done|].
        intros [[e [=]]|[_ [e [=]]]].
      * split; [done|]. split; [|done]. by intros _ [u [=]].
    + split; [done|]. split; [done|].
      intros [[e [=]]|[[=] _]].
    + split; [done|]. split; [done|]. done.
Qed.

Lemma reset_progress_statuses_witness :
  reset_progress sample_storage "12" None
    = mkResponse 401 (Message "Unauthorized") /\
  status (reset_progress sample_storage "13" (Some student)) = 403 /\
  reset_progress sample_storage "12" (Some student)
    = mkResponse 200 (Success true).
Proof.
  assert ("u1" <> "") as Hne by done.
  split; [|split].
  - by apply (reset_progress_statuses sample_storage "12" None).
  - destruct (reset_progress_statuses sample_storage "13" (Some student))
      as [_ H].
    destruct (H "u1" eq_refl Hne) as (H403 & _). by apply H403.
  - destruct (reset_progress_statuses sample_storage "12" (Some student))
      as [_ H].
    destruct (H "u1" eq_refl Hne) as (_ & H200 & _).
    apply H200; [done|]. by exists tt.
Defined.

Example parseInt_values :
  Js.parseInt "42" = Some 42 /\ Js.parseInt " -7" = Some (-7) /\
  Js.parseInt "0x1f" = Some 31 /\ Js.parseInt "12abc" = Some 12 /\
  Js.parseInt "abc" = None /\ Js.parseInt "" = None.
Proof. done. Qed.

(** [parseInt] reads a number from every numeric string. *)
Lemma digit_read (c : ascii) :
  is_decimal_digit c = true ->
  Js.is_white_space c = false /\ c <> "-"%char /\ c <> "+"%char /\
  c <> "x"%char /\ c <> "X"%char /\
  exists d, Js.digit_value c = Some d /\ (d <? 10)%Z = true.
Proof.
  destruct c as [[] [] [] [] [] [] [] []]; try discriminate; intros _;
    (repeat split; [done..|]); eexists; (split; [reflexivity|done]).
Qed.

Lemma read_digits_Some radix s acc :
  is_Some acc -> is_Some (Js.read_digits radix s acc).
Proof.
  revert acc. induction s as [|c s IH]; intros acc Hacc; [done|]. simpl.
  destruct (Js.digit_value c) as [d|]; [|done].
  destruct (d <? radix)%Z; [|done]. by apply IH.
Qed.

Lemma parseInt_numeric s : numeric s = true -> is_Some (Js.parseInt s).
Proof.
  unfold numeric. destruct s as [|c s]; [done|]. simpl.
  intros [Hc Hs]%andb_true_iff.
  destruct (digit_read c Hc) as (Hw & Hm & Hp & Hx & HX & d & Hd & Hlt).
  unfold Js.parseInt. simpl. rewrite Hw.
  assert (exists sign, (let '(sign0, s0) :=
      match c with
      | "-"%char => (-1, s)
      | "+"%char => (1, s)
      | _ => (1, String c s)
      end in
      let '(radix, s1) :=
        match s0 with
        | String "0" (String "x" r) => (16, r)
        | String "0" (String "X" r) => (16, r)
        | _ => (10, s0)
        end in Z.mul sign0 <$> Js.read_digits radix s1 None)
      = Z.mul sign <$> Js.read_digits 10 (String c s) None) as [sign ->].
  { exists 1.
    destruct c as [[] [] [] [] [] [] [] []]; try done;
      destruct s as [|c' s']; try done.
    simpl in Hs. apply andb_true_iff in Hs as [Hc' _].
    destruct (digit_read c' Hc') as (_ & _ & _ & Hx' & HX' & _).
    destruct c' as [[] [] [] [] [] [] [] []]; done. }
  simpl. rewrite Hd, Hlt. apply fmap_is_Some, read_digits_Some. done.
Qed.

(** C6, as stated, fails: "5abc" is not numeric, yet both handlers read
    the id 5 from it and answer 200. *)
Lemma non_numeric_id_accepted :
  numeric "5abc" = false /\
  delete_enrollment sample_storage "5abc"
    = mkResponse 200 (Message "Enrollment deleted") /\
  patch_enrollment
    (fun (n : Z) (u : @Update string) =>
       if Z.eqb n 5 then Returns (Some (n, from_body u)) else Returns None)
    "5abc" "{}" 0
    = mkResponse 200 (Payload (5, "{}")).
Proof. done. Qed.

(** C6, amended: DELETE and PATCH on
    /api/problem-set-enrollments/:enrollmentId answer 400 exactly for an
    id from which [parseInt] reads no number, which is never a numeric id.
    For an id [parseInt] reads a number from, DELETE answers 200 when the
    storage call returns, 404 when it throws an error whose message
    contains 'not found' and 500 for any other error; PATCH answers 200
    with the updated document, 404 when no document was found and 500
    when the update throws. *)
Theorem enrollment_handlers_statuses {E B : Type} (storage : Storage)
    (findOneAndUpdate : Z -> @Update B -> Call (option E))
    (params_enrollmentId : string) (req_body : B) (now : Z) :
  let deleted := delete_enrollment storage params_enrollmentId in
  let patched :=
    patch_enrollment findOneAndUpdate params_enrollmentId req_body now in
  (Js.parseInt params_enrollmentId = None ->
   deleted = mkResponse 400 (Message "Invalid enrollment id") /\
   patched = mkResponse 400 (Message "Invalid enrollment id") /\
   numeric params_enrollmentId = false) /\
  (forall enrollmentId,
      Js.parseInt params_enrollmentId = Some enrollmentId ->
      let deletion := deleteProblemSetEnrollment storage enrollmentId in
      let update := findOneAndUpdate enrollmentId (mkUpdate req_body now) in
      ((exists u, deletion = Returns u) ->
       deleted = mkResponse 200 (Message "Enrollment deleted")) /\
      (forall e, deletion = Throws e -> says_not_found e ->
                 deleted = mkResponse 404 (Message "Enrollment not found")) /\
      (forall e, deletion = Throws e -> ~ says_not_found e ->
                 status deleted = 500) /\
      (forall updated, update = Returns (Some updated) ->
                       patched = mkResponse 200 (Payload updated)) /\
      (update = Returns None ->
       patched = mkResponse 404 (Message "Enrollment not found")) /\
      (forall e, update = Throws e -> status patched = 500)).
Proof.
  cbv zeta. unfold delete_enrollment, patch_enrollment. split.
  - intros Hnan. rewrite Hnan. split; [done|]. split; [done|].
    destruct (numeric params_enrollmentId) eqn:Hnum; [|done].
    apply parseInt_numeric in Hnum as [n Hn]. congruence.
  - intros enrollmentId ->. repeat split.
    + by intros [u ->].
    + intros e -> He. pose proof (says_not_found_dec e) as Hdec.
      by destruct (match message e with Some _ => _ | None => _ end).
    + intros e -> He. pose proof (says_not_found_dec e) as Hdec.
      by destruct (match message e with Some _ => _ | None => _ end).
    + by intros updated ->.
    + by intros ->.
    + by intros e ->.
Qed.

Lemma enrollment_handlers_statuses_witness :
  (status (delete_enrollment sample_storage "abc") = 400 /\
   status (patch_enrollment sample_update "abc" "{}" 0) = 400) /\
  delete_enrollment sample_storage "5"
    = mkResponse 200 (Message "Enrollment deleted") /\
  status (delete_enrollment sample_storage "7") = 404 /\
  patch_enrollment sample_update "5" "{}" 0
    = mkResponse 200 (Payload (5, "{}")) /\
  status (patch_enrollment sample_update "7" "{}" 0) = 404 /\
  status (patch_enrollment sample_update "6" "{}" 0) = 500.
Proof.
  split.
  - destruct (enrollment_handlers_statuses sample_storage sample_update
                "abc" "{}" 0) as [H _].
    destruct (H eq_refl) as (-> & -> & _). done.
  - destruct (enrollment_handlers_statuses sample_storage sample_update
                "5" "{}" 0) as [_ H5].
    destruct (H5 5 eq_refl) as (Hd & _ & _ & Hp & _).
    destruct (enrollment_handlers_statuses sample_storage sample_update
                "7" "{}" 0) as [_ H7].
    destruct (H7 7 eq_refl) as (_ & Hd404 & _ & _ & Hp404 & _).
    destruct (enrollment_handlers_statuses sample_storage sample_update
                "6" "{}" 0) as [_ H6].
    destruct (H6 6 eq_refl) as (_ & _ & _ & _ & _ & Hp500).
    split; [apply Hd; by exists tt|].
    split.
    { rewrite (Hd404 (mkThrown (Some "Enrollment not found")) eq_refl);
        [done|]. by exists "Enrollment not found". }
    split; [by apply Hp|]. split; [by rewrite Hp404|].
    by apply (Hp500 (mkThrown (Some "timeout"))).
Defined.

End RoutesFacts.

Module EnrollmentFacts.
Import Routes EnrollmentAlias.

Section Handler.
Context (ObjectId_new : string -> option string).

Lemma find_all_perm st all :
  find_all st = Returns all -> all ≡ₚ problemsets st.
Proof.
  unfold find_all. destruct (available st); [|done].
  intros [= <-]. apply merge_sort_Permutation.
Qed.

Lemma ps_of_map_one ids (l : list RawProblemSet) :
  ps_of <$> (map_one ids <$> l) = l.
Proof. induction l as [|ps l IH]; [done|]. cbn. by rewrite IH. Qed.

(** Membership in the set [userEnrollments]. *)
Lemma user_enrollments_spec st uid ids x :
  user_enrollments ObjectId_new st uid = Returns ids ->
  x ∈ ids <->
  (exists e, e ∈ enrollments st /\ userId e = uid /\
             String_ (problemSetId e) = x) \/
  (exists q, q ∈ problemsets st /\
             (Str uid ∈ participants q \/
              exists oid, ObjectId_new uid = Some oid /\
                          Oid oid ∈ participants q) /\
             String_ (or_else (id q) (_id q)) = x).
Proof.
  unfold user_enrollments. destruct (ObjectId_new uid) as [oid|]; [|done].
  intros [= <-]. rewrite elem_of_list_to_set, elem_of_app.
  rewrite !list_elem_of_fmap. split.
  - intros [(e & -> & He)|(q & -> & Hq)].
    + left. apply list_elem_of_In, filter_In in He as [He Hu].
      apply String.eqb_eq in Hu. exists e.
      split; [by apply list_elem_of_In|done].
    + right. apply list_elem_of_In, filter_In in Hq as [Hq Hp].
      exists q. split; [by apply list_elem_of_In|]. split; [|done].
      unfold has_participant in Hp.
      apply orb_true_iff in Hp as [Hp|Hp]; apply bool_decide_eq_true in Hp.
      * by left.
      * right. by exists oid.
  - intros [(e & He & Hu & <-)|(q & Hq & Hp & <-)].
    + left. exists e. split; [done|].
      apply list_elem_of_In, filter_In. split; [by apply list_elem_of_In|].
      by apply String.eqb_eq.
    + right. exists q. split; [done|].
      apply list_elem_of_In, filter_In. split; [by apply list_elem_of_In|].
      unfold has_participant. apply orb_true_iff.
      destruct Hp as [Hp|(oid' & [= <-] & Hp)].
      * left. by apply bool_decide_eq_true.
      * right. by apply bool_decide_eq_true.
Qed.

Lemma map_one_enrolled st uid ids ps :
  user_enrollments ObjectId_new st uid = Returns ids ->
  isEnrolled (map_one ids ps) = true <->
  enrolled_by_record st uid ps \/
  enrolled_as_participant ObjectId_new st uid ps.
Proof.
  intros Hids. unfold map_one. simpl.
  rewrite orb_true_iff, !bool_decide_eq_true.
  rewrite !(user_enrollments_spec st uid ids _ Hids).
  unfold enrolled_by_record, enrolled_as_participant, names_set.
  split.
  - intros [[(e & He & Hu & Hx)|(q & Hq & Hp & Hx)]
           |[(e & He & Hu & Hx)|(q & Hq & Hp & Hx)]]; eauto 10.
  - intros [(e & He & Hu & [Hx|Hx])|(q & Hq & Hp & [Hx|Hx])]; eauto 10.
Qed.

(** C1: for an authenticated user, GET /api/problem-sets-with-enrollment
    either fails with status 500, which happens only when the database
    does not answer or [new ObjectId] throws on the user's id, or answers
    200 with one record for each
    stored problem set, and the record's [isEnrolled] flag is true exactly
    when the set's [id] or [_id] is the [problemSetId] of one of the user's
    enrollment records or the identifier of a problem set whose
    participants hold the user's id, as a string or as an ObjectId. *)
Theorem isEnrolled_iff_union (st : Store) (user : option AuthUser)
    (uid : string) :
  user ≫= user_id = Some uid -> uid <> "" ->
  match problem_sets_with_enrollment ObjectId_new st user with
  | mkResponse code (Payload records) =>
      code = 200 /\
      ps_of <$> records ≡ₚ problemsets st /\
      forall record,
        record ∈ records ->
        (isEnrolled record = true <->
         enrolled_by_record st uid (ps_of record) \/
         enrolled_as_participant ObjectId_new st uid (ps_of record))
  | mkResponse code _ =>
      code = 500 /\ (available st = false \/ ObjectId_new uid = None)
  end.
Proof.
  intros Huid Hne. unfold problem_sets_with_enrollment. rewrite Huid.
  assert (Js.truthy_string (Some uid) = true) as ->.
  { simpl. apply negb_true_iff, String.eqb_neq. done. }
  destruct (find_all st) as [all|e0] eqn:Hall.
  2:{ simpl. split; [done|]. left. unfold find_all in Hall.
      by destruct (available st). }
  destruct (user_enrollments ObjectId_new st uid) as [ids|e] eqn:Hids.
  - simpl. split; [done|]. split.
    + rewrite ps_of_map_one. by apply find_all_perm.
    + intros record (ps & -> & Hps)%list_elem_of_fmap.
      by apply map_one_enrolled.
  - simpl. split; [done|]. right. unfold user_enrollments in Hids.
    by destruct (ObjectId_new uid).
Qed.

End Handler.

Lemma isEnrolled_iff_union_witness :
  sample_uid <> "" /\
  exists records,
    problem_sets_with_enrollment sample_ObjectId sample_store sample_user
      = mkResponse 200 (Payload records) /\
    (fun r => (String_ (id (ps_of r)), isEnrolled r)) <$> records
      = [("ps-2", true); ("ps-3", false); ("ps-1", true)] /\
    forall record,
      record ∈ records ->
      (isEnrolled record = true <->
       enrolled_by_record sample_store sample_uid (ps_of record) \/
       enrolled_as_participant sample_ObjectId sample_store sample_uid
         (ps_of record)).
Proof.
  assert (sample_uid <> "") as Hne by done.
  split; [exact Hne|].
  pose proof (isEnrolled_iff_union sample_ObjectId sample_store sample_user
                sample_uid eq_refl Hne) as H.
  destruct (problem_sets_with_enrollment sample_ObjectId sample_store
              sample_user) as [code [m|b|records]] eqn:E.
  - by destruct H as [_ [H|H]].
  - by destruct H as [_ [H|H]].
  - destruct H as (-> & _ & H). exists records.
    split; [done|]. split; [|exact H].
    vm_compute in E. injection E as <-. reflexivity.
Defined.

End EnrollmentFacts.

Module ExpressFacts.
Import Routes Express.

(** With an error pending no registration is called. *)
Lemma dispatch_pending e env req layers :
  dispatch_from (Some e) env req layers = unanswered (Some e).
Proof. induction layers as [|l layers IH]; [done|]. exact IH. Qed.

Lemma dispatch_skip env req (skipped rest : list Layer) :
  (forall l, l ∈ skipped -> answer_of env req l = passes) ->
  dispatch env req (skipped ++ rest) = dispatch env req rest.
Proof.
  unfold dispatch.
  induction skipped as [|l skipped IH]; intros H; [done|]. simpl.
  rewrite (H l) by (by left). apply IH. intros l' Hl'. apply H. by right.
Qed.

(** Layers none of which answers either all pass the request on, or one of
    them raises an error and the request leaves with it. *)
Lemma dispatch_not_answered env req (layers rest : list Layer) :
  (forall l, l ∈ layers -> forall a, answer_of env req l <> answers a) ->
  (forall l, l ∈ layers -> answer_of env req l = passes) \/
  exists l e, l ∈ layers /\ answer_of env req l = fails e /\
              dispatch env req (layers ++ rest) = unanswered (Some e).
Proof.
  unfold dispatch.
  induction layers as [|l layers IH]; intros H.
  { left. intros l Hl. by apply elem_of_nil in Hl. }
  destruct (answer_of env req l) as [a| |e] eqn:El.
  - exfalso. by apply (H l (list_elem_of_here _ _) a).
  - destruct IH as [Hpass|(l' & e & Hl' & He & Hd)].
    + intros l' Hl'. apply H. by right.
    + left. intros l' [->|Hl']%elem_of_cons; [done|by apply Hpass].
    + right. exists l', e. split; [by right|]. split; [done|].
      simpl. by rewrite El.
  - right. exists l, e. split; [by left|]. split; [done|].
    simpl. rewrite El. apply dispatch_pending.
Qed.

(** Every registration before the last is another one than the fallback. *)
Lemma registerRoutes_fallback_last :
  registerRoutes = removelast registerRoutes ++ [use_not_found "/api"] /\
  Forall (fun l => l <> use_not_found "/api") (removelast registerRoutes).
Proof.
  split; [done|]. by apply (bool_decide_unpack _).
Qed.

(** C7: a request to a path under /api that matches no registered route is
    answered by the fallback, registered last, with status 404 and the
    JSON body [{ message: 'Not Found' }], provided no registration raises
    an error on it; when one does (a router or the maintenance routes
    pass an error on, or the text of a parameter of a route whose path
    matches does not decode), the fallback is skipped and the request
    leaves [registerRoutes] unanswered, with that error pending. *)
Theorem unmatched_api_request_not_found (env : Mounted) (req : Request) :
  under_api req = true -> matches_no_route env req ->
  last registerRoutes = Some (use_not_found "/api") /\
  (raises_no_error env req ->
   dispatch env req registerRoutes
     = by_not_found (mkResponse 404 (Message "Not Found"))) /\
  (~ raises_no_error env req ->
   exists l e, l ∈ registerRoutes /\ answer_of env req l = fails e /\
               dispatch env req registerRoutes = unanswered (Some e)).
Proof.
  intros Hapi Hnone. split; [done|].
  destruct registerRoutes_fallback_last as [Hsplit Hbefore].
  assert (forall l, l ∈ removelast registerRoutes ->
                    forall a, answer_of env req l <> answers a) as Hpre.
  { intros l Hl. apply Hnone.
    - rewrite Hsplit. apply elem_of_app. by left.
    - by apply (proj1 (Forall_forall _ _) Hbefore). }
  assert (answer_of env req (use_not_found "/api")
          = answers (by_not_found not_found_handler)) as Hfb.
  { unfold answer_of. fold (under_api req). by rewrite Hapi. }
  destruct (dispatch_not_answered env req _ [use_not_found "/api"] Hpre)
    as [Hpass|(l & e & Hl & He & Hd)].
  - assert (dispatch env req registerRoutes
            = by_not_found not_found_handler) as Hd.
    { rewrite Hsplit, dispatch_skip by done.
      unfold dispatch. cbn [dispatch_from]. by rewrite Hfb. }
    split; [done|]. intros Hraise. exfalso. apply Hraise.
    intros l Hl e He. rewrite Hsplit in Hl.
    apply elem_of_app in Hl as [Hl|Hl%list_elem_of_singleton].
    + by rewrite (Hpass l Hl) in He.
    + subst l. by rewrite Hfb in He.
  - rewrite <- Hsplit in Hd.
    assert (l ∈ registerRoutes) as Hin.
    { rewrite Hsplit. apply elem_of_app. by left. }
    split.
    + intros Hnoerr. exfalso. exact (Hnoerr l Hin e He).
    + intros _. by exists l, e.
Qed.

(** The layers of [registerRoutes] on a request, with idle routers. *)
Lemma idle_all_pass req :
  Forall (fun l => l <> use_not_found "/api" ->
                   answer_of idle req l = passes) registerRoutes ->
  matches_no_route idle req /\
  (under_api req = true -> raises_no_error idle req).
Proof.
  intros HF. split.
  - intros l Hl Hne a. by rewrite (proj1 (Forall_forall _ _) HF l Hl Hne).
  - intros Hapi l Hl e.
    destruct (decide (l = use_not_found "/api")) as [->|Hne].
    + unfold answer_of. fold (under_api req). by rewrite Hapi.
    + by rewrite (proj1 (Forall_forall _ _) HF l Hl Hne).
Qed.

Lemma unmatched_api_request_not_found_witness :
  under_api (mkRequest GET "/api/no/such/route") = true /\
  matches_no_route idle (mkRequest DELETE "/API/courses/12/reset-progress") /\
  raises_no_error idle (mkRequest DELETE "/API/courses/12/reset-progress") /\
  dispatch idle (mkRequest GET "/api/no/such/route") registerRoutes
    = by_not_found (mkResponse 404 (Message "Not Found")) /\
  dispatch idle (mkRequest DELETE "/API/courses/12/reset-progress")
    registerRoutes
    = by_not_found (mkResponse 404 (Message "Not Found")).
Proof.
  destruct (idle_all_pass (mkRequest GET "/api/no/such/route"))
    as [H1 E1].
  { unfold registerRoutes. repeat constructor; done. }
  destruct (idle_all_pass
              (mkRequest DELETE "/API/courses/12/reset-progress"))
    as [H2 E2].
  { unfold registerRoutes. repeat constructor; done. }
  split; [done|]. split; [exact H2|]. split; [by apply E2|]. split.
  - apply (unmatched_api_request_not_found idle
             (mkRequest GET "/api/no/such/route") eq_refl H1).
    by apply E1.
  - apply (unmatched_api_request_not_found idle
             (mkRequest DELETE "/API/courses/12/reset-progress")
             eq_refl H2).
    by apply E2.
Defined.

(** A GET for the path of the enrollment routes with a malformed escape
    in place of the id is under /api and matches no route, yet the
    fallback does not answer it: the parameter is decoded when the path of
    the DELETE route matches, before the method is looked at, and the
    [URIError] skips the fallback. *)
Lemma malformed_escape_skips_fallback :
  under_api malformed_request = true /\
  matches_no_route idle malformed_request /\
  dispatch idle malformed_request registerRoutes
    = unanswered (Some (decode_failed "%zz")) /\
  dispatch idle malformed_request registerRoutes
    <> by_not_found (mkResponse 404 (Message "Not Found")).
Proof.
  split; [done|]. split; [|split; [reflexivity|done]].
  intros l Hl Hne a.
  assert (Forall (fun l => answer_of idle malformed_request l = passes \/
                           exists e, answer_of idle malformed_request l
                                     = fails e \/
                           l = use_not_found "/api") registerRoutes) as HF.
  { unfold registerRoutes.
    repeat (constructor;
            [first [by left | right; eexists; by left
                   | right; exists maintenance_error; by right]|]).
    constructor. }
  destruct (proj1 (Forall_forall _ _) HF l Hl) as [-> | [e [-> | ->]]];
    done.
Qed.

End ExpressFacts.

(* ===================================================================== *)
(** * Further properties of the models and routes                        *)
(* ===================================================================== *)

Module CourseLaws.
Import Mongoose MongooseFacts CourseModel NumberFacts CourseFacts.

Lemma save_rejected_unchanged {D : Type} (validate : D -> list ValidatorError)
    d db :
  (save validate d db).2 <> Resolved -> (save validate d db).1 = db.
Proof.
  unfold save. destruct (validate d); [|done].
  by destruct (online db).
Qed.

Lemma call_doc m c db :
  (call m c db).1.1 =
  set_enrollmentCount
    (Some match m with
          | Increment =>
              Number.plus (Js.or_zero (enrollmentCount c)) Number.one
          | Decrement =>
              Js.Math_max Number.zero
                (Number.minus (Js.or_zero (enrollmentCount c)) Number.one)
          end) c.
Proof.
  destruct m; [apply doc_after_increment|apply doc_after_decrement].
Qed.

Lemma call_save m c db :
  ((call m c db).1.2, (call m c db).2) = save_course (call m c db).1.1 db.
Proof.
  destruct m; unfold call, incrementEnrollment, decrementEnrollment;
    destruct (save_course (set_enrollmentCount _ c) db) as [db' o] eqn:Hs;
    cbn [fst snd]; by rewrite Hs.
Qed.

Lemma holds_count_is c n : holds_count c n -> count_is c n.
Proof. by left. Qed.

(** X1: undoing an enrollment restores the count: on a course that counts
    an integer [n] with [0 <= n] and [n + 1 < 2^53] (a missing value
    counting as 0), [incrementEnrollment] then [decrementEnrollment]
    leaves [n].  The other way round restores a count of at least 1, but
    turns a count of 0 into 1. *)
Theorem increment_decrement_round_trip (c : Course) (db db' : Db Course)
    (n : Z) :
  (0 <= n)%Z -> (n + 1 < 2 ^ 53)%Z -> count_is c n ->
  let up_down :=
    doc_after (decrementEnrollment (doc_after (incrementEnrollment c db)) db')
  in
  let down_up :=
    doc_after (incrementEnrollment (doc_after (decrementEnrollment c db)) db')
  in
  holds_count up_down n /\
  ((1 <= n)%Z -> holds_count down_up n) /\
  (n = 0 -> holds_count down_up 1).
Proof.
  intros Hn0 Hn1 Hc. cbv zeta.
  assert (safe_integer n) as Hs by (unfold safe_integer; lia).
  destruct (count_after c db n Hs Hc) as [Hi Hd].
  assert (safe_integer (n + 1)) as Hs1 by (unfold safe_integer; lia).
  assert (safe_integer (Z.max 0 (n - 1))) as Hs2
    by (unfold safe_integer; lia).
  destruct (count_after (doc_after (incrementEnrollment c db)) db' (n + 1)
              Hs1) as [_ Hud].
  { apply holds_count_is, holds_of_Z; [lia|done]. }
  destruct (count_after (doc_after (decrementEnrollment c db)) db'
              (Z.max 0 (n - 1)) Hs2) as [Hdu _].
  { apply holds_count_is, holds_of_Z; [lia|done]. }
  split; [|split].
  - apply holds_of_Z; [lia|]. rewrite Hud. do 2 f_equal. lia.
  - intros H1. apply holds_of_Z; [lia|]. rewrite Hdu. do 2 f_equal. lia.
  - intros ->. by apply (holds_of_Z _ 1).
Qed.

Lemma increment_decrement_round_trip_witness :
  count_is sample_course 3 /\
  holds_count
    (doc_after (decrementEnrollment
                  (doc_after (incrementEnrollment sample_course
                                (mkDb true [])))
                  (mkDb true []))) 3.
Proof.
  assert (count_is sample_course 3) as H.
  { left. by apply (holds_of_Z _ 3). }
  split; [exact H|].
  by apply (increment_decrement_round_trip sample_course (mkDb true [])
              (mkDb true []) 3).
Defined.

Lemma validate_count_nonneg c :
  courseSchema_validate c = [] -> count_nonneg c.
Proof.
  unfold courseSchema_validate, count_nonneg. intros H.
  do 6 (apply app_eq_nil in H as [_ H]). apply app_eq_nil in H as [H _].
  destruct (enrollmentCount c) as [x|]; [|done]. simpl.
  by eapply (proj1 (min_validator_double_nil _ _ _ _) H).
Qed.

Lemma validate_set_count c v :
  courseSchema_validate c = [] -> Number.ge v Number.zero = true ->
  courseSchema_validate (set_enrollmentCount (Some v) c) = [].
Proof.
  unfold courseSchema_validate. intros H Hv.
  apply app_eq_nil in H as [H1 H]. apply app_eq_nil in H as [H2 H].
  apply app_eq_nil in H as [H3 H]. apply app_eq_nil in H as [H4 H].
  apply app_eq_nil in H as [H5 H]. apply app_eq_nil in H as [H6 H].
  apply app_eq_nil in H as [_ H]. apply app_eq_nil in H as [H8 H9].
  cbn [id title difficulty estimatedHours rating enrollmentCount
       completionRate set_enrollmentCount].
  rewrite H1, H2, H3, H4, H5, H6, H8, H9. unfold min_validator_double.
  by rewrite Hv.
Qed.

Lemma new_count_nonneg m c db :
  count_nonneg c -> count_nonneg (call m c db).1.1.
Proof.
  destruct m; [apply increment_nonneg|intros _; apply decrement_nonneg].
Qed.



(** X3: the methods do not roll back: when the [save] of
    [incrementEnrollment] rejects (the course fails validation or the
    store does not answer), nothing is written, yet the document in memory
    keeps the new count: a course that counted a safe integer [n] counts
    [n + 1] and no longer [n]. *)
Theorem increment_not_rolled_back (c : Course) (db : Db Course) (e : Error) :
  (incrementEnrollment c db).2 = Rejected e ->
  (incrementEnrollment c db).1.2 = db /\
  forall n, safe_integer n -> count_is c n ->
    holds_count (doc_after (incrementEnrollment c db)) (n + 1) /\
    ~ count_is (doc_after (incrementEnrollment c db)) n.
Proof.
  intros Hrej. pose proof (call_save Increment c db) as Hs. simpl in Hs.
  split.
  - pose proof (save_rejected_unchanged courseSchema_validate
                  (incrementEnrollment c db).1.1 db) as Hu.
    fold save_course in Hu. rewrite <- Hs in Hu. simpl in Hu.
    apply Hu. by rewrite Hrej.
  - intros n Hn Hc. destruct (count_after c db n Hn Hc) as [Hi _].
    unfold safe_integer in Hn.
    assert (holds_count (doc_after (incrementEnrollment c db)) (n + 1))
      as Hh by (apply holds_of_Z; [lia|done]).
    split; [done|].
    intros [(x & Hx & _ & Hxn)|[Hnone _]]; [|congruence].
    destruct Hh as (y & Hy & _ & Hyn). rewrite Hx in Hy.
    injection Hy as <-. pose proof (is_integer_inj _ _ _ Hxn Hyn). lia.
Qed.

Lemma increment_not_rolled_back_witness :
  (exists e, (incrementEnrollment untitled_course (mkDb true [])).2
             = Rejected e) /\
  (incrementEnrollment untitled_course (mkDb true [])).1.2 = mkDb true [] /\
  holds_count (doc_after (incrementEnrollment untitled_course
                            (mkDb true []))) 1.
Proof.
  split; [by eexists|].
  destruct (increment_not_rolled_back untitled_course (mkDb true [])
              (ValidationError
                 [mkValidatorError "title" KRequired
                    (Some "Course title is required")]) eq_refl)
    as (Hdb & Hcount).
  split; [exact Hdb|]. apply (Hcount 0); [by compute|by right].
Defined.

(** X4: over any run of the two counting methods the store only grows, by
    at most one course per call, and every course written passes
    validation, so its rating and completionRate are within bounds and its
    enrollmentCount is set and not negative. *)
Theorem run_writes_valid_courses (ms : list Method) (c : Course)
    (db : Db Course) :
  exists written,
    saved (run ms c db).2 = written ++ saved db /\
    (length written <= length ms)%nat /\
    Forall (fun d => courseSchema_validate d = [] /\ in_bounds d /\
                     count_nonneg d /\ enrollmentCount d <> None) written.
Proof.
  revert c db. induction ms as [|m ms IH]; intros c db.
  { exists []. by repeat split. }
  simpl. pose proof (call_save m c db) as Hs.
  pose proof (call_doc m c db) as Hd.
  destruct (call m c db) as [[c' db'] o]. simpl in Hs, Hd.
  destruct (IH c' db') as (written & Hw & Hlen & Hall).
  destruct o as [|e].
  - symmetry in Hs.
    pose proof (save_resolved_valid _ _ _ _ Hs) as Hvalid.
    pose proof (save_resolved_written _ _ _ _ Hs) as Hsaved.
    exists (written ++ [c']). rewrite Hw, Hsaved, <- app_assoc.
    split; [done|]. split; [rewrite length_app; simpl; lia|].
    apply Forall_app. split; [done|]. constructor; [|done].
    split; [done|]. split; [by apply validate_nil_in_bounds|].
    split; [by apply validate_count_nonneg|]. by rewrite Hd.
  - pose proof (save_rejected_unchanged courseSchema_validate c' db) as Hu.
    fold save_course in Hu. rewrite <- Hs in Hu. simpl in Hu.
    assert (db' = db) as Hdb by (by apply Hu). subst db'.
    exists written. split; [done|]. split; [lia|done].
Qed.

Lemma append_empty_r (s : string) : (s ++ "")%string = s.
Proof.
  induction s as [|a s IH]; [done|].
  change (String a (s ++ "")%string = String a s). by rewrite IH.
Qed.

Lemma prefix_append (s t : string) :
  String.prefix s (s ++ t)%string = true.
Proof.
  induction s as [|a s IH]; [by destruct t|].
  change (String.prefix (String a s) (String a (s ++ t)%string) = true).
  simpl. destruct (ascii_dec a a); [done|congruence].
Qed.

(** X5: the virtual [fullTitle] always starts with the title (printed as
    "undefined" when unset); it is the title alone exactly when the
    category is unset or empty, and otherwise ends with the category. *)
Theorem fullTitle_shape (c : Course) :
  let shown := default "undefined" (title c) in
  String.prefix shown (fullTitle c) = true /\
  (fullTitle c = shown <-> Js.truthy_string (category c) = false) /\
  (forall cat, category c = Some cat -> cat <> "" ->
               fullTitle c = (shown ++ " - " ++ cat)%string).
Proof.
  cbv zeta. unfold fullTitle. split; [apply prefix_append|]. split.
  - destruct (Js.truthy_string (category c)).
    + split; [|done]. intros H. exfalso.
      rewrite <- (append_empty_r (default "undefined" (title c))) in H at 2.
      by apply String.app_inj in H.
    + split; [done|]. intros _. apply append_empty_r.
  - intros cat -> Hne. simpl.
    destruct (String.eqb_spec cat ""); [done|]. done.
Qed.


End CourseLaws.

Module ProblemSetLaws.
Import Mongoose MongooseFacts ProblemSetModel ProblemSetFacts.

(** *** Filtering the array *)

Lemma instances_of_filter (pred : option Instance.t -> bool)
    (h : gmap nat Instance.t) (refs : list nat) :
  instances_of h (filter_instances pred h refs)
    = List.filter (fun p => pred (Some p)) (instances_of h refs).
Proof.
  unfold instances_of, filter_instances.
  induction refs as [|r refs IH]; [done|]. cbn [List.filter].
  destruct (h !! r) as [p|] eqn:Hr.
  - cbn. rewrite Hr. cbn. destruct (pred (Some p)); cbn; rewrite ?Hr, IH; done.
  - destruct (pred None); cbn; rewrite Hr; done.
Qed.

Lemma filter_filter_same {A : Type} (f : A -> bool) (l : list A) :
  List.filter f (List.filter f l) = List.filter f l.
Proof.
  induction l as [|x l IH]; [done|]. simpl.
  destruct (f x) eqn:Hx; simpl; rewrite ?Hx, IH; done.
Qed.

Lemma removeProblem_instances problemId s :
  instances (removeProblem problemId s).1
    = List.filter (fun p => negb (has_problemId problemId p)) (instances s).
Proof.
  unfold removeProblem, instances at 1.
  rewrite save_this_heap, save_this_this. simpl.
  by rewrite instances_of_filter.
Qed.


Lemma removeProblemInstance_instances id_ s :
  instances (removeProblemInstance id_ s).1
    = List.filter (fun p => negb (has_id id_ p)) (instances s).
Proof.
  unfold removeProblemInstance, instances at 1.
  rewrite save_this_heap, save_this_this. simpl.
  by rewrite instances_of_filter.
Qed.

(** X8: [removeProblemInstance] removes exactly the instances with the
    given [_id]; an instance without an [_id] is never removed, and after
    the call [updateProblemInstance] with that id rejects. *)
Theorem removeProblemInstance_removes_id (id_ : string) (s : State) :
  let s' := (removeProblemInstance id_ s).1 in
  (forall p, p ∈ instances s' <->
             p ∈ instances s /\ Instance._id p <> Some id_) /\
  (forall p, p ∈ instances s -> Instance._id p = None -> p ∈ instances s') /\
  no_instance_with_id id_ s' /\
  (forall updates now,
      updateProblemInstance id_ updates now s' = (s', Rejected not_found)).
Proof.
  cbv zeta.
  assert (forall p, p ∈ instances (removeProblemInstance id_ s).1 <->
                    p ∈ instances s /\ Instance._id p <> Some id_) as Hin.
  { intros p.
    rewrite removeProblemInstance_instances, list_elem_of_In, filter_In.
    rewrite <- list_elem_of_In. unfold has_id.
    rewrite negb_true_iff, bool_decide_eq_false. done. }
  assert (no_instance_with_id id_ (removeProblemInstance id_ s).1) as Hno.
  { intros p Hp. by apply Hin in Hp as [_ Hp]. }
  split; [exact Hin|]. split; [|split; [exact Hno|]].
  - intros p Hp Hnone. apply Hin. split; [done|]. by rewrite Hnone.
  - intros updates now. unfold updateProblemInstance.
    by rewrite (proj2 (find_by_id_None _ _) Hno).
Qed.

(** *** Adding *)

Lemma fresh_not_referenced s r :
  well_formed s -> r ∈ problemInstances (this s) ->
  r <> fresh (dom (heap s)).
Proof.
  intros Hwf Hr ->. apply Hwf in Hr. apply elem_of_dom in Hr.
  by apply is_fresh in Hr.
Qed.

Lemma instances_of_insert_fresh (h : gmap nat Instance.t) refs r p :
  (forall r', r' ∈ refs -> r' <> r) ->
  instances_of (<[r := p]> h) refs = instances_of h refs.
Proof.
  unfold instances_of. induction refs as [|a refs IH]; intros H; [done|].
  cbn. rewrite lookup_insert_ne by (apply not_eq_sym, H; by left).
  rewrite IH; [done|]. intros r' Hr'. apply H. by right.
Qed.

Lemma addProblem_this instance s :
  this (addProblem instance s).1 =
  set_totalProblems
    (Z.of_nat (length (problemInstances (this s) ++ [fresh (dom (heap s))])))
    (set_problemInstances
       (problemInstances (this s) ++ [fresh (dom (heap s))]) (this s)).
Proof. unfold addProblem. by rewrite save_this_this. Qed.

Lemma addProblem_heap instance s :
  heap (addProblem instance s).1
    = <[fresh (dom (heap s)) := instance]> (heap s).
Proof. unfold addProblem. by rewrite save_this_heap. Qed.

Lemma addProblem_instances instance s :
  well_formed s ->
  instances (addProblem instance s).1 = instances s ++ [instance].
Proof.
  intros Hwf. unfold instances.
  rewrite addProblem_this, addProblem_heap. simpl.
  unfold instances_of at 1. rewrite omap_app. cbn.
  rewrite lookup_insert_eq. cbn. f_equal.
  apply instances_of_insert_fresh. intros r Hr.
  by apply fresh_not_referenced.
Qed.

Lemma well_formed_length s :
  well_formed s ->
  length (instances s) = length (problemInstances (this s)).
Proof.
  unfold well_formed, instances, instances_of.
  induction (problemInstances (this s)) as [|r refs IH]; intros H; [done|].
  cbn. destruct (H r) as [p ->]; [by left|]. cbn. f_equal. apply IH.
  intros r' Hr'. apply H. by right.
Qed.

Lemma addProblem_totalProblems instance s :
  well_formed s ->
  totalProblems (this (addProblem instance s).1)
    = Z.of_nat (length (instances s)) + 1.
Proof.
  intros Hwf. rewrite addProblem_this. simpl.
  rewrite length_app, well_formed_length by done. simpl. lia.
Qed.

Lemma addProblem_well_formed instance s :
  well_formed s -> well_formed (addProblem instance s).1.
Proof.
  intros Hwf r. rewrite addProblem_this, addProblem_heap. simpl.
  intros [Hr| ->%list_elem_of_singleton]%elem_of_app.
  - rewrite lookup_insert_ne; [by apply Hwf|].
    by apply not_eq_sym, fresh_not_referenced.
  - rewrite lookup_insert_eq. by eexists.
Qed.

(** X9: on a document whose array is well formed, [addProblem] appends
    the instance: the instances before stay as they are, in their order,
    the new one comes last, and [totalProblems] is the old number of
    instances plus one. *)
Theorem addProblem_appends (instance : Instance.t) (s : State) :
  well_formed s ->
  let s' := (addProblem instance s).1 in
  instances s' = instances s ++ [instance] /\
  totalProblems (this s') = Z.of_nat (length (instances s)) + 1 /\
  well_formed s'.
Proof.
  intros Hwf. cbv zeta. split; [by apply addProblem_instances|].
  split; [by apply addProblem_totalProblems|by apply addProblem_well_formed].
Qed.

Lemma two_problems_well_formed : well_formed two_problems.
Proof.
  intros r Hr. simpl in Hr.
  apply elem_of_cons in Hr as [->|Hr]; [by eexists|].
  apply list_elem_of_singleton in Hr as ->. by eexists.
Qed.

Lemma addProblem_appends_witness :
  well_formed two_problems /\
  instances (addProblem (Instance.make None 9 3) two_problems).1
    = instances two_problems ++ [Instance.make None 9 3].
Proof.
  split; [exact two_problems_well_formed|].
  by apply (addProblem_appends (Instance.make None 9 3) two_problems
              two_problems_well_formed).
Defined.

Lemma filter_all_kept {A : Type} (f : A -> bool) (l : list A) :
  (forall x, x ∈ l -> f x = true) -> List.filter f l = l.
Proof.
  induction l as [|x l IH]; intros H; [done|]. simpl.
  rewrite (H x) by (by left). f_equal. apply IH. intros y Hy. apply H.
  by right.
Qed.

Lemma filter_app_list {A : Type} (f : A -> bool) (l k : list A) :
  List.filter f (l ++ k) = List.filter f l ++ List.filter f k.
Proof.
  induction l as [|x l IH]; [done|]. simpl. rewrite IH. by destruct (f x).
Qed.

(** X10: adding an instance of a problem the document does not hold yet
    and then calling [removeProblem] for that problem gives back the
    instances there were, and the same [totalProblems] when it counted
    them. *)
Theorem add_then_remove (instance : Instance.t) (problemId : Z) (s : State) :
  well_formed s ->
  Instance.problemId instance = Some problemId ->
  (forall p, p ∈ instances s -> Instance.problemId p <> Some problemId) ->
  let s' := (removeProblem problemId (addProblem instance s).1).1 in
  instances s' = instances s /\
  problemInstances (this s') = problemInstances (this s) /\
  (total_matches s -> totalProblems (this s') = totalProblems (this s)).
Proof.
  intros Hwf Hid Hnew. cbv zeta.
  assert (problemInstances
            (this (removeProblem problemId (addProblem instance s).1).1)
          = problemInstances (this s)) as Hrefs.
  { unfold removeProblem. rewrite save_this_this. simpl.
    rewrite addProblem_this, addProblem_heap. simpl.
    unfold filter_instances. rewrite filter_app_list. simpl.
    rewrite lookup_insert_eq. simpl. unfold has_problemId at 2.
    rewrite bool_decide_eq_true_2 by done. simpl. rewrite app_nil_r.
    apply filter_all_kept. intros r Hr.
    rewrite lookup_insert_ne
      by (by apply not_eq_sym, fresh_not_referenced).
    destruct (Hwf r Hr) as [p Hp]. rewrite Hp. simpl.
    apply negb_true_iff, bool_decide_eq_false, Hnew.
    apply list_elem_of_omap. by exists r. }
  split; [|split; [exact Hrefs|]].
  - rewrite removeProblem_instances, addProblem_instances by done.
    rewrite filter_app_list. simpl. unfold has_problemId at 2.
    rewrite bool_decide_eq_true_2 by done. simpl. rewrite app_nil_r.
    apply filter_all_kept. intros p Hp.
    by apply negb_true_iff, bool_decide_eq_false, Hnew.
  - intros Htotal. rewrite Htotal, <- Hrefs.
    apply removeProblem_total.
Qed.

Lemma add_then_remove_witness :
  well_formed two_problems /\
  instances
    (removeProblem 9 (addProblem (Instance.make None 9 3) two_problems).1).1
    = instances two_problems.
Proof.
  split; [exact two_problems_well_formed|].
  apply (add_then_remove (Instance.make None 9 3) 9 two_problems
           two_problems_well_formed eq_refl).
  intros p Hp. vm_compute in Hp.
  apply elem_of_cons in Hp as [->|Hp]; [done|].
  apply list_elem_of_singleton in Hp as ->. done.
Defined.

Lemma save_this_rejected_db s :
  (save_this s).2 <> Resolved -> db (save_this s).1 = db s.
Proof.
  unfold save_this.
  pose proof (CourseLaws.save_rejected_unchanged problemSetSchema_validate
                (mkStored (this s) (instances s)) (db s)) as H.
  destruct (save _ _ _) as [db' o]. simpl in *. done.
Qed.

Lemma missing_problemId_error st i p :
  stored_instances st !! i = Some p -> Instance.problemId p = None ->
  mkValidatorError (instance_path i ++ ".problemId") KRequired None
    ∈ problemSetSchema_validate st.
Proof.
  intros Hi Hnone. unfold problemSetSchema_validate.
  do 4 (apply elem_of_app; right).
  apply SchemaFacts.elem_of_concat. eexists. split.
  2:{ apply list_elem_of_lookup. exists i.
      rewrite list_lookup_imap, Hi. reflexivity. }
  unfold Instance.problemInstanceSchema_validate. rewrite Hnone.
  simpl. by left.
Qed.

(** X11: the methods do not roll back: [addProblem] with an instance that
    has no [problemId] is rejected by validation and writes nothing, yet
    the document in memory has the instance appended and [totalProblems]
    raised. *)
Theorem addProblem_not_rolled_back (instance : Instance.t) (s : State) :
  well_formed s -> Instance.problemId instance = None ->
  let result := addProblem instance s in
  (exists errs, result.2 = Rejected (ValidationError errs) /\
                exists e, e ∈ errs /\ ve_kind e = KRequired) /\
  db result.1 = db s /\
  instances result.1 = instances s ++ [instance] /\
  totalProblems (this result.1) = Z.of_nat (length (instances s)) + 1.
Proof.
  intros Hwf Hnone. cbv zeta.
  pose proof (addProblem_instances instance s Hwf) as Hinst.
  pose proof (addProblem_totalProblems instance s Hwf) as Htotal.
  cut ((exists errs, (addProblem instance s).2
                     = Rejected (ValidationError errs) /\
                     exists e, e ∈ errs /\ ve_kind e = KRequired) /\
       db (addProblem instance s).1 = db s); [tauto|].
  revert Hinst. unfold addProblem. set (s1 := mkState _ _ _).
  rewrite save_this_instances. intros Hs1. unfold save_this.
  assert (mkValidatorError
            (instance_path (length (instances s)) ++ ".problemId")
            KRequired None
          ∈ problemSetSchema_validate (mkStored (this s1) (instances s1)))
    as Herr.
  { apply (missing_problemId_error _ _ instance); [|done]. simpl.
    rewrite Hs1, lookup_app_r by lia. by rewrite Nat.sub_diag. }
  rewrite save_invalid.
  - simpl. split; [|done]. eexists. split; [done|]. eexists. by split.
  - intros Hnil. rewrite Hnil in Herr. by apply elem_of_nil in Herr.
Qed.

Lemma addProblem_not_rolled_back_witness :
  well_formed two_problems /\
  Instance.problemId unnumbered = None /\
  db (addProblem unnumbered two_problems).1 = db two_problems /\
  length (instances (addProblem unnumbered two_problems).1) = 3%nat.
Proof.
  split; [exact two_problems_well_formed|]. split; [reflexivity|].
  destruct (addProblem_not_rolled_back unnumbered two_problems
              two_problems_well_formed eq_refl) as (_ & Hdb & Hinst & _).
  split; [exact Hdb|]. rewrite Hinst. reflexivity.
Defined.

(** *** Invariants over runs of methods *)

Lemma filter_instances_subset pred h refs r :
  r ∈ filter_instances pred h refs -> r ∈ refs.
Proof.
  unfold filter_instances. rewrite !list_elem_of_In, filter_In. tauto.
Qed.

Lemma reorder_map_is_Some s newOrder r :
  is_Some ((reorder_map (problemInstances (this s)) newOrder 0 (heap s)).1
             !! r) <-> is_Some (heap s !! r).
Proof.
  destruct (reorder_map_mapped s newOrder 0 (heap s) (same_problemIds_refl _))
    as [_ Hsame].
  specialize (Hsame r). rewrite <- !fmap_is_Some with (f := Instance.problemId).
  by rewrite Hsame.
Qed.

Lemma reorder_refs_chosen s newOrder r :
  r ∈ problemInstances (this (reorderProblems newOrder s).1) <->
  exists problemId, problemId ∈ newOrder /\ chosen s problemId = Some r.
Proof.
  rewrite reorderProblems_this. simpl.
  rewrite (proj1 (reorder_map_mapped s newOrder 0 (heap s)
                    (same_problemIds_refl _))).
  unfold filter_Boolean. rewrite omap_after_fmap, list_elem_of_omap. done.
Qed.

Lemma call_well_formed m s : well_formed s -> well_formed (call m s).1.
Proof.
  intros Hwf. destruct m as [i|pid|id_ u now|id_|newOrder]; simpl.
  - by apply addProblem_well_formed.
  - intros r. unfold removeProblem. rewrite save_this_this, save_this_heap.
    simpl. intros Hr%filter_instances_subset. by apply Hwf.
  - unfold updateProblemInstance.
    destruct (find_instance _ _ _) as [r0|]; [|done].
    intros r. rewrite save_this_this, save_this_heap. simpl. intros Hr.
    apply lookup_alter_is_Some. by apply Hwf.
  - intros r. unfold removeProblemInstance.
    rewrite save_this_this, save_this_heap. simpl.
    intros Hr%filter_instances_subset. by apply Hwf.
  - intros r Hr. rewrite reorderProblems_heap. apply reorder_map_is_Some.
    apply reorder_refs_chosen in Hr as (pid & _ & Hc).
    apply find_instance_Some in Hc as (_ & p & Hp & _). by eexists.
Qed.

Lemma call_total_matches m s :
  is_reorder m = false -> total_matches s -> total_matches (call m s).1.
Proof.
  intros Hm Ht. destruct m as [i|pid|id_ u now|id_|newOrder]; simpl.
  - apply addProblem_total.
  - apply removeProblem_total.
  - unfold updateProblemInstance, total_matches.
    destruct (find_instance _ _ _) as [r0|]; [|done].
    by rewrite save_this_this.
  - apply removeProblemInstance_total.
  - done.
Qed.

Lemma run_app ms ms' s : run (ms ++ ms') s = run ms' (run ms s).
Proof. revert s. induction ms as [|m ms IH]; intros s; [done|]. apply IH. Qed.

Lemma run_well_formed ms s : well_formed s -> well_formed (run ms s).
Proof.
  revert s. induction ms as [|m ms IH]; intros s Hwf; [done|].
  simpl. by apply IH, call_well_formed.
Qed.

Lemma run_total_matches ms s :
  existsb is_reorder ms = false -> total_matches s ->
  total_matches (run ms s).
Proof.
  revert s. induction ms as [|m ms IH]; intros s Hms Ht; [done|].
  simpl in *. apply orb_false_iff in Hms as [Hm Hms].
  by apply IH, call_total_matches.
Qed.

(** X12: over any run of the five methods the array stays well formed
    (every entry is an object of the document), and as long as the run
    holds no [reorderProblems], [totalProblems] stays the length of the
    array once it is; it is that length, whatever it was before, after any
    run that ends with [addProblem], [removeProblem] or
    [removeProblemInstance] followed by updates only. *)
Theorem run_keeps_invariants (ms : list Method) (s : State) :
  well_formed s ->
  well_formed (run ms s) /\
  length (instances (run ms s))
    = length (problemInstances (this (run ms s))) /\
  (existsb is_reorder ms = false -> total_matches s ->
   total_matches (run ms s)) /\
  (forall before m after,
      ms = before ++ m :: after ->
      match m with
      | AddProblem _ | RemoveProblem _ | RemoveProblemInstance _ => True
      | _ => False
      end ->
      existsb is_reorder after = false ->
      total_matches (run ms s)).
Proof.
  intros Hwf. pose proof (run_well_formed ms s Hwf) as Hwf'.
  split; [done|]. split; [by apply well_formed_length|].
  split; [apply run_total_matches|].
  intros before m after -> Hm Hafter. rewrite run_app. simpl.
  apply run_total_matches; [done|].
  destruct m; try done.
  - apply addProblem_total.
  - apply removeProblem_total.
  - apply removeProblemInstance_total.
Qed.

Lemma run_keeps_invariants_witness :
  well_formed two_problems /\
  total_matches
    (run [ReorderProblems [2]; AddProblem (Instance.make None 9 3);
          UpdateProblemInstance "a2" retitle 5]
       two_problems) /\
  length (instances
            (run [ReorderProblems [2]; AddProblem (Instance.make None 9 3);
                  UpdateProblemInstance "a2" retitle 5]
               two_problems)) = 2%nat.
Proof.
  split; [exact two_problems_well_formed|].
  destruct (run_keeps_invariants
              [ReorderProblems [2]; AddProblem (Instance.make None 9 3);
               UpdateProblemInstance "a2" retitle 5]
              two_problems two_problems_well_formed)
    as (_ & Hlen & _ & Hlast).
  split.
  - by apply (Hlast [ReorderProblems [2]] (AddProblem (Instance.make None 9 3))
                [UpdateProblemInstance "a2" retitle 5]).
  - rewrite Hlen. by vm_compute.
Defined.

(** *** What [reorderProblems] keeps *)

Lemma omap_length_le {A B : Type} (f : A -> option B) (l : list A) :
  (length (omap f l) <= length l)%nat.
Proof.
  induction l as [|x l IH]; [done|]. cbn. destruct (f x); simpl; lia.
Qed.

Lemma omap_chosen_NoDup s (l : list Z) : NoDup l -> NoDup (omap (chosen s) l).
Proof.
  induction l as [|pid l IH]; intros Hnd; [constructor|].
  apply NoDup_cons in Hnd as [Hpid Hnd]. cbn.
  destruct (chosen s pid) as [r|] eqn:Hc; [|by apply IH].
  apply NoDup_cons. split; [|by apply IH].
  intros (pid' & Hin & Hc')%list_elem_of_omap.
  by rewrite (chosen_inj _ _ _ _ Hc Hc') in Hpid.
Qed.

Lemma reorder_result_ids s newOrder (h : gmap nat Instance.t) :
  same_problemIds (heap s) h ->
  Instance.problemId <$> omap (fun pid => chosen s pid ≫= (h !!.)) newOrder
    = Some <$> List.filter (fun pid => bool_decide (is_Some (chosen s pid)))
                 newOrder.
Proof.
  intros Hsame. induction newOrder as [|pid l IH]; [done|]. cbn.
  destruct (chosen s pid) as [r|] eqn:Hc.
  - rewrite bool_decide_eq_true_2 by (by eexists).
    destruct (chosen_problemId _ _ _ Hc) as (p & Hp & Hid).
    pose proof (Hsame r) as Hr. rewrite Hp in Hr. cbn in Hr.
    destruct (h !! r) as [p'|] eqn:Hp'; [|done]. cbn. rewrite Hp'. cbn.
    injection Hr as Hr. rewrite IH. congruence.
  - rewrite bool_decide_eq_false_2 by (by intros [? ?]). cbn. apply IH.
Qed.

(** X13: [reorderProblems] only selects: every entry of the new array was
    an entry of the old one, there are at most as many entries as ids in
    [newOrder], no entry occurs twice when [newOrder] repeats no id, and
    the problem ids of the new array are the ids of [newOrder] that some
    instance has, in the order of [newOrder]. *)
Theorem reorder_selects (newOrder : list Z) (s : State) :
  let s' := (reorderProblems newOrder s).1 in
  (forall r, r ∈ problemInstances (this s') ->
             r ∈ problemInstances (this s)) /\
  (length (problemInstances (this s')) <= length newOrder)%nat /\
  (NoDup newOrder -> NoDup (problemInstances (this s'))) /\
  Instance.problemId <$> instances s'
    = Some <$> List.filter (fun pid => bool_decide (is_Some (chosen s pid)))
                 newOrder.
Proof.
  cbv zeta.
  assert (problemInstances (this (reorderProblems newOrder s).1)
          = omap (chosen s) newOrder) as Hrefs.
  { rewrite reorderProblems_this. simpl.
    rewrite (proj1 (reorder_map_mapped s newOrder 0 (heap s)
                      (same_problemIds_refl _))).
    unfold filter_Boolean. by rewrite omap_after_fmap. }
  split; [|split; [|split]].
  - intros r (pid & _ & Hc)%reorder_refs_chosen.
    by apply find_instance_Some in Hc as [? _].
  - rewrite Hrefs. apply omap_length_le.
  - rewrite Hrefs. apply omap_chosen_NoDup.
  - unfold instances. rewrite reorderProblems_this, reorderProblems_heap.
    simpl. rewrite instances_of_chosen.
    destruct (reorder_map_mapped s newOrder 0 (heap s)
                (same_problemIds_refl _)) as [-> Hsame].
    rewrite omap_after_fmap. by apply reorder_result_ids.
Qed.

Lemma refs_unique_by_problemId (h : gmap nat Instance.t) refs r r' p p' :
  NoDup (Instance.problemId <$> instances_of h refs) ->
  r ∈ refs -> r' ∈ refs -> h !! r = Some p -> h !! r' = Some p' ->
  Instance.problemId p = Instance.problemId p' -> r = r'.
Proof.
  unfold instances_of.
  induction refs as [|a l IH]; intros Hnd Hr Hr' Hp Hp' Hid.
  { by apply elem_of_nil in Hr. }
  assert (forall r0 p0, r0 ∈ l -> h !! r0 = Some p0 ->
                        Instance.problemId p0
                        ∈ Instance.problemId <$> omap (fun r => h !! r) l)
    as Hmem.
  { intros r0 p0 Hin H0. apply list_elem_of_fmap_2, list_elem_of_omap.
    by exists r0. }
  cbn in Hnd. apply elem_of_cons in Hr as [->|Hr];
    apply elem_of_cons in Hr' as [->|Hr']; [done| | |].
  - rewrite Hp in Hnd. cbn in Hnd. apply NoDup_cons in Hnd as [Hnot _].
    exfalso. apply Hnot. rewrite Hid. by apply (Hmem r').
  - rewrite Hp' in Hnd. cbn in Hnd. apply NoDup_cons in Hnd as [Hnot _].
    exfalso. apply Hnot. rewrite <- Hid. by apply (Hmem r).
  - apply IH; try done. destruct (h !! a); [|done].
    cbn in Hnd. by apply NoDup_cons in Hnd as [_ ?].
Qed.

Lemma refs_NoDup (h : gmap nat Instance.t) refs :
  (forall r, r ∈ refs -> is_Some (h !! r)) ->
  NoDup (Instance.problemId <$> instances_of h refs) -> NoDup refs.
Proof.
  unfold instances_of. induction refs as [|a l IH]; intros Hwf Hnd;
    [constructor|].
  destruct (Hwf a) as [pa Ha]; [by left|].
  cbn in Hnd. rewrite Ha in Hnd. cbn in Hnd.
  apply NoDup_cons in Hnd as [Hnot Hnd]. apply NoDup_cons. split.
  - intros Hin. apply Hnot. apply list_elem_of_fmap_2, list_elem_of_omap.
    by exists a.
  - apply IH; [|done]. intros r Hr. apply Hwf. by right.
Qed.

(** X14: when the instances have different problem ids, [newOrder]
    repeats no id and names the id of every instance, [reorderProblems]
    loses nothing: the new array is a permutation of the old one, so the
    number of instances, and with it the agreement of [totalProblems],
    is kept. *)
Theorem reorder_permutes (newOrder : list Z) (s : State) :
  well_formed s ->
  NoDup (Instance.problemId <$> instances s) -> NoDup newOrder ->
  (forall p, p ∈ instances s ->
             exists pid, pid ∈ newOrder /\ Instance.problemId p = Some pid) ->
  let s' := (reorderProblems newOrder s).1 in
  problemInstances (this s') ≡ₚ problemInstances (this s) /\
  length (instances s') = length (instances s) /\
  (total_matches s -> total_matches s').
Proof.
  intros Hwf Hids Hnd Hall. cbv zeta.
  assert (problemInstances (this (reorderProblems newOrder s).1)
          ≡ₚ problemInstances (this s)) as Hperm.
  { apply NoDup_Permutation.
    - rewrite reorderProblems_this. simpl.
      rewrite (proj1 (reorder_map_mapped s newOrder 0 (heap s)
                        (same_problemIds_refl _))).
      unfold filter_Boolean. rewrite omap_after_fmap.
      by apply omap_chosen_NoDup.
    - by apply (refs_NoDup (heap s)).
    - intros r. rewrite reorder_refs_chosen. split.
      + intros (pid & _ & Hc). by apply find_instance_Some in Hc as [? _].
      + intros Hr. destruct (Hwf r Hr) as [p Hp].
        destruct (Hall p) as (pid & Hpid & Hp_id).
        { apply list_elem_of_omap. by exists r. }
        exists pid. split; [done|].
        destruct (chosen s pid) as [r'|] eqn:Hc.
        * f_equal. destruct (chosen_problemId _ _ _ Hc) as (p' & Hp' & Hid').
          apply find_instance_Some in Hc as [Hr' _].
          apply (refs_unique_by_problemId (heap s)
                   (problemInstances (this s)) r' r p' p); try done.
          congruence.
        * exfalso. unfold chosen in Hc.
          apply find_instance_None with (p := p) in Hc.
          -- unfold has_problemId in Hc.
             by apply bool_decide_eq_false in Hc.
          -- apply list_elem_of_omap. by exists r. }
  assert (well_formed (reorderProblems newOrder s).1) as Hwf'.
  { apply (call_well_formed (ReorderProblems newOrder) s Hwf). }
  split; [done|]. split.
  - rewrite !well_formed_length by done. by rewrite Hperm.
  - unfold total_matches. intros Ht. rewrite Hperm.
    rewrite reorderProblems_this. simpl. exact Ht.
Qed.

Lemma reorder_permutes_witness :
  well_formed two_problems /\
  NoDup (Instance.problemId <$> instances two_problems) /\
  problemInstances (this (reorderProblems [2; 1] two_problems).1)
    ≡ₚ problemInstances (this two_problems) /\
  total_matches (reorderProblems [2; 1] two_problems).1.
Proof.
  assert (NoDup (Instance.problemId <$> instances two_problems)) as H1.
  { by apply (bool_decide_unpack _). }
  assert (NoDup [2; 1]) as H2 by (by apply (bool_decide_unpack _)).
  split; [exact two_problems_well_formed|]. split; [exact H1|].
  destruct (reorder_permutes [2; 1] two_problems two_problems_well_formed
              H1 H2) as (Hperm & _ & Ht).
  - intros p Hp. vm_compute in Hp.
    apply elem_of_cons in Hp as [->|Hp].
    + exists 1. split; [|done]. by apply (bool_decide_unpack _).
    + apply list_elem_of_singleton in Hp as ->. exists 2.
      split; [|done]. by apply (bool_decide_unpack _).
  - split; [exact Hperm|]. by apply Ht.
Defined.

(** *** Updating twice *)

Lemma find_instance_alter pred f (h : gmap nat Instance.t) refs r p :
  find_instance pred h refs = Some r -> h !! r = Some p ->
  pred (f p) = true ->
  find_instance pred (alter f r h) refs = Some r.
Proof.
  unfold find_instance. intros Hfind Hp Hpred.
  induction refs as [|a l IH]; [done|]. simpl in *.
  destruct (decide (a = r)) as [->|Hne].
  - by rewrite lookup_alter_eq, Hp; simpl; rewrite Hpred.
  - rewrite lookup_alter_ne by done.
    destruct (match h !! a with Some p0 => pred p0 | None => false end).
    + by injection Hfind.
    + by apply IH.
Qed.

(** X15: an update that does not carry an [_id] leaves the instance where
    [updateProblemInstance] finds it: a second update under the same id
    does not reject with 'Problem instance not found', reaches the same
    object, and the object ends with both updates applied in turn and
    [lastModified] at the time of the second. *)
Theorem update_twice (id_ : string) (u1 u2 : Instance.Partial) (t1 t2 : Z)
    (s : State) :
  Instance.p__id u1 = None -> ~ no_instance_with_id id_ s ->
  let s1 := (updateProblemInstance id_ u1 t1 s).1 in
  let second := updateProblemInstance id_ u2 t2 s1 in
  second.2 <> Rejected not_found /\
  exists r p,
    find_instance (has_id id_) (heap s) (problemInstances (this s))
      = Some r /\
    heap s !! r = Some p /\
    (exists p1 p2,
        Instance.updates_applied u1 t1 p p1 /\
        Instance.updates_applied u2 t2 p1 p2 /\
        heap second.1 !! r = Some p2 /\ Instance.lastModified p2 = Some t2) /\
    problemInstances (this second.1) = problemInstances (this s).
Proof.
  intros Hu1 Hsome. cbv zeta.
  destruct (find_instance (has_id id_) (heap s) (problemInstances (this s)))
    as [r|] eqn:Hfind.
  2:{ by apply find_by_id_None in Hfind. }
  pose proof Hfind as Hfind0.
  apply find_instance_Some in Hfind as (_ & p & Hp & Hid).
  assert (find_instance (has_id id_)
            (heap (updateProblemInstance id_ u1 t1 s).1)
            (problemInstances (this (updateProblemInstance id_ u1 t1 s).1))
          = Some r) as Hfind1.
  { unfold updateProblemInstance. rewrite Hfind0.
    rewrite save_this_heap, save_this_this. simpl.
    apply (find_instance_alter _ _ _ _ _ p); try done.
    unfold has_id in *. apply bool_decide_eq_true in Hid.
    apply bool_decide_eq_true. simpl. by rewrite Hu1. }
  assert (heap (updateProblemInstance id_ u1 t1 s).1 !! r
          = Some (Instance.Object_assign p u1 t1)) as Hp1.
  { unfold updateProblemInstance. rewrite Hfind0, save_this_heap. simpl.
    by rewrite lookup_alter_eq, Hp. }
  assert (this (updateProblemInstance id_ u1 t1 s).1 = this s) as Hthis1.
  { unfold updateProblemInstance. rewrite Hfind0. by rewrite save_this_this. }
  unfold updateProblemInstance at 1 3 5. rewrite Hfind1.
  split; [apply save_this_not_not_found|].
  exists r, p. rewrite save_this_heap, save_this_this. simpl.
  rewrite lookup_alter_eq, Hp1, Hthis1. split; [done|]. split; [done|].
  split; [|done].
  exists (Instance.Object_assign p u1 t1),
    (Instance.Object_assign (Instance.Object_assign p u1 t1) u2 t2).
  split; [apply Object_assign_applied|].
  split; [apply Object_assign_applied|]. done.
Qed.

Lemma update_twice_witness :
  ~ no_instance_with_id "a2" two_problems /\
  (updateProblemInstance "a2" Instance.no_updates 9
     (updateProblemInstance "a2" retitle 5 two_problems).1).2
    <> Rejected not_found.
Proof.
  assert (~ no_instance_with_id "a2" two_problems) as Ha2.
  { intros H. apply find_by_id_None in H. by vm_compute in H. }
  split; [exact Ha2|].
  apply (update_twice "a2" retitle Instance.no_updates 5 9 two_problems
           eq_refl Ha2).
Defined.

(** *** The virtual [averageDifficulty] *)

Lemma ratio_le (t n a : Z) (b : positive) :
  0 < n ->
  (Q2Qc (inject_Z t) / Q2Qc (inject_Z n) ≤ Q2Qc (a # b))%Qc <->
  t * Z.pos b <= a * n.
Proof.
  intros Hn. unfold Qcle, Qcdiv, Qcmult, Qcinv. simpl.
  rewrite !Qred_correct. destruct n as [|n|n]; try lia.
  unfold Qle, Qinv, Qmult, inject_Z. simpl. lia.
Qed.

Lemma totalDifficulty_uniform (l : list Instance.t) (k acc : Z) :
  (forall p, p ∈ l -> difficulty_points p = Some k) ->
  foldl (fun acc p =>
           match acc, difficulty_points p with
           | Some a, Some d => Some (a + d)
           | _, _ => None
           end) (Some acc) l = Some (acc + k * Z.of_nat (length l)).
Proof.
  revert acc. induction l as [|p l IH]; intros acc H.
  { simpl. f_equal. lia. }
  cbn [foldl]. rewrite (H p) by (by left). rewrite IH.
  - f_equal. simpl length. lia.
  - intros q Hq. apply H. by right.
Qed.

Lemma totalDifficulty_None_stays (l : list Instance.t) :
  foldl (fun acc p =>
           match acc, difficulty_points p with
           | Some a, Some d => Some (a + d)
           | _, _ => None
           end) None l = None.
Proof. induction l as [|p l IH]; [done|]. exact IH. Qed.

Lemma totalDifficulty_not_a_number (l : list Instance.t) p acc :
  p ∈ l -> difficulty_points p = None ->
  foldl (fun acc p =>
           match acc, difficulty_points p with
           | Some a, Some d => Some (a + d)
           | _, _ => None
           end) acc l = None.
Proof.
  revert acc. induction l as [|q l IH]; intros acc Hin Hp.
  { by apply elem_of_nil in Hin. }
  cbn [foldl]. apply elem_of_cons in Hin as [<-|Hin].
  - rewrite Hp. destruct acc; apply totalDifficulty_None_stays.
  - by apply IH.
Qed.

Lemma inherited_key_points p key :
  Instance.difficulty p = Some key -> key ∈ Object_prototype_keys ->
  difficulty_points p = None.
Proof.
  intros Hd Hkey. unfold difficulty_points. rewrite Hd. simpl.
  unfold Object_prototype_keys in Hkey.
  repeat (apply elem_of_cons in Hkey as [->|Hkey]; [reflexivity|]).
  by apply elem_of_nil in Hkey.
Qed.



Lemma filter_none_kept {A : Type} (f : A -> bool) (l : list A) :
  (forall x, x ∈ l -> f x = false) -> List.filter f l = [].
Proof.
  induction l as [|x l IH]; intros H; [done|]. simpl.
  rewrite (H x) by (by left). apply IH. intros y Hy. apply H. by right.
Qed.

(** *** The static [getStats] *)

Lemma group_step_keys gs d :
  group_id <$> group_step gs d =
  if bool_decide (difficulty d ∈ group_id <$> gs)
  then group_id <$> gs else (group_id <$> gs) ++ [difficulty d].
Proof.
  induction gs as [|g gs IH]; [done|]. cbn [group_step].
  destruct (decide (group_id g = difficulty d)) as [Heq|Hne].
  - rewrite bool_decide_eq_true_2 by done.
    rewrite !fmap_cons. rewrite bool_decide_eq_true_2; [done|].
    rewrite Heq. by left.
  - rewrite bool_decide_eq_false_2 by done. rewrite !fmap_cons, IH.
    destruct (decide (difficulty d ∈ group_id <$> gs)) as [Hin|Hin].
    + rewrite !bool_decide_eq_true_2; [done| |done]. by right.
    + rewrite !bool_decide_eq_false_2; [done| |done].
      intros [?|?]%elem_of_cons; congruence.
Qed.

Lemma group_step_counts gs d :
  sum_of (count <$> group_step gs d) = sum_of (count <$> gs) + 1.
Proof.
  induction gs as [|g gs IH]; [done|]. cbn [group_step].
  destruct (bool_decide (group_id g = difficulty d)).
  - rewrite !fmap_cons. unfold sum_of. simpl. lia.
  - rewrite !fmap_cons. unfold sum_of in *. simpl. lia.
Qed.

Lemma group_step_elem gs d g' :
  NoDup (group_id <$> gs) -> g' ∈ group_step gs d ->
  (g' ∈ gs /\ group_id g' <> difficulty d) \/
  (group_id g' = difficulty d /\
   ((exists g, g ∈ gs /\ group_id g = difficulty d /\ g' = accumulate g d) \/
    ((difficulty d ∉ group_id <$> gs) /\
     g' = accumulate (mkGroup (difficulty d) 0 0 0) d))).
Proof.
  induction gs as [|g gs IH]; cbn [group_step]; intros Hnd.
  - intros ->%list_elem_of_singleton. right. split; [done|]. right.
    split; [|done]. apply not_elem_of_nil.
  - rewrite fmap_cons in Hnd. apply NoDup_cons in Hnd as [Hg Hnd].
    destruct (decide (group_id g = difficulty d)) as [Heq|Hne].
    + rewrite bool_decide_eq_true_2 by done.
      intros [->|Hin]%elem_of_cons.
      * right. split; [done|]. left. exists g. split; [by left|done].
      * left. split; [by right|]. intros Heq'. apply Hg.
        rewrite Heq, <- Heq'. by apply list_elem_of_fmap_2.
    + rewrite bool_decide_eq_false_2 by done.
      intros [->|Hin]%elem_of_cons.
      * left. split; [by left|done].
      * destruct (IH Hnd Hin) as [[? ?]|[? [(g0 & ? & ? & ?)|[Hnot ?]]]].
        -- left. split; [by right|done].
        -- right. split; [done|]. left. exists g0. split; [by right|done].
        -- right. split; [done|]. right. split; [|done].
           rewrite fmap_cons. intros [?|?]%elem_of_cons; congruence.
Qed.

Lemma sum_of_app xs ys : sum_of (xs ++ ys) = sum_of xs + sum_of ys.
Proof.
  unfold sum_of. induction xs as [|x xs IH]; simpl; [done|]. lia.
Qed.

Lemma members_snoc key l d :
  members key (l ++ [d]) =
  members key l ++ (if bool_decide (difficulty d = key) then [d] else []).
Proof. unfold members. by rewrite filter_app_list. Qed.

Lemma grouped_step l gs d :
  grouped l gs -> grouped (l ++ [d]) (group_step gs d).
Proof.
  intros (Hnd & Hsum & Hsumm & Hcover). split; [|split; [|split]].
  - rewrite group_step_keys. case_bool_decide as Hin; [done|].
    apply NoDup_app. split; [done|]. split; [|apply NoDup_singleton].
    intros k Hk ->%list_elem_of_singleton. done.
  - rewrite group_step_counts, Hsum, length_app. simpl. lia.
  - intros g' Hg'.
    apply group_step_elem in Hg'; [|done].
    destruct Hg' as [[Hin Hne]|[Heq [(g & Hin & Hgid & ->)|[Hnot ->]]]].
    + destruct (Hsumm g' Hin) as [(Hc & Hp & Hs) Hone]. split; [|done].
      unfold summarises. rewrite members_snoc.
      rewrite bool_decide_eq_false_2 by done. by rewrite app_nil_r.
    + destruct (Hsumm g Hin) as [(Hc & Hp & Hs) Hone].
      split; [|simpl; lia]. unfold summarises. simpl.
      rewrite members_snoc, bool_decide_eq_true_2 by done.
      rewrite filter_app_list, fmap_app, sum_of_app, !length_app.
      rewrite Hc, Hp, Hs. simpl. destruct (isPublic d); simpl;
        (split; [lia|split; [lia|unfold sum_of; simpl; lia]]).
    + assert (members (difficulty d) l = []) as Hnil.
      { unfold members. apply filter_none_kept. intros d' Hd'.
        apply bool_decide_eq_false.
        intros Heq'.
        apply Hnot. rewrite <- Heq'. by apply Hcover. }
      split; [|simpl; lia]. unfold summarises. simpl.
      rewrite members_snoc, bool_decide_eq_true_2 by done. rewrite Hnil.
      simpl. destruct (isPublic d); simpl;
        (split; [lia|split; [lia|unfold sum_of; simpl; lia]]).
  - intros d' Hd'. rewrite group_step_keys.
    apply elem_of_app in Hd' as [Hd'| ->%list_elem_of_singleton].
    + case_bool_decide; [by apply Hcover|].
      apply elem_of_app. left. by apply Hcover.
    + case_bool_decide as Hin; [done|]. apply elem_of_app. right. by left.
Qed.

Lemma grouped_foldl l : grouped l (foldl group_step [] l).
Proof.
  induction l as [|d l IH] using rev_ind.
  - split; [constructor|]. split; [done|]. split.
    + intros g Hg. by apply elem_of_nil in Hg.
    + intros d Hd. by apply elem_of_nil in Hd.
  - rewrite foldl_app. by apply grouped_step.
Qed.

Lemma filter_filter_and {A : Type} (f g : A -> bool) (l : list A) :
  List.filter g (List.filter f l) = List.filter (fun x => f x && g x) l.
Proof.
  induction l as [|x l IH]; [done|]. simpl.
  destruct (f x); simpl; [destruct (g x)|]; by rewrite IH.
Qed.

Lemma filter_length_bound {A : Type} (f : A -> bool) (l : list A) :
  (length (List.filter f l) <= length l)%nat.
Proof.
  induction l as [|x l IH]; [done|]. simpl. destruct (f x); simpl; lia.
Qed.

(** X17: [getStats] returns one group for each difficulty that occurs, no
    difficulty twice, and the counts of the groups add up to the number of
    problem sets.  A group's count is the number of sets with its
    difficulty (at least one), its average is the double quotient of
    their [totalProblems] summed by that number, and its [publicCount] is
    the number of sets [findByDifficulty] returns for the difficulty,
    never more than the count. *)
Theorem getStats_groups (collection : list ProblemSet) :
  let stats := getStats collection in
  NoDup (stats_id <$> stats) /\
  sum_of (stats_count <$> stats) = Z.of_nat (length collection) /\
  (forall d, d ∈ collection -> difficulty d ∈ stats_id <$> stats) /\
  (forall st,
      st ∈ stats ->
      let group := members (stats_id st) collection in
      1 <= stats_count st /\
      stats_count st = Z.of_nat (length group) /\
      stats_publicCount st <= stats_count st /\
      (forall name,
          stats_id st = Some name ->
          stats_publicCount st
            = Z.of_nat (length (findByDifficulty name collection))) /\
      avgProblems st
        = Number.div (Number.of_Z (sum_of (totalProblems <$> group)))
            (Number.of_Z (Z.of_nat (length group)))).
Proof.
  cbv zeta. unfold getStats.
  destruct (grouped_foldl collection) as (Hnd & Hsum & Hsumm & Hcover).
  set (gs := foldl group_step [] collection) in *.
  assert (stats_id <$> (finish <$> gs) = group_id <$> gs) as Hids.
  { rewrite <- list_fmap_compose. done. }
  assert (stats_count <$> (finish <$> gs) = count <$> gs) as Hcounts.
  { rewrite <- list_fmap_compose. done. }
  rewrite Hids, Hcounts. split; [done|]. split; [done|]. split; [done|].
  intros st (g & -> & Hg)%list_elem_of_fmap. simpl.
  destruct (Hsumm g Hg) as [(Hc & Hp & Hs) Hone].
  split; [done|]. split; [done|]. split; [|split].
  - rewrite Hp, Hc. pose proof (filter_length_bound isPublic
                                  (members (group_id g) collection)). lia.
  - intros name Hname. rewrite Hp, Hname. unfold members, findByDifficulty.
    by rewrite filter_filter_and.
  - by rewrite Hs, Hc.
Qed.

End ProblemSetLaws.

Module RouteLaws.
Import Routes RoutesFacts.



End RouteLaws.

Module EnrollmentLaws.
Import Routes EnrollmentAlias EnrollmentFacts.

Global Instance newer_first_total : Total newer_first.
Proof. intros a b. unfold newer_first. lia. Qed.

Global Instance newer_first_trans : Transitive newer_first.
Proof. intros a b c. unfold newer_first. lia. Qed.

Lemma find_all_sorted st all :
  find_all st = Returns all -> StronglySorted newer_first all.
Proof.
  unfold find_all. destruct (available st); [|done]. intros [= <-].
  apply StronglySorted_merge_sort; apply _.
Qed.

Section Handler.
Context (ObjectId_new : string -> option string).

(** X19: for a request without a user id, with the database answering,
    GET /api/problem-sets-with-enrollment answers 200 with one record for
    each stored problem set, newest first, and no record is marked
    enrolled; [new ObjectId] is not consulted, so the answer is the same
    for every driver. *)
Theorem anonymous_listing (st : Store) (user : option AuthUser) :
  Js.truthy_string (user ≫= user_id) = false -> available st = true ->
  exists records,
    problem_sets_with_enrollment ObjectId_new st user
      = mkResponse 200 (Payload records) /\
    ps_of <$> records ≡ₚ problemsets st /\
    StronglySorted newer_first (ps_of <$> records) /\
    (forall record, record ∈ records -> isEnrolled record = false) /\
    (forall other,
        problem_sets_with_enrollment other st user
          = mkResponse 200 (Payload records)).
Proof.
  intros Hanon Hav. unfold problem_sets_with_enrollment.
  destruct (find_all st) as [all|e] eqn:Hall.
  2:{ unfold find_all in Hall. by rewrite Hav in Hall. }
  exists (map_one ∅ <$> all).
  assert (match user ≫= user_id with
          | Some uid =>
              if Js.truthy_string (user ≫= user_id)
              then user_enrollments ObjectId_new st uid else Returns ∅
          | None => Returns ∅
          end = Returns ∅) as ->.
  { destruct (user ≫= user_id); [|done]. by rewrite Hanon. }
  split; [done|]. rewrite ps_of_map_one.
  split; [by apply (find_all_perm st)|].
  split; [by apply (find_all_sorted st)|].
  split.
  - intros record (ps & -> & _)%list_elem_of_fmap. unfold map_one. simpl.
    rewrite !bool_decide_eq_false_2; [done|set_solver|set_solver].
  - intros other. destruct (user ≫= user_id); [|done]. by rewrite Hanon.
Qed.

(** X20: for an authenticated user, every problem set that lists the user
    among its participants, as a string or as the ObjectId of the user's
    id, is marked enrolled in the answer of
    GET /api/problem-sets-with-enrollment, and so is every set whose [id]
    or [_id] prints like the [problemSetId] of one of the user's records,
    whatever the types of the two identifiers. *)
Theorem enrolled_sets_are_marked (st : Store) (user : option AuthUser)
    (uid oid : string) (records : list Mapped) :
  user ≫= user_id = Some uid -> uid <> "" ->
  ObjectId_new uid = Some oid ->
  problem_sets_with_enrollment ObjectId_new st user
    = mkResponse 200 (Payload records) ->
  forall record,
    record ∈ records ->
    (Str uid ∈ participants (ps_of record) \/
     Oid oid ∈ participants (ps_of record) \/
     exists e, e ∈ enrollments st /\ userId e = uid /\
               (String_ (problemSetId e) = String_ (id (ps_of record)) \/
                String_ (problemSetId e) = String_ (_id (ps_of record)))) ->
    isEnrolled record = true.
Proof.
  intros Huid Hne Hoid. unfold problem_sets_with_enrollment. rewrite Huid.
  assert (Js.truthy_string (Some uid) = true) as ->.
  { simpl. apply negb_true_iff, String.eqb_neq. done. }
  destruct (find_all st) as [all|e0] eqn:Hall; [|done].
  destruct (user_enrollments ObjectId_new st uid) as [ids|e] eqn:Hids;
    [|done].
  intros [= <-] record (ps & -> & Hps)%list_elem_of_fmap Hsrc.
  apply (map_one_enrolled ObjectId_new st uid ids ps Hids). simpl in Hsrc.
  assert (ps ∈ problemsets st) as Hin.
  { by rewrite <- (find_all_perm st all Hall). }
  assert (names_set (or_else (id ps) (_id ps)) ps) as Hself.
  { unfold names_set, or_else. destruct (truthy (id ps)); auto. }
  destruct Hsrc as [Hs|[Ho|(e & He & Hu & Hn)]].
  - right. exists ps. split; [done|]. split; [by left|done].
  - right. exists ps. split; [done|]. split; [|done]. right. by exists oid.
  - left. by exists e.
Qed.

(** X21: the [totalProblems] of a record is the length of the first of
    [problemInstances], [problems] and [problemIds] that is present and
    not empty: an empty [problemInstances] array does not hide the older
    lists.  It is 0 exactly when all three are missing or empty, and it
    does not depend on the enrollments. *)
Theorem record_totalProblems (ids : gset string) (ps : RawProblemSet) :
  let total := totalProblems (map_one ids ps) in
  let len {A} (l : option (list A)) := Z.of_nat (length (default [] l)) in
  (len (problemInstances ps) <> 0 -> total = len (problemInstances ps)) /\
  (len (problemInstances ps) = 0 -> len (problems ps) <> 0 ->
   total = len (problems ps)) /\
  (len (problemInstances ps) = 0 -> len (problems ps) = 0 ->
   total = len (problemIds ps)) /\
  (total = 0 <->
   len (problemInstances ps) = 0 /\ len (problems ps) = 0 /\
   len (problemIds ps) = 0) /\
  total = totalProblems (map_one ∅ ps).
Proof.
  cbv zeta. unfold map_one, or_length, length_of. simpl.
  destruct (problemInstances ps) as [[|i is_]|];
    destruct (problems ps) as [[|p ps_]|];
    destruct (problemIds ps) as [[|q qs]|]; simpl;
    repeat split; try done; try lia.
Qed.

End Handler.

Lemma anonymous_listing_witness :
  exists records,
    problem_sets_with_enrollment sample_ObjectId sample_store None
      = mkResponse 200 (Payload records) /\
    isEnrolled <$> records = [false; false; false].
Proof.
  destruct (anonymous_listing sample_ObjectId sample_store None eq_refl
              eq_refl) as (records & Hres & _).
  exists records. split; [exact Hres|].
  vm_compute in Hres. injection Hres as <-. reflexivity.
Defined.

Lemma enrolled_sets_are_marked_witness :
  exists records,
    problem_sets_with_enrollment sample_ObjectId sample_store sample_user
      = mkResponse 200 (Payload records) /\
    forall record,
      record ∈ records ->
      Oid sample_uid ∈ participants (ps_of record) ->
      isEnrolled record = true.
Proof.
  assert (sample_uid <> "") as Hne by done.
  assert (exists records,
             problem_sets_with_enrollment sample_ObjectId sample_store
               sample_user = mkResponse 200 (Payload records))
    as [records Hres] by (by eexists).
  exists records. split; [exact Hres|]. intros record Hin Hp.
  apply (enrolled_sets_are_marked sample_ObjectId sample_store sample_user
           sample_uid sample_uid records eq_refl Hne eq_refl Hres record
           Hin).
  right. left. exact Hp.
Defined.

End EnrollmentLaws.

Module ExpressLaws.
Import Routes Express ExpressFacts.

Lemma same_segment_other x y r :
  same_segment x r = true -> Js.toLowerCase x <> Js.toLowerCase y ->
  same_segment y r = false.
Proof.
  unfold same_segment. intros Hx%String.eqb_eq Hne. apply String.eqb_neq.
  congruence.
Qed.

(** Rewrites [same_segment x c] to [false] for every other literal [x],
    given [Hc : same_segment y c = true]. *)
Ltac other_segments c Hc :=
  repeat match goal with
  | |- context [same_segment ?x c] =>
      rewrite (same_segment_other _ x c Hc)
        by (let H := fresh in intros H; vm_compute in H; discriminate H)
  end.

(** Once a layer of the list answers, the request is answered or leaves
    with an error raised before that layer. *)
Lemma dispatch_answered env req layers l a :
  l ∈ layers -> answer_of env req l = answers a ->
  answered (dispatch env req layers) = true \/
  exists e, dispatch env req layers = unanswered (Some e).
Proof.
  unfold dispatch.
  induction layers as [|l0 layers IH]; intros Hin Ha.
  { by apply elem_of_nil in Hin. }
  cbn [dispatch_from]. destruct (answer_of env req l0) as [a0| |e] eqn:H0.
  - left. destruct l0; simpl in H0; repeat case_match; by simplify_eq.
  - apply elem_of_cons in Hin as [->|Hin]; [congruence|]. by apply IH.
  - right. exists e. apply dispatch_pending.
Qed.

(** X22: [registerRoutes] draws the line at /api.  A request to a path
    under /api never leaves its registrations quietly: one of them answers
    it, or it leaves with an error pending.  A request to any other path
    is seen by the maintenance routes alone: what they do with it decides
    the outcome, and no router, inline route or fallback is tried. *)
Theorem api_boundary (env : Mounted) (req : Request) :
  if under_api req
  then answered (dispatch env req registerRoutes) = true \/
       exists e, dispatch env req registerRoutes = unanswered (Some e)
  else dispatch env req registerRoutes =
       match maintenance_does env req with
       | responds => by_maintenance
       | calls_next => unanswered None
       | calls_next_with_error => unanswered (Some maintenance_error)
       end.
Proof.
  destruct (under_api req) eqn:H.
  - apply (dispatch_answered env req registerRoutes (use_not_found "/api")
             (by_not_found not_found_handler)).
    + unfold registerRoutes. do 19 right. by left.
    + unfold answer_of. unfold under_api in H. by rewrite H.
  - unfold under_api in H.
    unfold registerRoutes, dispatch, dispatch_from, answer_of, layer_match.
    set (segs := segments (path req)) in *.
    destruct (maintenance_does env req); [done| |done].
    destruct segs as [|r rest]; [done|].
    cbn -[same_segment] in *. rewrite andb_true_r in H. by rewrite !H.
Qed.

Lemma pattern_two p1 p2 segs :
  matches_pattern [p1; p2] segs = true -> exists a b, segs = [a; b].
Proof.
  destruct segs as [|a [|b [|c rest]]]; simpl;
    rewrite ?andb_false_r; try done. eauto.
Qed.

Lemma pattern_three p1 p2 p3 segs :
  matches_pattern [p1; p2; p3] segs = true -> exists a b c, segs = [a; b; c].
Proof.
  destruct segs as [|a [|b [|c [|d rest]]]]; simpl;
    rewrite ?andb_false_r; try done. eauto.
Qed.

Lemma pattern_four p1 p2 p3 p4 segs :
  matches_pattern [p1; p2; p3; p4] segs = true ->
  exists a b c d, segs = [a; b; c; d].
Proof.
  destruct segs as [|a [|b [|c [|d [|e rest]]]]]; simpl;
    rewrite ?andb_false_r; try done. eauto.
Qed.

(** X23: the inline route POST /api/courses/:id/reset-progress is
    registered after the router mounted at /api/courses, so a matching
    request reaches the inline handler only when the maintenance routes
    and then that router pass it on, and then only if the id decodes: a
    malformed escape in the id leaves the request unanswered with the
    [URIError].  No other registration sees it. *)
Theorem reset_progress_behind_courses_router (env : Mounted)
    (req : Request) :
  method req = POST ->
  matches_pattern (segments "/api/courses/:id/reset-progress")
    (segments (path req)) = true ->
  dispatch env req registerRoutes =
    match maintenance_does env req with
    | responds => by_maintenance
    | calls_next_with_error => unanswered (Some maintenance_error)
    | calls_next =>
        match router_does env coursesRouter "/api/courses" req with
        | responds => by_router coursesRouter "/api/courses"
        | calls_next_with_error =>
            unanswered (Some (router_error coursesRouter "/api/courses"))
        | calls_next =>
            match layer_match (segments "/api/courses/:id/reset-progress")
                    (segments (path req)) with
            | match_failed e => unanswered (Some e)
            | _ => by_endpoint reset_progress_endpoint
            end
        end
    end.
Proof.
  intros Hm Hp.
  unfold registerRoutes, dispatch, dispatch_from, answer_of, layer_match.
  rewrite Hm, Hp.
  set (segs := segments (path req)) in *.
  change (segments "/api/courses/:id/reset-progress")
    with ["api"; "courses"; ":id"; "reset-progress"] in *.
  destruct (pattern_four _ _ _ _ _ Hp) as (a & c & i & r & ->).
  cbn -[same_segment] in Hp.
  apply andb_true_iff in Hp as [Ha Hp]. apply andb_true_iff in Hp as [Hc Hp].
  apply andb_true_iff in Hp as [Hi Hp]. apply andb_true_iff in Hp as [Hr _].
  destruct (maintenance_does env req); [done| |done].
  cbn -[same_segment decodes]. rewrite !Ha, !Hc. other_segments c Hc.
  cbn -[same_segment decodes].
  destruct (router_does env coursesRouter "/api/courses" req);
    [done| |done].
  by destruct (decodes i).
Qed.

Lemma reset_progress_behind_courses_router_witness :
  dispatch idle (mkRequest POST "/api/courses/12/reset-progress/")
    registerRoutes = by_endpoint reset_progress_endpoint /\
  dispatch idle (mkRequest POST "/api/courses/%E0%A4%A/reset-progress")
    registerRoutes = unanswered (Some (decode_failed "%E0%A4%A")).
Proof.
  split.
  - by rewrite (reset_progress_behind_courses_router idle
                  (mkRequest POST "/api/courses/12/reset-progress/")
                  eq_refl eq_refl).
  - by rewrite (reset_progress_behind_courses_router idle
                  (mkRequest POST "/api/courses/%E0%A4%A/reset-progress")
                  eq_refl eq_refl).
Defined.

(** X24: the alias routes are shadowed by no router.  When the
    maintenance routes pass the request on, a GET or HEAD for
    /api/problem-sets-with-enrollment (which the mount /api/problem-sets
    does not match) reaches its inline handler, and a DELETE or PATCH for
    /api/problem-set-enrollments/:enrollmentId reaches its inline handler
    if the id decodes and leaves with the [URIError] if it does not. *)
Theorem alias_routes_not_shadowed (env : Mounted) (req : Request) :
  maintenance_does env req = calls_next ->
  ((method req = GET \/ method req = HEAD) ->
   matches_pattern (segments "/api/problem-sets-with-enrollment")
     (segments (path req)) = true ->
   dispatch env req registerRoutes
     = by_endpoint problem_sets_with_enrollment_endpoint) /\
  (forall e, (method req = DELETE /\ e = delete_enrollment_endpoint) \/
             (method req = PATCH /\ e = patch_enrollment_endpoint) ->
   matches_pattern (segments "/api/problem-set-enrollments/:enrollmentId")
     (segments (path req)) = true ->
   dispatch env req registerRoutes =
     match layer_match
             (segments "/api/problem-set-enrollments/:enrollmentId")
             (segments (path req)) with
     | match_failed err => unanswered (Some err)
     | _ => by_endpoint e
     end).
Proof.
  intros Hmaint.
  unfold registerRoutes, dispatch, dispatch_from, answer_of, layer_match.
  rewrite Hmaint.
  set (segs := segments (path req)) in *. split.
  - intros Hm Hp.
    change (segments "/api/problem-sets-with-enrollment")
      with ["api"; "problem-sets-with-enrollment"] in Hp.
    destruct (pattern_two _ _ _ Hp) as (a & c & ->).
    cbn -[same_segment] in Hp.
    apply andb_true_iff in Hp as [Ha Hp]. apply andb_true_iff in Hp as [Hc _].
    cbn -[same_segment decodes]. rewrite !Ha, !Hc. other_segments c Hc.
    cbn -[same_segment decodes]. by destruct Hm as [-> | ->].
  - intros e He Hp. rewrite Hp.
    change (segments "/api/problem-set-enrollments/:enrollmentId")
      with ["api"; "problem-set-enrollments"; ":enrollmentId"] in *.
    destruct (pattern_three _ _ _ _ Hp) as (a & c & i & ->).
    cbn -[same_segment] in Hp.
    apply andb_true_iff in Hp as [Ha Hp]. apply andb_true_iff in Hp as [Hc Hp].
    apply andb_true_iff in Hp as [Hi _].
    cbn -[same_segment decodes]. rewrite !Ha, ?Hc. other_segments c Hc.
    cbn -[same_segment decodes]. rewrite ?andb_false_r, ?Hi.
    cbn -[same_segment decodes].
    destruct (decodes i); [|done].
    by destruct He as [[-> ->] | [-> ->]].
Qed.

Lemma alias_routes_not_shadowed_witness :
  dispatch idle (mkRequest HEAD "/api/Problem-Sets-With-Enrollment")
    registerRoutes = by_endpoint problem_sets_with_enrollment_endpoint /\
  dispatch idle (mkRequest PATCH "/api/problem-set-enrollments/5")
    registerRoutes = by_endpoint patch_enrollment_endpoint.
Proof.
  split.
  - exact (proj1 (alias_routes_not_shadowed idle
                    (mkRequest HEAD "/api/Problem-Sets-With-Enrollment")
                    eq_refl) (or_intror eq_refl) eq_refl).
  - by rewrite (proj2 (alias_routes_not_shadowed idle
                         (mkRequest PATCH "/api/problem-set-enrollments/5")
                         eq_refl) patch_enrollment_endpoint
                  (or_intror (conj eq_refl eq_refl)) eq_refl).
Defined.

(** A request that fits none of the three routes of the submissions
    router, with parameters that decode, is passed on by the router,
    whatever [protect] and the controllers do. *)
Lemma submissions_router_passes handles m below :
  submissions_route m below = false ->
  Forall (fun val => decodes val = true) below ->
  router_handle handles submissions_routes m below = calls_next.
Proof.
  unfold submissions_route, submissions_routes, router_handle, layer_match.
  change (segments "/") with (@nil string).
  change (segments "/:id") with [":id"].
  destruct below as [|i [|j rest]]; cbn -[decodes].
  - destruct (serves GET m), (serves POST m); by try discriminate.
  - intros H [Hi _]%Forall_cons. rewrite Hi. cbn.
    destruct (negb (String.eqb i "")); [|done]. cbn.
    destruct (serves DELETE m); [|done]. exfalso. revert H.
    by destruct (serves GET m), (serves POST m).
  - rewrite !andb_false_r. by destruct (negb (String.eqb i "")).
Qed.



End ExpressLaws.
